(** * Scene synthesis and asset lifecycle of [beam_service/app.py]

    A shallow embedding of the parts of [app.py] that carry the
    algorithmic content of the lyric-video service: duration estimation,
    the LRU texture cache, the uniqueness validator, sequential and
    parallel scene generation, the animation registry lookup, the upload
    step and the storage lifecycle manager.

    Conventions.
    - Python [float] values are rationals ([Q]); every float operation is
      followed by a rounding operator [rnd] that the development keeps
      abstract (exact arithmetic is [rnd := fun q => q]).  The
      conversion of an [int] that is too large for a float raises
      [OverflowError], as in Python; infinities and NaN, which float
      arithmetic itself could produce, are outside the model.
    - Python [int] is [Z], [str] is [string] (code points below 256).
    - A call that may raise returns a [result]; [try/except Exception]
      is a match on it.
    - Collaborators that live outside the repository (PIL, moviepy, the
      Cloudinary client, the hosted image model) are section variables. *)

From Stdlib Require Import ZArith QArith Qminmax List String Ascii Lia Bool.
From Stdlib Require Import Sorting.Sorted Permutation.
From stdpp Require Import gmap strings pretty.
Import ListNotations.

Local Open Scope Z_scope.

(* ================================================================== *)
(** ** Python values, exceptions and small library functions          *)
(* ================================================================== *)

Module Py.

(** The exception classes that the modelled code can raise. *)
Inductive exn : Type :=
| TypeError
| ValueError
| KeyError
| AttributeError
| OverflowError
| ExternalError (msg : string).

Inductive result (A : Type) : Type :=
| Ok (a : A)
| Raise (e : exn).
Arguments Ok {A} a.
Arguments Raise {A} e.

Definition bind {A B} (r : result A) (k : A -> result B) : result B :=
  match r with
  | Ok a => k a
  | Raise e => Raise e
  end.

Definition is_ok {A} (r : result A) : bool :=
  match r with Ok _ => true | Raise _ => false end.

(** JSON scalars as they arrive in a job payload. *)
Inductive value : Type :=
| VNone
| VBool (b : bool)
| VInt (z : Z)
| VFloat (q : Q).

(** [str.isspace] on one character, restricted to code points < 256:
    TAB..CR, FS..US, SPACE, NEL and NBSP. *)
Definition isspace (c : ascii) : bool :=
  let n := N_of_ascii c in
  ((9 <=? n) && (n <=? 13) || (28 <=? n) && (n <=? 32)
   || (n =? 133) || (n =? 160))%N.

(** [s.split()] with no separator: maximal runs of non-space
    characters.  [cur] is the word being read, last character first. *)
Fixpoint split_from (cur : list ascii) (s : string) : list string :=
  let flush := match cur with
               | [] => []
               | _ :: _ => [string_of_list_ascii (rev cur)]
               end in
  match s with
  | EmptyString => flush
  | String c s' =>
      if isspace c then flush ++ split_from [] s'
      else split_from (c :: cur) s'
  end.

Definition split (s : string) : list string := split_from [] s.

(** [s.startswith(p)] *)
Fixpoint startswith (p s : string) : bool :=
  match p, s with
  | EmptyString, _ => true
  | String a p', String b s' => Ascii.eqb a b && startswith p' s'
  | String _ _, EmptyString => false
  end.

Fixpoint drop (n : nat) (s : string) : string :=
  match n, s with
  | O, _ => s
  | S n', String _ s' => drop n' s'
  | S _, EmptyString => EmptyString
  end.

(** [s.replace(old, "")] for a non-empty [old]: scan left to right and
    delete each non-overlapping occurrence.  [fuel] bounds the number
    of scan steps; [String.length s + 1] is always enough. *)
Fixpoint remove_all_fuel (fuel : nat) (old s : string) : string :=
  match fuel with
  | O => s
  | S fuel' =>
      match s with
      | EmptyString => EmptyString
      | String c s' =>
          if startswith old s
          then remove_all_fuel fuel' old (drop (String.length old) s)
          else String c (remove_all_fuel fuel' old s')
      end
  end.

Definition remove_all (old s : string) : string :=
  remove_all_fuel (S (String.length s)) old s.

(** [c.lower()] on ASCII letters and the Latin-1 capitals. *)
Definition lower_char (c : ascii) : ascii :=
  let n := N_of_ascii c in
  if ((65 <=? n) && (n <=? 90)
      || (192 <=? n) && (n <=? 222) && negb (n =? 215))%N
  then ascii_of_N (n + 32) else c.

Fixpoint lower (s : string) : string :=
  match s with
  | EmptyString => EmptyString
  | String c s' => String (lower_char c) (lower s')
  end.

(** Python's two-argument [max(a, b)]: the first argument wins ties. *)
Definition max2 (a b : Q) : Q := if Qlt_le_dec a b then b else a.

(** [all([...])] over environment variables: unset and empty are falsy. *)
Definition truthy_env (v : option string) : bool :=
  match v with
  | Some (String _ _) => true
  | _ => false
  end.

End Py.

Import Py.

(* ================================================================== *)
(** ** Lyric lines and duration estimation                            *)
(* ================================================================== *)

(** A lyric dict.  Every key is optional; [text] and [mood] are strings
  when present, [duration] is any JSON scalar. *)
Record lyric : Type := mkLyric {
l_text : option string;
l_time : option Q;
l_duration : option value;
l_mood : option string
}.

Definition get_text (l : lyric) : string :=
match l_text l with Some t => t | None => EmptyString end.

Definition get_mood (l : lyric) : string :=
match l_mood l with Some m => m | None => "neutral"%string end.

Module Duration.

(** The least integer that [float] refuses: the midpoint between the
    largest double, [2^1024 - 2^971], and [2^1024]. *)
Definition float_overflow : Z := 2 ^ 1024 - 2 ^ 970.

Section Rounding.

(** Rounding to the nearest representable float. *)
Variable rnd : Q -> Q.

(** The conversion of an [int] to a float, explicit in [float(z)] and
    implicit when an [int] is an operand of float arithmetic: the
    nearest double, ties to even, and [OverflowError] when that would
    lie beyond the largest double, which is the case from
    [float_overflow] on. *)
Definition float_of_int (z : Z) : result Q :=
  if Z.abs z <? float_overflow then Ok (rnd (inject_Z z))
  else Raise OverflowError.

(** [float(v)]: [None] is a [TypeError]; booleans and integers are
    converted; a float is returned as it is. *)
Definition py_float (v : value) : result Q :=
  match v with
  | VNone => Raise TypeError
  | VBool b => Ok (if b then 1%Q else 0%Q)
  | VInt z => float_of_int z
  | VFloat q => Ok q
  end.

Definition word_count (t : string) : Z := Z.of_nat (List.length (split t)).

(** [optimized_calculate_duration(lyric_text, bpm)]; the division
    [60.0 / max(1, bpm)] converts its [int] operand first. *)
Definition optimized_calculate_duration (lyric_text : string) (bpm : Z)
    : result Q :=
  let words := word_count lyric_text in
  let beats := max2 1 (rnd (inject_Z words / 4)) in
  bind (float_of_int (Z.max 1 bpm)) (fun divisor =>
    let seconds_per_beat := rnd (60 / divisor) in
    let duration := rnd (beats * seconds_per_beat) in
    Ok (max2 duration 1)).

Definition calculate_lyric_duration (l : lyric) (bpm : Z) : result Q :=
  match l_duration l with
  | Some v => py_float v
  | None =>
      let words := word_count (get_text l) in
      let beats := max2 1 (rnd (inject_Z words / 4)) in
      bind (float_of_int (Z.max 1 bpm)) (fun divisor =>
        let seconds_per_beat := rnd (60 / divisor) in
        let duration := rnd (beats * seconds_per_beat) in
        Ok (max2 duration 1))
  end.

(** The derived duration as the specification words it:
    [max(1.0, max(1, word_count/4) * 60/bpm)]. *)
Definition spec_derived_duration (lyric_text : string) (bpm : Z) : Q :=
  Qmax 1 (rnd (Qmax 1 (rnd (inject_Z (word_count lyric_text) / 4))
               * rnd (60 / rnd (inject_Z bpm)))).

End Rounding.

(** Exact arithmetic: every result is representable. *)
Definition exact : Q -> Q := fun q => q.

End Duration.

(* ================================================================== *)
(** ** [ModelCache]: the LRU texture cache                            *)
(* ================================================================== *)

(** [_cache] is an [OrderedDict]: an association list without duplicate
  keys, oldest entry first.  [max_size] is the class attribute
  [_max_size]; the operations take it as an argument so that the
  results hold for any capacity. *)
Module ModelCache.

Definition _max_size : nat := 100.

Section Cache.

Context {V : Type}.

Definition cache : Type := list (string * V).

Definition keys (c : cache) : list string := map fst c.

(** [key in cls._cache] *)
Fixpoint contains (key : string) (c : cache) : bool :=
  match c with
  | [] => false
  | (k, _) :: c' => if String.eqb k key then true else contains key c'
  end.

(** [cls._cache[key]] as a read. *)
Fixpoint getitem (key : string) (c : cache) : result V :=
  match c with
  | [] => Raise KeyError
  | (k, v) :: c' => if String.eqb k key then Ok v else getitem key c'
  end.

(** [cls._cache[key] = texture]: a present key keeps its position, a
    new key goes to the end. *)
Fixpoint setitem (key : string) (texture : V) (c : cache) : cache :=
  match c with
  | [] => [(key, texture)]
  | (k, v) :: c' =>
      if String.eqb k key then (k, texture) :: c'
      else (k, v) :: setitem key texture c'
  end.

Fixpoint remove (key : string) (c : cache) : cache :=
  match c with
  | [] => []
  | (k, v) :: c' => if String.eqb k key then c' else (k, v) :: remove key c'
  end.

(** [move_to_end(key)]: [KeyError] when the key is absent. *)
Definition move_to_end (key : string) (c : cache) : result cache :=
  bind (getitem key c) (fun v => Ok (remove key c ++ [(key, v)])).

(** [popitem(last=False)]: drops the oldest entry. *)
Definition popitem_first (c : cache) : result cache :=
  match c with
  | [] => Raise KeyError
  | _ :: c' => Ok c'
  end.

Definition cache_texture (max_size : nat) (key : string) (texture : V)
    (c : cache) : result cache :=
  bind (move_to_end key (setitem key texture c)) (fun c1 =>
    if (max_size <? List.length c1)%nat then popitem_first c1 else Ok c1).

(** The overflow test and eviction at the end of [cache_texture],
    on the cache as [move_to_end] left it. *)
Definition evict (max_size : nat) (c : cache) : cache :=
  if (max_size <? List.length c)%nat then List.tl c else c.

Definition get_cached_texture (key : string) (c : cache)
    : result (option V * cache) :=
  if contains key c then
    bind (move_to_end key c) (fun c1 =>
      bind (getitem key c1) (fun v => Ok (Some v, c1)))
  else Ok (None, c).

(** A client of the cache issues a sequence of these two calls. *)
Inductive op : Type :=
| Put (key : string) (texture : V)
| Get (key : string).

Definition run_op (max_size : nat) (o : op) (c : cache) : result cache :=
  match o with
  | Put k v => cache_texture max_size k v c
  | Get k => bind (get_cached_texture k c) (fun r => Ok (snd r))
  end.

Fixpoint run_ops (max_size : nat) (os : list op) (c : cache) : result cache :=
  match os with
  | [] => Ok c
  | o :: os' => bind (run_op max_size o c) (run_ops max_size os')
  end.

Definition put_all (max_size : nat) (kvs : list (string * V)) (c : cache)
    : result cache :=
  run_ops max_size (map (fun kv => Put (fst kv) (snd kv)) kvs) c.

End Cache.
End ModelCache.

(* ================================================================== *)
(** ** MD5 ([hashlib.md5(...).hexdigest()])                           *)
(* ================================================================== *)

Module MD5.

Definition wrap32 (x : Z) : Z := x mod 2 ^ 32.

Definition rotl32 (x s : Z) : Z :=
  Z.lor (wrap32 (Z.shiftl x s)) (Z.shiftr x (32 - s)).

Definition not32 (x : Z) : Z := Z.lxor x (2 ^ 32 - 1).

Definition shifts : list Z :=
  [7; 12; 17; 22; 7; 12; 17; 22; 7; 12; 17; 22; 7; 12; 17; 22;
   5; 9; 14; 20; 5; 9; 14; 20; 5; 9; 14; 20; 5; 9; 14; 20;
   4; 11; 16; 23; 4; 11; 16; 23; 4; 11; 16; 23; 4; 11; 16; 23;
   6; 10; 15; 21; 6; 10; 15; 21; 6; 10; 15; 21; 6; 10; 15; 21].

Definition sines : list Z :=
  [0xd76aa478; 0xe8c7b756; 0x242070db; 0xc1bdceee;
   0xf57c0faf; 0x4787c62a; 0xa8304613; 0xfd469501;
   0x698098d8; 0x8b44f7af; 0xffff5bb1; 0x895cd7be;
   0x6b901122; 0xfd987193; 0xa679438e; 0x49b40821;
   0xf61e2562; 0xc040b340; 0x265e5a51; 0xe9b6c7aa;
   0xd62f105d; 0x02441453; 0xd8a1e681; 0xe7d3fbc8;
   0x21e1cde6; 0xc33707d6; 0xf4d50d87; 0x455a14ed;
   0xa9e3e905; 0xfcefa3f8; 0x676f02d9; 0x8d2a4c8a;
   0xfffa3942; 0x8771f681; 0x6d9d6122; 0xfde5380c;
   0xa4beea44; 0x4bdecfa9; 0xf6bb4b60; 0xbebfbc70;
   0x289b7ec6; 0xeaa127fa; 0xd4ef3085; 0x04881d05;
   0xd9d4d039; 0xe6db99e5; 0x1fa27cf8; 0xc4ac5665;
   0xf4292244; 0x432aff97; 0xab9423a7; 0xfc93a039;
   0x655b59c3; 0x8f0ccc92; 0xffeff47d; 0x85845dd1;
   0x6fa87e4f; 0xfe2ce6e0; 0xa3014314; 0x4e0811a1;
   0xf7537e82; 0xbd3af235; 0x2ad7d2bb; 0xeb86d391].

(** Message padding: a [0x80] byte, zeros up to 56 mod 64, then the
    bit length as eight little-endian bytes. *)
Definition le_bytes (n : nat) (x : Z) : list Z :=
  map (fun i => Z.shiftr x (8 * Z.of_nat i) mod 256) (seq 0 n).

Definition pad (msg : list Z) : list Z :=
  let len := Z.of_nat (List.length msg) in
  let zeros := Z.to_nat ((55 - len) mod 64) in
  msg ++ [128] ++ repeat 0 zeros ++ le_bytes 8 (8 * len).

Fixpoint le_words (fuel : nat) (bs : list Z) : list Z :=
  match fuel, bs with
  | S fuel', b0 :: b1 :: b2 :: b3 :: bs' =>
      (b0 + 256 * b1 + 65536 * b2 + 16777216 * b3) :: le_words fuel' bs'
  | _, _ => []
  end.

Record regs : Type := Regs { rA : Z; rB : Z; rC : Z; rD : Z }.

Definition round (m : list Z) (r : regs) (i : nat) : regs :=
  let '(Regs a b c d) := r in
  let zi := Z.of_nat i in
  let '(f, g) :=
    if (i <? 16)%nat then (Z.lor (Z.land b c) (Z.land (not32 b) d), zi)
    else if (i <? 32)%nat then
      (Z.lor (Z.land d b) (Z.land (not32 d) c), (5 * zi + 1) mod 16)
    else if (i <? 48)%nat then (Z.lxor (Z.lxor b c) d, (3 * zi + 5) mod 16)
    else (Z.lxor c (Z.lor b (not32 d)), (7 * zi) mod 16) in
  let f' := wrap32 (f + a + nth i sines 0 + nth (Z.to_nat g) m 0) in
  Regs d (wrap32 (b + rotl32 f' (nth i shifts 0))) b c.

Definition block (r : regs) (m : list Z) : regs :=
  let r' := fold_left (round m) (seq 0 64) r in
  Regs (wrap32 (rA r + rA r')) (wrap32 (rB r + rB r'))
       (wrap32 (rC r + rC r')) (wrap32 (rD r + rD r')).

Fixpoint blocks (fuel : nat) (r : regs) (ws : list Z) : regs :=
  match fuel, ws with
  | S fuel', _ :: _ => blocks fuel' (block r (firstn 16 ws)) (skipn 16 ws)
  | _, _ => r
  end.

Definition digest (msg : list Z) : list Z :=
  let ws := le_words (List.length (pad msg)) (pad msg) in
  let r := blocks (List.length ws)
             (Regs 0x67452301 0xefcdab89 0x98badcfe 0x10325476) ws in
  le_bytes 4 (rA r) ++ le_bytes 4 (rB r) ++ le_bytes 4 (rC r) ++ le_bytes 4 (rD r).

Definition hex_digit (n : Z) : ascii :=
  nth (Z.to_nat n) (list_ascii_of_string "0123456789abcdef") "0"%char.

Definition hex_of_bytes (bs : list Z) : list ascii :=
  flat_map (fun b => [hex_digit (b / 16); hex_digit (b mod 16)]) bs.

(** [s.encode()]: UTF-8, one byte below 128 and two bytes from 128 to
    255. *)
Definition bytes_of_string (s : string) : list Z :=
  flat_map (fun c => let n := Z.of_N (N_of_ascii c) in
                     if n <? 128 then [n] else [192 + n / 64; 128 + n mod 64])
           (list_ascii_of_string s).

(** [hashlib.md5(s.encode()).hexdigest()] *)
Definition hexdigest (s : string) : string :=
  string_of_list_ascii (hex_of_bytes (digest (bytes_of_string s))).

End MD5.

(* ================================================================== *)
(** ** [UniquenessValidator]                                          *)
(* ================================================================== *)

Module UniquenessValidator.
Section Validator.

(** A background as the code passes it around (a base64 PNG). *)
Variable image : Type.

(** PIL: decode the payload, [ImageOps.grayscale], [resize((8, 8))] and
    [getdata()]: 64 intensities in 0..255, or an exception when the
    payload is not an image. *)
Variable grey8x8 : image -> result (list Z).

Definition sum_pixels (pixels : list Z) : Z := fold_left Z.add pixels 0.

(** The string of ['1'] and ['0'] built from the pixels. *)
Definition hash_bits (pixels : list Z) : string :=
  let avg := sum_pixels pixels / Z.of_nat (List.length pixels) in
  string_of_list_ascii
    (map (fun pixel => if avg <? pixel then "1"%char else "0"%char) pixels).

Definition calculate_image_hash (image_base64 : image) : result string :=
  bind (grey8x8 image_base64) (fun pixels =>
    Ok (MD5.hexdigest (hash_bits pixels))).

(** [sum(a == b for a, b in zip(x, y))] *)
Fixpoint matching (x y : string) : Z :=
  match x, y with
  | String a x', String b y' =>
      (if Ascii.eqb a b then 1 else 0) + matching x' y'
  | _, _ => 0
  end.

(** [matching / len(new_hash)].  Both operands are small integers and
    the digest has 32 characters, so the float quotient is exact. *)
Definition similarity (new_hash prev_hash : string) : Q :=
  inject_Z (matching new_hash prev_hash)
  / inject_Z (Z.of_nat (String.length new_hash)).

Fixpoint compare_all (new_hash : string) (previous_images : list image)
    (threshold : Q) : result bool :=
  match previous_images with
  | [] => Ok true
  | prev_image :: rest =>
      bind (calculate_image_hash prev_image) (fun prev_hash =>
        if Qlt_le_dec threshold (similarity new_hash prev_hash)
        then Ok false
        else compare_all new_hash rest threshold)
  end.

Definition check_uniqueness (new_image : image)
    (previous_images : list image) (threshold : Q) : result bool :=
  bind (calculate_image_hash new_image) (fun new_hash =>
    compare_all new_hash previous_images threshold).

Definition default_threshold : Q := 85 # 100.

(** The validator as the specification words it: the similarity is the
    fraction of equal bits of the two 8x8 binarised grids. *)
Definition bit_similarity (x y : image) : result Q :=
  bind (grey8x8 x) (fun px =>
    bind (grey8x8 y) (fun py =>
      Ok (similarity (hash_bits px) (hash_bits py)))).

Fixpoint spec_check_uniqueness (new_image : image)
    (previous_images : list image) (threshold : Q) : result bool :=
  match previous_images with
  | [] => Ok true
  | prev_image :: rest =>
      bind (bit_similarity new_image prev_image) (fun sim =>
        if Qlt_le_dec threshold sim then Ok false
        else spec_check_uniqueness new_image rest threshold)
  end.

End Validator.
End UniquenessValidator.

(* ================================================================== *)
(** ** Scenes: sequential and parallel generation                     *)
(* ================================================================== *)

Record style_profile : Type := mkStyle {
sp_name : string;
sp_font_tag : string;
sp_animation_tag : string;
sp_effect_tag : string;
sp_color_tag : string;
sp_intensity : string
}.

(** The [rendering_data] dict of a scene; readers use [.get]. *)
Record rendering_data : Type := mkRendering {
font_tag : option string;
animation_tag : option string;
effect_tag : option string;
color_tag : option string;
intensity : option string
}.

Definition rendering_of (style : style_profile) : rendering_data :=
{| font_tag := Some (sp_font_tag style);
   animation_tag := Some (sp_animation_tag style);
   effect_tag := Some (sp_effect_tag style);
   color_tag := Some (sp_color_tag style);
   intensity := Some (sp_intensity style) |}.

(** A scene dict.  [s_image] is the value interpolated into
  [image_url]; it is [None] only if no attempt ever produced one. *)
Record scene (image : Type) : Type := mkScene {
s_id : Z;
s_lyric : string;
s_image : option image;
s_time : Q;
s_duration : Q;
s_style : string;
s_rendering_data : rendering_data
}.
Arguments mkScene {image}.
Arguments s_id {image}.
Arguments s_lyric {image}.
Arguments s_image {image}.
Arguments s_time {image}.
Arguments s_duration {image}.
Arguments s_style {image}.
Arguments s_rendering_data {image}.

(** The inbound job payload. *)
Record job : Type := mkJob {
d_songTitle : option string;
d_lyrics : option (list lyric);
d_bpm : option Z;
d_jobId : option string
}.

(** [validate_input_data] of [generate_lyric_video_pro]. *)
Definition validate_input_data (data : job) : result unit :=
match d_lyrics data, d_songTitle data with
| Some _, Some _ => Ok tt
| _, _ => Raise ValueError
end.

(** [ModelCache.get_cache_key] on positional string arguments. *)
Definition get_cache_key (args : list string) : string :=
MD5.hexdigest (String.concat "|" args).

(** [scenes.sort(key=lambda x: x["id"])]: a stable sort. *)
Fixpoint insert_by_id {image} (x : scene image) (l : list (scene image))
  : list (scene image) :=
match l with
| [] => [x]
| y :: l' => if s_id x <=? s_id y then x :: y :: l'
             else y :: insert_by_id x l'
end.

Fixpoint sort_by_id {image} (l : list (scene image)) : list (scene image) :=
match l with
| [] => []
| x :: l' => insert_by_id x (sort_by_id l')
end.

Module Scenes.
Section Generation.

Variable rnd : Q -> Q.
Variable image : Type.
Variable grey8x8 : image -> result (list Z).

(** What [generate_styled_background] depends on besides its
    arguments: the hosted model, the random generator, the
    environment. *)
Variable world : Type.
Variable generate_styled_background :
  lyric -> style_profile -> world -> result image * world.

Local Abbreviation check_uniqueness :=
  (UniquenessValidator.check_uniqueness image grey8x8).
Local Abbreviation default_threshold :=
  UniquenessValidator.default_threshold.

(** *** Sequential path: [generate_styled_scenes] *)

(** The state the loop reads and writes: the collaborators' state, the
    process-wide [ModelCache._cache] and the job's [previous_images]. *)
Record seq_state : Type := mkSeq {
  q_world : world;
  q_cache : ModelCache.cache (V := image);
  q_previous : list image
}.

(** One pass of the body of [for attempt in range(max_attempts)]
    up to the uniqueness test: the background for this attempt. *)
Definition attempt_image (l : lyric) (style : style_profile) (s : seq_state)
    : result image * seq_state :=
  let cache_key := get_cache_key [get_text l; sp_name style; get_mood l] in
  if ModelCache.contains cache_key (q_cache s)
  then (ModelCache.getitem cache_key (q_cache s), s)
  else
    match generate_styled_background l style (q_world s) with
    | (Raise e, w) => (Raise e, mkSeq w (q_cache s) (q_previous s))
    | (Ok img, w) =>
        match ModelCache.cache_texture ModelCache._max_size cache_key img
                (q_cache s) with
        | Raise e => (Raise e, mkSeq w (q_cache s) (q_previous s))
        | Ok c => (Ok img, mkSeq w c (q_previous s))
        end
    end.

(** [for attempt in range(n)] with [image_base64] as it stands.  The
    loop leaves through [break] once a background is unique and falls
    off the end otherwise, keeping the last background. *)
Fixpoint attempt_loop (n : nat) (l : lyric) (style : style_profile)
    (image_base64 : option image) (s : seq_state)
    : result (option image) * seq_state :=
  match n with
  | O => (Ok image_base64, s)
  | S n' =>
      match attempt_image l style s with
      | (Raise e, s1) => (Raise e, s1)
      | (Ok img, s1) =>
          match check_uniqueness img (q_previous s1) default_threshold with
          | Raise e => (Raise e, s1)
          | Ok true =>
              (Ok (Some img),
               mkSeq (q_world s1) (q_cache s1) (q_previous s1 ++ [img]))
          | Ok false => attempt_loop n' l style (Some img) s1
          end
      end
  end.

Definition max_attempts : nat := 3.

(** [sum(s.get("duration", 0) for s in scenes)] *)
Definition total_duration (scenes : list (scene image)) : Q :=
  fold_left (fun acc sc => rnd (acc + s_duration sc)) scenes 0%Q.

Definition bpm_of (data : job) : Z :=
  match d_bpm data with Some b => b | None => 120 end.

(** The body of the [try] for lyric number [i] (counted from 0). *)
Definition styled_scene (data : job) (style : style_profile) (i : nat)
    (l : lyric) (scenes : list (scene image)) (s : seq_state)
    : result (scene image) * seq_state :=
  match attempt_loop max_attempts l style None s with
  | (Raise e, s1) => (Raise e, s1)
  | (Ok image_base64, s1) =>
      match Duration.calculate_lyric_duration rnd l (bpm_of data) with
      | Raise e => (Raise e, s1)
      | Ok duration =>
          (Ok {| s_id := Z.of_nat i + 1;
                 s_lyric := get_text l;
                 s_image := image_base64;
                 s_time := match l_time l with
                           | Some t => t
                           | None => total_duration scenes
                           end;
                 s_duration := duration;
                 s_style := sp_name style;
                 s_rendering_data := rendering_of style |}, s1)
      end
  end.

(** [for i, lyric in enumerate(lyrics)]: an exception in the body is
    logged and the lyric is skipped. *)
Fixpoint styled_scenes_from (data : job) (style : style_profile) (i : nat)
    (lyrics : list lyric) (scenes : list (scene image)) (s : seq_state)
    : list (scene image) * seq_state :=
  match lyrics with
  | [] => (scenes, s)
  | l :: rest =>
      match styled_scene data style i l scenes s with
      | (Ok sc, s1) =>
          styled_scenes_from data style (S i) rest (scenes ++ [sc]) s1
      | (Raise _, s1) =>
          styled_scenes_from data style (S i) rest scenes s1
      end
  end.

(** [generate_styled_scenes(data, style_profile)], run with the
    collaborators in state [w] and the cache holding [c]. *)
Definition generate_styled_scenes (data : job) (style : style_profile)
    (w : world) (c : ModelCache.cache)
    : result (list (scene image)) * seq_state :=
  match d_lyrics data with
  | None => (Raise KeyError, mkSeq w c [])
  | Some lyrics =>
      let '(scenes, s) :=
        styled_scenes_from data style 0 lyrics [] (mkSeq w c []) in
      (Ok scenes, s)
  end.

(** *** Parallel path: [ParallelProcessor.parallel_generate_scenes] *)

(** Where a task of the pool stands.  [process_single_lyric] touches
    the shared [previous_images] twice, first to test and then to
    append; no lock is held, so other tasks may run in between. *)
Inductive task : Type :=
| Queued
| Generated (img : image)
| Unique (img : image)
| Finished (r : option (scene image)).

Record pool : Type := mkPool {
  p_world : world;
  p_previous : list image;
  p_tasks : list task;
  p_scenes : list (scene image)
}.

Definition is_queued (t : task) : bool :=
  match t with Queued => true | _ => false end.

Definition is_running (t : task) : bool :=
  match t with Generated _ | Unique _ => true | _ => false end.

Definition is_finished (t : task) : bool :=
  match t with Finished _ => true | _ => false end.

(** A queued task starts when every task submitted before it has
    started and a worker thread is free. *)
Definition can_start (max_workers : nat) (i : nat) (ts : list task) : bool :=
  forallb (fun t => negb (is_queued t)) (firstn i ts)
  && (List.length (List.filter is_running ts) <? max_workers)%nat.

(** The task returns: the future completes and [as_completed] hands
    its result to the collecting loop. *)
Definition finish (i : nat) (r : option (scene image)) (p : pool)
    (w : world) (previous : list image) : pool :=
  mkPool w previous (<[i := Finished r]> (p_tasks p))
    (match r with
     | Some sc => p_scenes p ++ [sc]
     | None => p_scenes p
     end).

(** One step of task [i] of [lyrics]; [None] when the task cannot
    move (no such task, or it may not start yet). *)
Definition step (lyrics : list lyric) (style : style_profile)
    (max_workers : nat) (i : nat) (p : pool) : option pool :=
  match p_tasks p !! i, lyrics !! i with
  | Some Queued, Some l =>
      if can_start max_workers i (p_tasks p) then
        match generate_styled_background l style (p_world p) with
        | (Ok img, w) =>
            Some (mkPool w (p_previous p)
                    (<[i := Generated img]> (p_tasks p)) (p_scenes p))
        | (Raise _, w) => Some (finish i None p w (p_previous p))
        end
      else None
  | Some (Generated img), Some l =>
      match check_uniqueness img (p_previous p) default_threshold with
      | Ok true =>
          Some (mkPool (p_world p) (p_previous p)
                  (<[i := Unique img]> (p_tasks p)) (p_scenes p))
      | Ok false | Raise _ =>
          Some (finish i None p (p_world p) (p_previous p))
      end
  | Some (Unique img), Some l =>
      let previous := p_previous p ++ [img] in
      match Duration.calculate_lyric_duration rnd l 120 with
      | Ok duration =>
          Some (finish i
                  (Some {| s_id := Z.of_nat i + 1;
                           s_lyric := get_text l;
                           s_image := Some img;
                           s_time := match l_time l with
                                     | Some t => t
                                     | None => 0%Q
                                     end;
                           s_duration := duration;
                           s_style := sp_name style;
                           s_rendering_data := rendering_of style |})
                  p (p_world p) previous)
      | Raise _ => Some (finish i None p (p_world p) previous)
      end
  | Some (Finished _), Some _ => Some p
  | _, _ => None
  end.

(** A schedule names the task that moves at each step. *)
Fixpoint run (lyrics : list lyric) (style : style_profile)
    (max_workers : nat) (schedule : list nat) (p : pool) : option pool :=
  match schedule with
  | [] => Some p
  | i :: rest =>
      match step lyrics style max_workers i p with
      | Some p' => run lyrics style max_workers rest p'
      | None => None
      end
  end.

Definition submit (lyrics : list lyric) (w : world) : pool :=
  mkPool w [] (map (fun _ => Queued) lyrics) [].

(** [parallel_generate_scenes(lyrics, style_profile, max_workers)]
    under a schedule: the sorted scenes once every future has
    completed; [None] when the schedule is not a complete run. *)
Definition parallel_generate_scenes (lyrics : list lyric)
    (style : style_profile) (max_workers : nat) (schedule : list nat)
    (w : world) : option (list (scene image) * pool) :=
  match run lyrics style max_workers schedule (submit lyrics w) with
  | Some p =>
      if forallb is_finished (p_tasks p)
      then Some (sort_by_id (p_scenes p), p)
      else None
  | None => None
  end.

(** The schedule in which each task runs to completion before the next
    one starts. *)
Definition one_by_one (n : nat) : list nat :=
  flat_map (fun i => [i; i; i]) (seq 0 n).

(** [OptimizedVideoPipeline._generate_optimized_scenes] with
    [parallel_processing] enabled: more than three lyrics take the
    parallel path. *)
Definition uses_parallel_path (lyrics : list lyric) : bool :=
  (3 <? List.length lyrics)%nat.

(** *** Vocabulary for statements about the two paths *)

Definition ids (scenes : list (scene image)) : list Z := map s_id scenes.

(** The ids [1; 2; ...; n]. *)
Definition one_to (n : nat) : list Z :=
  map (fun i => Z.of_nat i + 1) (seq 0 n).

Definition increasing_within (n : nat) (l : list Z) : Prop :=
  StronglySorted Z.lt l /\ List.Forall (fun x => 1 <= x <= Z.of_nat n) l.

(** No collaborator raises and every explicit duration converts. *)
Definition generator_total (style : style_profile) : Prop :=
  forall l w, exists img w',
    generate_styled_background l style w = (Ok img, w').

Definition decoder_total : Prop :=
  forall img, exists pixels, grey8x8 img = Ok pixels.

Definition durations_convert (lyrics : list lyric) (bpm : Z) : Prop :=
  List.Forall
    (fun l => exists d, Duration.calculate_lyric_duration rnd l bpm = Ok d)
    lyrics.

(** How far a task has come. *)
Definition phase (t : task) : nat :=
  match t with
  | Queued => 0
  | Generated _ => 1
  | Unique _ => 2
  | Finished _ => 3
  end.

(** The pool invariant: every collected scene is the result of a
    finished task and carries that task's number, and no two collected
    scenes share an id. *)
Record collected (n : nat) (p : pool) : Prop := mkCollected {
  col_length : List.length (p_tasks p) = n;
  col_owner : forall sc, List.In sc (p_scenes p) ->
    exists i : nat, s_id sc = Z.of_nat i + 1
      /\ p_tasks p !! i = Some (Finished (Some sc));
  col_nodup : List.NoDup (ids (p_scenes p))
}.

End Generation.
End Scenes.

(* ================================================================== *)
(** ** [StorageLifecycleManager]                                      *)
(* ================================================================== *)

(** Times are seconds since the epoch, as exact rationals. *)
Module StorageLifecycleManager.

(** An entry of [cloudinary.api.resources(...)]; [created_at] is
    [None] when [strptime] rejects the text. *)
Record resource : Type := mkResource {
  public_id : string;
  created_at : option Q
}.

(** The attributes of a manager object.  [__init__] assigns the first
    four; no statement of the class assigns [s3_available], so reading
    it on an object that [__init__] built raises [AttributeError]. *)
Record manager : Type := mkManager {
  storage_backend : string;
  expiry_hours : Z;
  pending_deletions : gmap string Q;
  cloudinary_available : bool;
  s3_available : option bool
}.

(** A thread started by [schedule_deletion] with [_delete_after_delay]
    as its target: it sleeps until [due] and then calls [delete_asset]
    with the three arguments it was given. *)
Record delayed_deletion : Type := mkDelayed {
  due : Q;
  dd_asset_id : string;
  dd_asset_url : string;
  dd_storage_type : string
}.

Section Manager.

(** The remote store and the three calls the class makes to it. *)
Variable cloud : Type.
Variable api_resources : cloud -> result (list resource).
Variable uploader_destroy : string -> cloud -> result unit * cloud.

(** [re.search(r'/([^/]+)\.(mp4|webm|mov|avi)$', asset_url)], group 1. *)
Variable public_id_of_url : string -> option string.

Definition set_pending (m : manager) (pd : gmap string Q) : manager :=
  mkManager (storage_backend m) (expiry_hours m) pd
    (cloudinary_available m) (s3_available m).

(** [StorageLifecycleManager(storage_backend)] given whether the three
    Cloudinary variables are all set. *)
Definition __init__ (backend : string) (credentials : bool) : manager :=
  mkManager backend 24 ∅ credentials None.

Definition get_s3_available (m : manager) : result bool :=
  match s3_available m with
  | Some b => Ok b
  | None => Raise AttributeError
  end.

(** The loop of [_cleanup_cloudinary_assets] over the listed
    resources; a failing [destroy] is logged, a failing [strptime]
    leaves the loop. *)
Fixpoint destroy_expired (now : Q) (m : manager) (rs : list resource)
    (expired_count : Z) (cl : cloud) : result Z * cloud :=
  match rs with
  | [] => (Ok expired_count, cl)
  | r :: rest =>
      match created_at r with
      | None => (Raise ValueError, cl)
      | Some created =>
          let age_hours := ((now - created) / 3600)%Q in
          if Qle_bool (inject_Z (expiry_hours m)) age_hours then
            match uploader_destroy (public_id r) cl with
            | (Ok _, cl') => destroy_expired now m rest (expired_count + 1) cl'
            | (Raise _, cl') => destroy_expired now m rest expired_count cl'
            end
          else destroy_expired now m rest expired_count cl
      end
  end.

Definition _cleanup_cloudinary_assets (now : Q) (m : manager) (cl : cloud)
    : Z * cloud :=
  match api_resources cl with
  | Raise _ => (0, cl)
  | Ok rs =>
      match destroy_expired now m rs 0 cl with
      | (Ok n, cl') => (n, cl')
      | (Raise _, cl') => (0, cl')
      end
  end.

(** The ids collected in [to_delete]. *)
Definition expired_ids (now : Q) (pd : gmap string Q) : list string :=
  map fst (List.filter (fun kv => Qle_bool (snd kv) now) (map_to_list pd)).

Definition _cleanup_pending_deletions (now : Q) (m : manager) : manager :=
  set_pending m
    (fold_right (fun asset_id pd => delete asset_id pd)
       (pending_deletions m) (expired_ids now (pending_deletions m))).

(** [_cleanup_s3_assets] is called but defined nowhere. *)
Definition _cleanup_s3_assets (m : manager) : result Z :=
  Raise AttributeError.

(** The body of the [try] of [_perform_scheduled_cleanup]. *)
Definition scheduled_cleanup_body (now : Q) (m : manager) (cl : cloud)
    : result manager * cloud :=
  let '(count, cl1) :=
    if cloudinary_available m then _cleanup_cloudinary_assets now m cl
    else (0, cl) in
  match get_s3_available m with
  | Raise e => (Raise e, cl1)
  | Ok s3 =>
      match (if s3 then _cleanup_s3_assets m else Ok 0) with
      | Raise e => (Raise e, cl1)
      | Ok _ => (Ok (_cleanup_pending_deletions now m), cl1)
      end
  end.

(** One sweep: an exception in the body is logged and the manager is
    left as the body had it. *)
Definition _perform_scheduled_cleanup (now : Q) (m : manager) (cl : cloud)
    : manager * cloud :=
  match scheduled_cleanup_body now m cl with
  | (Ok m', cl') => (m', cl')
  | (Raise _, cl') => (m, cl')
  end.

(** [schedule_deletion]: the entry in the table, and the thread it
    starts, which wakes [expiry_hours * 3600] seconds later. *)
Definition schedule_deletion (asset_id asset_url storage_type : string)
    (now : Q) (m : manager) : manager * delayed_deletion :=
  let expiry_time := (now + inject_Z (expiry_hours m * 3600))%Q in
  (set_pending m (<[asset_id := expiry_time]> (pending_deletions m)),
   mkDelayed (now + inject_Z (expiry_hours m * 3600))%Q
     asset_id asset_url storage_type).

(** The body of the [try] of [delete_asset]. *)
Definition delete_asset_body (asset_id asset_url storage_type : string)
    (m : manager) (cl : cloud) : result manager * cloud :=
  let remote : result unit * cloud :=
    if String.eqb storage_type "cloudinary" && cloudinary_available m then
      match public_id_of_url asset_url with
      | Some pid => uploader_destroy pid cl
      | None => (Ok tt, cl)
      end
    else if String.eqb storage_type "s3" then
      match get_s3_available m with
      | Raise e => (Raise e, cl)
      | Ok true => (Raise AttributeError, cl)
      | Ok false => (Ok tt, cl)
      end
    else (Ok tt, cl) in
  match remote with
  | (Raise e, cl') => (Raise e, cl')
  | (Ok _, cl') =>
      (Ok (set_pending m (delete asset_id (pending_deletions m))), cl')
  end.

(** [delete_asset]: [True] with the updated manager, or [False] with
    the manager untouched. *)
Definition delete_asset (asset_id asset_url storage_type : string)
    (m : manager) (cl : cloud) : bool * manager * cloud :=
  match delete_asset_body asset_id asset_url storage_type m cl with
  | (Ok m', cl') => (true, m', cl')
  | (Raise _, cl') => (false, m, cl')
  end.

(** [_delete_after_delay] once its sleep is over: the thread calls
    [delete_asset] and drops the result. *)
Definition _delete_after_delay (d : delayed_deletion) (m : manager)
    (cl : cloud) : manager * cloud :=
  let '(_, m', cl') :=
    delete_asset (dd_asset_id d) (dd_asset_url d) (dd_storage_type d) m cl in
  (m', cl').

(** The sweeps of [cleanup_worker], one at each of the given times. *)
Fixpoint sweeps (times : list Q) (m : manager) (cl : cloud)
    : manager * cloud :=
  match times with
  | [] => (m, cl)
  | now :: later =>
      let '(m', cl') := _perform_scheduled_cleanup now m cl in
      sweeps later m' cl'
  end.

End Manager.
End StorageLifecycleManager.

(* ================================================================== *)
(** ** [apply_professional_animation]                                 *)
(* ================================================================== *)

Module Animation.

(** The functions of [AnimationLibrary] that the registry names. *)
Inductive animation : Type :=
| animate_simple_fade
| animate_slide_snap
| animate_type_flicker
| animate_wobble_pop
| animate_shatter_shift
| animate_particle_dissolve
| animate_jitter_shake
| animate_depth_fluid
| animate_pulse_morph.

Definition ANIMATION_FUNCTION_MAP : list (string * animation) :=
  [("float_fade", animate_simple_fade);
   ("slide", animate_slide_snap);
   ("typewriter", animate_type_flicker);
   ("bounce", animate_wobble_pop);
   ("glitch", animate_shatter_shift);
   ("particles", animate_particle_dissolve);
   ("float_fade_physics", animate_simple_fade);
   ("jitter_damp", animate_jitter_shake);
   ("type_pulse", animate_type_flicker);
   ("wobble_spring", animate_wobble_pop);
   ("shatter_collision", animate_shatter_shift);
   ("slide_inertia", animate_slide_snap);
   ("depth_gravity", animate_depth_fluid);
   ("lofi_wobble", animate_type_flicker);
   ("particle_decay", animate_particle_dissolve);
   ("abstract_breath", animate_pulse_morph);
   ("ANIMATION_FLOAT_FADE", animate_simple_fade);
   ("ANIMATION_WOBBLE_POP", animate_wobble_pop)]%string.

(** [rendering_data.get("animation_tag", "float_fade")] *)
Definition tag_of {image} (sc : scene image) : string :=
  match animation_tag (s_rendering_data sc) with
  | Some t => t
  | None => "float_fade"%string
  end.

(** [rendering_data.get("intensity", "medium")] *)
Definition intensity_of {image} (sc : scene image) : string :=
  match intensity (s_rendering_data sc) with
  | Some i => i
  | None => "medium"%string
  end.

(** [old] occurs nowhere in [s]. *)
Fixpoint free_of (old s : string) : bool :=
  negb (startswith old s)
  && match s with
     | EmptyString => true
     | String _ s' => free_of old s'
     end.

Fixpoint registry_get (tag : string) (reg : list (string * animation))
    : option animation :=
  match reg with
  | [] => None
  | (k, f) :: reg' => if String.eqb k tag then Some f else registry_get tag reg'
  end.

Definition prefix : string := "ANIMATION_".

(** The tag that is looked up. *)
Definition lookup_tag (tag : string) : string :=
  if startswith prefix tag then lower (remove_all prefix tag) else tag.

(** The lookup tag as the specification words it: only the leading
    prefix is taken off. *)
Definition spec_lookup_tag (tag : string) : string :=
  if startswith prefix tag then lower (drop (String.length prefix) tag)
  else tag.

Section Clips.

(** moviepy clips, their two fade methods, and the call of a library
    animation with [(clip, duration, intensity)]. *)
Variable clip : Type.
Variable fadein fadeout : Q -> clip -> clip.
Variable animate : animation -> clip -> Q -> string -> result clip.

Definition fallback (text_clip : clip) : clip :=
  fadeout (1 # 2) (fadein (1 # 2) text_clip).

Definition apply_professional_animation {image} (text_clip : clip)
    (sc : scene image) : clip :=
  let animation_tag := lookup_tag (tag_of sc) in
  match registry_get animation_tag ANIMATION_FUNCTION_MAP with
  | Some animation_func =>
      match animate animation_func text_clip (s_duration sc)
              (intensity_of sc) with
      | Ok r => r
      | Raise _ => fallback text_clip
      end
  | None => fallback text_clip
  end.

(** The same function with the lookup tag of the specification. *)
Definition spec_apply_professional_animation {image} (text_clip : clip)
    (sc : scene image) : clip :=
  match registry_get (spec_lookup_tag (tag_of sc)) ANIMATION_FUNCTION_MAP with
  | Some animation_func =>
      match animate animation_func text_clip (s_duration sc)
              (intensity_of sc) with
      | Ok r => r
      | Raise _ => fallback text_clip
      end
  | None => fallback text_clip
  end.

End Clips.

(** Clips as terms, recording the calls made on them. *)
Inductive term_clip : Type :=
| TextClip (text : string)
| FadeIn (d : Q) (c : term_clip)
| FadeOut (d : Q) (c : term_clip)
| Animated (f : animation) (duration : Q) (level : string) (c : term_clip).

(** A library animation that only records that it was applied. *)
Definition record_animation (f : animation) (c : term_clip) (duration : Q)
    (level : string) : result term_clip :=
  Ok (Animated f duration level c).

(** A one-second scene that carries [tag]. *)
Definition scene_with_tag (tag : string) : scene unit :=
  mkScene 1 "hello" None 0 1 "Minimalist Typography"
    (mkRendering None (Some tag) None None (Some "low"%string)).

End Animation.

(* ================================================================== *)
(** ** Upload: [upload_to_cloudinary] and [_upload_with_lifecycle]    *)
(* ================================================================== *)

Module Upload.

Record environ : Type := mkEnviron {
  CLOUDINARY_CLOUD_NAME : option string;
  CLOUDINARY_API_KEY : option string;
  CLOUDINARY_API_SECRET : option string
}.

(** [all([cloud_name, api_key, api_secret])] *)
Definition credentials (env : environ) : bool :=
  truthy_env (CLOUDINARY_CLOUD_NAME env)
  && truthy_env (CLOUDINARY_API_KEY env)
  && truthy_env (CLOUDINARY_API_SECRET env).

(** The dict that the upload step returns: the response of Cloudinary
    or the local stand-in. *)
Record upload_result : Type := mkUpload {
  secure_url : option string;
  public_id : option string;
  duration : option Q;
  format : option string;
  local_path : option string;
  error : option string
}.

(** The keyword arguments of [cloudinary.uploader.upload]. *)
Record upload_request : Type := mkRequest {
  rq_file : string;
  rq_public_id : string;
  rq_folder : string;
  rq_context : option string;
  rq_tags : list string
}.

Section Uploader.

Variable uploader_upload : upload_request -> result upload_result.

(** [mp.VideoFileClip(path).duration] *)
Variable video_duration : string -> result Q.

(** [str(e)] *)
Variable str_exn : exn -> string.

Definition local_test (video_path : string) (now : Z) : upload_result :=
  {| secure_url := Some ("file://" +:+ video_path);
     public_id := Some ("local-test-" +:+ pretty now);
     duration := Some (match video_duration video_path with
                       | Ok d => d
                       | Raise _ => 0%Q
                       end);
     format := Some "mp4"%string;
     local_path := Some video_path;
     error := None |}.

Definition local_fallback (video_path : string) (now : Z) (e : exn)
    : upload_result :=
  {| secure_url := Some ("file://" +:+ video_path);
     public_id := Some ("local-fallback-" +:+ pretty now);
     duration := Some 0%Q;
     format := Some "mp4"%string;
     local_path := Some video_path;
     error := Some (str_exn e) |}.

Definition job_public_id (data : job) (now : Z) : string :=
  "lyric-videos/" +:+ match d_jobId data with
                      | Some j => j
                      | None => "video-" +:+ pretty now
                      end.

(** The [try] block: the upload, then the log line that reads
    [upload_result['secure_url']]. *)
Definition upload_and_log (rq : upload_request) : result upload_result :=
  bind (uploader_upload rq) (fun r =>
    match secure_url r with
    | Some _ => Ok r
    | None => Raise KeyError
    end).

(** The call made by [upload_to_cloudinary]. *)
Definition plain_request (video_path : string) (data : job) (now : Z)
    : upload_request :=
  mkRequest video_path (job_public_id data now) "lyric-videos" None [].

(** The call made by [_upload_with_lifecycle]; [expires_at] is the
    text of [expires_at.isoformat()]. *)
Definition lifecycle_request (video_path : string) (data : job) (now : Z)
    (expires_at : string) : upload_request :=
  mkRequest video_path (job_public_id data now) "lyric-videos"
    (Some ("expires_at=" +:+ expires_at +:+ "|auto_delete=true"))
    ["auto_delete_24h"; "lyric_video"]%string.

(** [now] is [int(time.time())]. *)
Definition upload_to_cloudinary (video_path : string) (data : job)
    (env : environ) (now : Z) : result upload_result :=
  if negb (credentials env) then Ok (local_test video_path now)
  else
    match upload_and_log (plain_request video_path data now) with
    | Ok r => Ok r
    | Raise e => Ok (local_fallback video_path now e)
    end.

Definition _upload_with_lifecycle (video_path : string) (data : job)
    (env : environ) (now : Z) (expires_at : string) : result upload_result :=
  if negb (credentials env) then Ok (local_test video_path now)
  else
    match upload_and_log
            (lifecycle_request video_path data now expires_at) with
    | Ok r => Ok r
    | Raise e => Ok (local_fallback video_path now e)
    end.

(** A result that points at the rendered file on the local disk. *)
Definition is_local (video_path : string) (now : Z) (r : upload_result)
    : Prop :=
  secure_url r = Some ("file://" +:+ video_path)
  /\ local_path r = Some video_path
  /\ (public_id r = Some ("local-test-" +:+ pretty now)
      \/ public_id r = Some ("local-fallback-" +:+ pretty now)).

(** What both callers read from the returned dict afterwards:
    [upload_result["secure_url"]] and [upload_result["public_id"]]. *)
Definition read_back (r : upload_result) : result (string * string) :=
  match secure_url r, public_id r with
  | Some u, Some p => Ok (u, p)
  | _, _ => Raise KeyError
  end.

End Uploader.
End Upload.

(* ================================================================== *)
(** ** Concrete collaborators used in examples                        *)
(* ================================================================== *)

(** Backgrounds given directly by their 8x8 greyscale grid, a decoder
  that never fails, and a generator that draws the grid from the
  lyric text alone, as the procedural fallback (seeded by a hash of
  the text) does. *)
Module Fixtures.

Definition grid : Type := list Z.

Definition decoded (g : grid) : result (list Z) := Ok g.

(** Left half bright, right half dark. *)
Definition half_split : grid := repeat 200 32 ++ repeat 50 32.

(** The same picture with one cell of the bright half darkened. *)
Definition half_split_shifted : grid := repeat 200 31 ++ repeat 50 33.

(** A grid whose first [n] cells are bright. *)
Definition bright_prefix (n : nat) : grid :=
  repeat 200 n ++ repeat 50 (64 - n).

Definition grid_of_text (t : string) : grid :=
  bright_prefix (8 * String.length t).

Definition by_text (l : lyric) (style : style_profile) (w : unit)
    : result grid * unit :=
  (Ok (grid_of_text (get_text l)), w).

Definition plain_style : style_profile :=
  mkStyle "Minimalist Typography" "FONT_GEOMETRIC_THIN"
    "ANIMATION_SLIDE_SNAP" "EFFECT_NONE" "COLOR_MONOCHROME_HIGH" "low".

Definition line (t : string) : lyric := mkLyric (Some t) None None None.

(** A lyric whose [duration] is JSON [null]. *)
Definition line_null_duration (t : string) : lyric :=
  mkLyric (Some t) None (Some VNone) None.

(** The same generator, counting its calls in the world. *)
Definition counting_by_text (l : lyric) (style : style_profile) (calls : nat)
    : result grid * nat :=
  (Ok (grid_of_text (get_text l)), S calls).

Definition four_lines : list lyric :=
  [line "a"; line "bb"; line "ccc"; line "dddd"].

(** Four lines, the second with a [null] duration. *)
Definition four_lines_one_null : list lyric :=
  [line "a"; line_null_duration "bb"; line "ccc"; line "dddd"].

(** A refrain: the same text four times. *)
Definition refrain : list lyric :=
  [line "la la la"; line "la la la"; line "la la la"; line "la la la"].

Definition payload (lyrics : list lyric) : job :=
  mkJob (Some "Test") (Some lyrics) None None.

(** All four tasks generate, then all test, then all append. *)
Definition lockstep : list nat := [0; 1; 2; 3; 0; 1; 2; 3; 0; 1; 2; 3]%nat.

(** An environment with the three Cloudinary variables set, and a
    Cloudinary client whose every upload is refused. *)
Definition configured_environ : Upload.environ :=
  Upload.mkEnviron (Some "demo") (Some "key") (Some "secret").

Definition refusing_uploader (rq : Upload.upload_request)
    : result Upload.upload_result :=
  Raise (ExternalError "upload refused").

Definition unknown_duration (path : string) : result Q :=
  Raise (ExternalError "no such file").

Definition exn_text (e : exn) : string :=
  match e with
  | TypeError => "TypeError"
  | ValueError => "ValueError"
  | KeyError => "KeyError"
  | AttributeError => "AttributeError"
  | OverflowError => "OverflowError"
  | ExternalError msg => msg
  end.

End Fixtures.

(* ================================================================== *)
(** ** Style registry and style selection                             *)
(* ================================================================== *)

Module Styles.

(** [STYLE_PROFILES], in the order of the dict literal, with the fields
    that scene generation and rendering read. *)
Definition STYLE_PROFILES : list (string * style_profile) :=
  [("dreamy_ethereal",
    mkStyle "Dreamy Ethereal" "FONT_SERIF_THIN" "ANIMATION_WOBBLE_SPRING"
      "EFFECT_CHROMA_LEAK" "COLOR_PASTEL_PEACH" "low");
   ("minimalist_typography",
    mkStyle "Minimalist Typography" "FONT_GEOMETRIC_THIN"
      "ANIMATION_SLIDE_SNAP" "EFFECT_NONE" "COLOR_MONOCHROME_HIGH" "low");
   ("cyberpunk_glitch",
    mkStyle "Cyberpunk Glitch" "FONT_TECH_BOLD" "ANIMATION_SHATTER_COLLISION"
      "EFFECT_GLITCH" "COLOR_NEON_DARK" "high");
   ("vintage_film",
    mkStyle "Vintage Film" "FONT_SERIF_CLASSIC" "ANIMATION_JITTER_DAMP"
      "EFFECT_FILM_GRAIN" "COLOR_VINTAGE_FADE" "medium");
   ("lofi_aesthetic",
    mkStyle "Lo-fi Aesthetic" "FONT_HANDWRITTEN" "ANIMATION_LOFI_WOBBLE"
      "EFFECT_VHS" "COLOR_LOFI" "medium");
   ("kinetic_typography",
    mkStyle "Kinetic Typography" "FONT_BOLD_MODERN" "ANIMATION_TYPE_PULSE"
      "EFFECT_MOTION_BLUR" "COLOR_HIGH_CONTRAST" "medium");
   ("particle_abstract",
    mkStyle "Particle Abstract" "FONT_GEOMETRIC" "ANIMATION_PARTICLE_DECAY"
      "EFFECT_PARTICLE" "COLOR_GRADIENT_DARK" "medium");
   ("brutalist_bold",
    mkStyle "Brutalist Bold" "FONT_ARCHITECTURAL" "ANIMATION_SLIDE_INERTIA"
      "EFFECT_GRUNGE" "COLOR_MONOCHROME_LOW" "high");
   ("floating_dream",
    mkStyle "Floating Dream" "FONT_SERIF_DELICATE"
      "ANIMATION_FLOAT_FADE_PHYSICS" "EFFECT_BLOOM" "COLOR_PASTEL_BLUE" "low");
   ("glitch_core",
    mkStyle "Glitch Core" "FONT_DISTORTED" "ANIMATION_SHATTER_SHIFT"
      "EFFECT_DATA_MOSH" "COLOR_DIGITAL" "high")]%string.

(** [STYLE_PROFILES["dreamy_ethereal"]] *)
Definition dreamy_ethereal : style_profile :=
  mkStyle "Dreamy Ethereal" "FONT_SERIF_THIN" "ANIMATION_WOBBLE_SPRING"
    "EFFECT_CHROMA_LEAK" "COLOR_PASTEL_PEACH" "low".

(** [sub in s] on strings. *)
Fixpoint contains_str (sub s : string) : bool :=
  startswith sub s
  || match s with
     | EmptyString => false
     | String _ s' => contains_str sub s'
     end.

Definition nonempty (s : string) : bool :=
  match s with EmptyString => false | String _ _ => true end.

(** The loop [for key, profile in STYLE_PROFILES.items()] over a table,
    with the default after it. *)
Fixpoint first_match (requested_style : string)
    (table : list (string * style_profile)) (default : style_profile)
    : style_profile :=
  match table with
  | [] => default
  | (key, profile) :: rest =>
      if nonempty requested_style && contains_str requested_style key
      then profile
      else first_match requested_style rest default
  end.

(** [select_style_profile(data)] of [generate_lyric_video_pro]; [style]
    is the [style] key of the payload when present. *)
Definition select_style_profile (style : option string) : style_profile :=
  let requested_style :=
    lower (match style with Some s => s | None => EmptyString end) in
  first_match requested_style STYLE_PROFILES dreamy_ethereal.

End Styles.

(* ================================================================== *)
(** ** Physics animations: [get_physics_animation]                    *)
(* ================================================================== *)

Module Physics.

(** The class methods of [PhysicsAnimator] that the catalogue names. *)
Inductive physics_animation : Type :=
| animate_float_fade_sine
| animate_jitter_damp
| animate_type_pulse
| animate_wobble_spring
| animate_shatter_collision
| animate_slide_inertia
| animate_depth_gravity
| animate_lofi_wobble
| animate_particle_decay
| animate_abstract_breath.

(** [PHYSICS_ANIMATIONS], first component of each entry. *)
Definition PHYSICS_ANIMATIONS : list (string * physics_animation) :=
  [("PHYSICS_FLOAT_FADE", animate_float_fade_sine);
   ("PHYSICS_JITTER_SHAKE", animate_jitter_damp);
   ("PHYSICS_WIPE_TYPE", animate_type_pulse);
   ("PHYSICS_WOBBLE_POP", animate_wobble_spring);
   ("PHYSICS_SHATTER_SHIFT", animate_shatter_collision);
   ("PHYSICS_SLIDE_SNAP", animate_slide_inertia);
   ("PHYSICS_DEPTH_FLUID", animate_depth_gravity);
   ("PHYSICS_TYPE_FLICKER", animate_lofi_wobble);
   ("PHYSICS_PARTICLE_DISSOLVE", animate_particle_decay);
   ("PHYSICS_PULSE_MORPH", animate_abstract_breath)]%string.

Fixpoint catalogue_get (tag : string)
    (table : list (string * physics_animation)) : option physics_animation :=
  match table with
  | [] => None
  | (k, f) :: rest => if String.eqb k tag then Some f else catalogue_get tag rest
  end.

Definition get_physics_animation (animation_tag : string)
    : result physics_animation :=
  match catalogue_get animation_tag PHYSICS_ANIMATIONS with
  | Some f => Ok f
  | None => Raise ValueError
  end.

Section Clips.

(** [animation_func(clip)]: the method wraps the clip with [clip.fl]. *)
Variable clip : Type.
Variable run_physics : physics_animation -> clip -> result clip.

Definition apply_physics_animation (c : clip) (animation_tag : string)
    : result clip :=
  bind (get_physics_animation animation_tag) (fun animation_func =>
    run_physics animation_func c).

End Clips.
End Physics.

(* ================================================================== *)
(** ** Batched encoding: [OptimizedEncoder.batch_encode_clips]        *)
(* ================================================================== *)

Module Encoding.

(** [range(0, n, step)] for [step > 0], as the list of its values;
    [count] bounds the number of values. *)
Fixpoint range_from (count : nat) (i n step : nat) : list nat :=
  match count with
  | O => []
  | S count' =>
      if (i <? n)%nat then i :: range_from count' (i + step) n step else []
  end.

Section Batches.

Variable clip : Type.

(** The encoder as the loop of [batch_encode_clips] uses it:
    [concatenate_videoclips] and [write_videofile] on one batch. *)
Variable world : Type.
Variable write_batch : list clip -> string -> world -> result unit * world.

(** [clips[i:i+batch_size]] *)
Definition slice (clips : list clip) (i batch_size : nat) : list clip :=
  firstn batch_size (skipn i clips).

(** The batches the loop visits, each with its output path
    [f"{output_pattern}_batch_{i//batch_size}.mp4"]. *)
Definition batch_plan (clips : list clip) (output_pattern : string)
    (batch_size : nat) : list (string * list clip) :=
  map (fun i =>
         (output_pattern +:+ "_batch_" +:+ pretty (Z.of_nat (i / batch_size))
            +:+ ".mp4",
          slice clips i batch_size))
      (range_from (List.length clips) 0 (List.length clips) batch_size).

Fixpoint encode_plan (plan : list (string * list clip))
    (output_paths : list string) (w : world) : result (list string) * world :=
  match plan with
  | [] => (Ok output_paths, w)
  | (output_path, batch) :: rest =>
      match batch with
      | [] => encode_plan rest output_paths w
      | _ :: _ =>
          match write_batch batch output_path w with
          | (Raise e, w') => (Raise e, w')
          | (Ok _, w') => encode_plan rest (output_paths ++ [output_path]) w'
          end
      end
  end.

(** [OptimizedEncoder.batch_encode_clips]: a zero step makes [range]
    raise, a negative one makes it empty. *)
Definition batch_encode_clips (clips : list clip) (output_pattern : string)
    (batch_size : Z) (w : world) : result (list string) * world :=
  if batch_size =? 0 then (Raise ValueError, w)
  else if batch_size <? 0 then (Ok [], w)
  else encode_plan (batch_plan clips output_pattern (Z.to_nat batch_size)) [] w.

End Batches.
End Encoding.
(* ================================================================== *)
(** ** Background generation: AI texture with procedural fallback     *)
(* ================================================================== *)

Module Background.

(** The two procedural generator families. *)
Inductive family : Type :=
| dreamy_ethereal_varied
| minimalist_varied.

(** The branch taken by [generate_procedural_fallback_background]. *)
Definition family_of (style : style_profile) : family :=
  let style_name := lower (sp_name style) in
  if Styles.contains_str "dreamy" style_name then dreamy_ethereal_varied
  else if Styles.contains_str "minimal" style_name then minimalist_varied
  else if Styles.contains_str "cosmic" style_name then dreamy_ethereal_varied
  else dreamy_ethereal_varied.

(** The two prompts of [texture_templates["dreamy_ethereal"]]. *)
Definition prompt_with_text (lyric_text mood : string) : string :=
  "Ethereal dreamy texture for '" +:+ lyric_text +:+ "', " +:+ mood
  +:+ " mood, soft volumetric lighting, pastel nebula, particle effects, medium intensity".

Definition prompt_without_text (mood : string) : string :=
  "Abstract dreamy background with " +:+ mood
  +:+ " atmosphere, ethereal mist, light rays, organic flowing shapes, no text".

Section Backends.

Variable image : Type.
Variable world : Type.

(** [InferenceClient(...).text_to_image(prompt, ...)] followed by the
    PNG and base64 encoding. *)
Variable text_to_image : string -> world -> result image * world.

(** [rand.choice(prompts)] on a list of two: [true] picks the second. *)
Variable choice : world -> bool * world.

(** [hash(text) % (2**31)] *)
Variable seed_of : string -> Z.

(** [generate_dreamy_ethereal_background_varied(lyric, seed)] and
    [generate_minimalist_background_varied(lyric, seed)]. *)
Variable draw : family -> lyric -> Z -> world -> result image * world.

Definition generate_procedural_fallback_background (l : lyric)
    (style : style_profile) (w : world) : result image * world :=
  draw (family_of style) l (seed_of (get_text l)) w.

(** [return generate_procedural_fallback_background(...)] inside the
    outer [try]: an exception there reaches the outer [except], which
    makes the same call once more. *)
Definition fallback_in_try (l : lyric) (style : style_profile) (w : world)
    : result image * world :=
  match generate_procedural_fallback_background l style w with
  | (Ok img, w') => (Ok img, w')
  | (Raise _, w') => generate_procedural_fallback_background l style w'
  end.

(** [generate_styled_background(lyric, style_profile)]; [hf_token] is
    [os.getenv("HF_TOKEN")] and [hf_available] is
    [HF_INFERENCE_AVAILABLE].  The prompt templates are always those of
    the first key of [STYLE_PROFILES]. *)
Definition generate_styled_background (hf_token : option string)
    (hf_available : bool) (l : lyric) (style : style_profile) (w : world)
    : result image * world :=
  let mood := get_mood l in
  let lyric_text := get_text l in
  let '(second, w1) := choice w in
  let ai_texture_prompt :=
    if second then prompt_without_text mood
    else prompt_with_text lyric_text mood in
  if truthy_env hf_token && hf_available then
    match text_to_image ai_texture_prompt w1 with
    | (Ok img, w2) => (Ok img, w2)
    | (Raise _, w2) => fallback_in_try l style w2
    end
  else fallback_in_try l style w1.

End Backends.
End Background.

(* ================================================================== *)
(** ** [StorageLifecycleManager.generate_signed_url]                  *)
(* ================================================================== *)

Module SignedUrl.

Import StorageLifecycleManager.

Section Rewrite.

(** The [urllib.parse] part: the URL with its [_expires] query
    parameter set to the given time. *)
Variable with_expires : string -> Z -> result string.

(** The body of the [try]; [now] is [int(time.time())]. *)
Definition signed_url_body (asset_url : string) (expiry_hours : Z)
    (storage_type : string) (now : Z) (m : manager) : result string :=
  bind (if String.eqb storage_type "s3"
        then get_s3_available m else Ok false) (fun s3 =>
    if s3 then Raise AttributeError
    else if String.eqb storage_type "cloudinary" && cloudinary_available m
    then with_expires asset_url (now + expiry_hours * 3600)
    else Ok asset_url).

Definition generate_signed_url (asset_url : string) (expiry_hours : Z)
    (storage_type : string) (now : Z) (m : manager) : string :=
  match signed_url_body asset_url expiry_hours storage_type now m with
  | Ok signed_url => signed_url
  | Raise _ => asset_url
  end.

End Rewrite.
End SignedUrl.

(* ================================================================== *)
(** ** The task: [generate_lyric_video_pro]                           *)
(* ================================================================== *)

Module Job.

(** The keys of the payload that the task reads besides those of
    [job]. *)
Record request : Type := mkRequest {
  rq_data : job;
  rq_style : option string;
  rq_webhook_url : option string;
  rq_resolution : option string
}.

(** What is posted to the webhook. *)
Inductive notification : Type :=
| Progress (progress : Z) (message : string)
| Completed (video_url public_id : string) (scenes : nat)
| Failed (error : exn).

(** The dict the task returns. *)
Record outcome : Type := mkOutcome {
  o_video_url : string;
  o_public_id : string;
  o_duration : Q;
  o_format : string;
  o_scenes : nat;
  o_style : string;
  o_job_id : string;
  o_resolution : string;
  o_total_duration : Q
}.

Section Task.

Variable rnd : Q -> Q.
Variable image : Type.
Variable grey8x8 : image -> result (list Z).
Variable world : Type.
Variable generate_styled_background :
  lyric -> style_profile -> world -> result image * world.

(** The loop and the encoding of [create_professional_video] on a
    non-empty scene list: the path of the written file, or the
    exception that the function logs and re-raises. *)
Variable render :
  list (scene image) -> job -> style_profile -> world -> result string * world.

Variable uploader_upload : Upload.upload_request -> result Upload.upload_result.
Variable video_duration : string -> result Q.
Variable str_exn : exn -> string.

(** [REQUESTS_AVAILABLE] *)
Variable requests_available : bool.

(** The state the task works on: collaborators, cache, and the posts
    attempted so far (a failing post is logged and ignored). *)
Record state : Type := mkState {
  t_world : world;
  t_cache : ModelCache.cache (V := image);
  t_posted : list notification
}.

Definition truthy (s : option string) : bool := truthy_env s.

Definition post (rq : request) (n : notification) (s : state) : state :=
  if truthy (rq_webhook_url rq) && requests_available
  then mkState (t_world s) (t_cache s) (t_posted s ++ [n])
  else s.

(** [send_progress_update(data, progress, message)] *)
Definition send_progress_update (rq : request) (progress : Z)
    (message : string) (s : state) : state :=
  post rq (Progress progress message) s.

(** [create_professional_video]: no scene, no clip, [ValueError];
    [tempfile.mkdtemp] is taken to succeed. *)
Definition create_professional_video (scenes : list (scene image))
    (data : job) (style : style_profile) (w : world) : result string * world :=
  match scenes with
  | [] => (Raise ValueError, w)
  | _ :: _ => render scenes data style w
  end.

Definition get_or {A} (o : option A) (default : A) : A :=
  match o with Some a => a | None => default end.

(** The body of the [try].  [verify_environment] (its second
    definition is the one in force) and [cleanup_temp_files] catch
    every exception and only log, so they do not appear; [task_id] is
    [beam.context.task_id]. *)
Definition task_body (rq : request) (env : Upload.environ) (now : Z)
    (task_id : string) (s : state) : result outcome * state :=
  let data := rq_data rq in
  match validate_input_data data with
  | Raise e => (Raise e, s)
  | Ok _ =>
      let s := send_progress_update rq 5 "Initializing style profile..." s in
      let style_profile := Styles.select_style_profile (rq_style rq) in
      let s := send_progress_update rq 15
                 ("Style selected: " +:+ sp_name style_profile) s in
      match Scenes.generate_styled_scenes rnd image grey8x8 world
              generate_styled_background data style_profile
              (t_world s) (t_cache s) with
      | (Raise e, q) =>
          (Raise e, mkState (Scenes.q_world _ _ q) (Scenes.q_cache _ _ q)
                      (t_posted s))
      | (Ok scenes, q) =>
          let s := mkState (Scenes.q_world _ _ q) (Scenes.q_cache _ _ q)
                     (t_posted s) in
          let s := send_progress_update rq 40
                     ("Created " +:+ pretty (Z.of_nat (List.length scenes))
                      +:+ " AI scenes") s in
          match create_professional_video scenes data style_profile
                  (t_world s) with
          | (Raise e, w) => (Raise e, mkState w (t_cache s) (t_posted s))
          | (Ok video_path, w) =>
              let s := mkState w (t_cache s) (t_posted s) in
              let s := send_progress_update rq 70
                         "Video rendered, uploading..." s in
              match Upload.upload_to_cloudinary uploader_upload
                      video_duration str_exn video_path data env now with
              | Raise e => (Raise e, s)
              | Ok upload_result =>
                  let s := send_progress_update rq 100
                             "Video generation completed!" s in
                  match Upload.read_back upload_result with
                  | Raise e => (Raise e, s)
                  | Ok (video_url, public_id) =>
                      let s :=
                        if truthy (rq_webhook_url rq)
                        then post rq (Completed video_url public_id
                                        (List.length scenes)) s
                        else s in
                      (Ok {| o_video_url := video_url;
                             o_public_id := public_id;
                             o_duration :=
                               get_or (Upload.duration upload_result) 0%Q;
                             o_format :=
                               get_or (Upload.format upload_result) "mp4";
                             o_scenes := List.length scenes;
                             o_style := sp_name style_profile;
                             o_job_id := task_id;
                             o_resolution :=
                               get_or (rq_resolution rq) "1080p";
                             o_total_duration :=
                               Scenes.total_duration rnd image scenes |}, s)
                  end
              end
          end
      end
  end.

(** [generate_lyric_video_pro(data)]: an exception in the body is
    reported to the webhook, when there is one, and raised again. *)
Definition generate_lyric_video_pro (rq : request) (env : Upload.environ)
    (now : Z) (task_id : string) (s : state) : result outcome * state :=
  match task_body rq env now task_id s with
  | (Ok r, s') => (Ok r, s')
  | (Raise e, s') =>
      (Raise e, if truthy (rq_webhook_url rq) then post rq (Failed e) s' else s')
  end.

(** The progress values among the posts. *)
Definition progress_values (posted : list notification) : list Z :=
  flat_map (fun n => match n with Progress p _ => [p] | _ => [] end) posted.

(** The posts that end a run. *)
Definition final_posts (posted : list notification) : list notification :=
  List.filter (fun n => match n with Progress _ _ => false | _ => true end)
    posted.

End Task.
End Job.
(* ================================================================== *)
(** ** Accepted backgrounds                                           *)
(* ================================================================== *)

Module Acceptance.
Section Validator.

Variable image : Type.
Variable grey8x8 : image -> result (list Z).

(** Both backgrounds decode and the digest of the later one agrees
    with that of the earlier one in at most the threshold share of
    positions: the later one passes the test against the earlier. *)
Definition far_apart (earlier later : image) : Prop :=
  exists h_earlier h_later,
    UniquenessValidator.calculate_image_hash image grey8x8 earlier
    = Ok h_earlier
    /\ UniquenessValidator.calculate_image_hash image grey8x8 later
       = Ok h_later
    /\ (UniquenessValidator.similarity h_later h_earlier
        <= UniquenessValidator.default_threshold)%Q.

(** Every background passed the test against all those before it. *)
Definition pairwise_accepted (previous_images : list image) : Prop :=
  ForallOrdPairs far_apart previous_images.

End Validator.

Section Described.

Variable rnd : Q -> Q.
Variable image : Type.

(** A scene that describes lyric number [i] of [lyrics] in [style],
    with its duration computed at [bpm]. *)
Definition describes (lyrics : list lyric) (style : style_profile) (bpm : Z)
    (sc : scene image) : Prop :=
  exists (i : nat) (l : lyric),
    lyrics !! i = Some l
    /\ s_id sc = Z.of_nat i + 1
    /\ s_lyric sc = get_text l
    /\ s_style sc = sp_name style
    /\ s_rendering_data sc = rendering_of style
    /\ Duration.calculate_lyric_duration rnd l bpm = Ok (s_duration sc)
    /\ (forall t, l_time l = Some t -> s_time sc = t).

End Described.

Section Pools.

Variable rnd : Q -> Q.
Variable image : Type.
Variable grey8x8 : image -> result (list Z).
Variable world : Type.

(** Each collected scene describes its lyric at 120 bpm and its
    background is among the accepted ones. *)
Definition well_described (lyrics : list lyric) (style : style_profile)
    (p : Scenes.pool image world) : Prop :=
  List.Forall
    (fun sc => describes rnd image lyrics style 120 sc
               /\ exists img, s_image sc = Some img
                              /\ List.In img (Scenes.p_previous _ _ p))
    (Scenes.p_scenes _ _ p).

(** While task [i] is the only one running: the accepted list is far
    apart, and a background that task [i] found unique is unique
    against the list as it stands. *)
Definition sole_runner (i : nat) (p : Scenes.pool image world) : Prop :=
  pairwise_accepted image grey8x8 (Scenes.p_previous _ _ p)
  /\ forall img,
       Scenes.p_tasks _ _ p !! i = Some (Scenes.Unique image img) ->
       UniquenessValidator.check_uniqueness image grey8x8 img
         (Scenes.p_previous _ _ p) UniquenessValidator.default_threshold
       = Ok true.

End Pools.

Section Generators.

Variable image : Type.
Variable grey8x8 : image -> result (list Z).
Variable world : Type.
Variable generate_styled_background :
  lyric -> style_profile -> world -> result image * world.

(** Whatever the state of the collaborators, the backgrounds generated
    for two different lines of [lyrics] pass the uniqueness test
    against each other. *)
Definition distinct_backgrounds (lyrics : list lyric)
    (style : style_profile) : Prop :=
  forall (i j : nat) (l1 l2 : lyric) (w1 w1' w2 w2' : world)
         (img1 img2 : image),
    i <> j ->
    lyrics !! i = Some l1 ->
    lyrics !! j = Some l2 ->
    generate_styled_background l1 style w1 = (Ok img1, w1') ->
    generate_styled_background l2 style w2 = (Ok img2, w2') ->
    far_apart image grey8x8 img1 img2.

(** [img] is a background that the generator gave for line [i]. *)
Definition generated_for (lyrics : list lyric) (style : style_profile)
    (i : nat) (img : image) : Prop :=
  exists (l : lyric) (w w' : world),
    lyrics !! i = Some l
    /\ generate_styled_background l style w = (Ok img, w').

(** The pool while no task has returned empty-handed: there are as
    many collected scenes as finished tasks, a background held by a
    running task was generated for that task's line, and an accepted
    background was generated for the line of a task that has
    finished. *)
Record accounted (lyrics : list lyric) (style : style_profile)
    (p : Scenes.pool image world) : Prop := mkAccounted {
  acc_scenes :
    List.length (Scenes.p_scenes _ _ p)
    = List.length (List.filter (Scenes.is_finished image)
                     (Scenes.p_tasks _ _ p));
  acc_running : forall i img,
    Scenes.p_tasks _ _ p !! i = Some (Scenes.Generated image img)
    \/ Scenes.p_tasks _ _ p !! i = Some (Scenes.Unique image img) ->
    generated_for lyrics style i img;
  acc_previous : forall img,
    List.In img (Scenes.p_previous _ _ p) ->
    exists j r, generated_for lyrics style j img
      /\ Scenes.p_tasks _ _ p !! j = Some (Scenes.Finished image r)
}.

End Generators.
End Acceptance.

(* ================================================================== *)
(** ** Further sample collaborators                                   *)
(* ================================================================== *)

Module Samples.

(** A Cloudinary client that accepts every upload. *)
Definition hosted : Upload.upload_result :=
  Upload.mkUpload
    (Some "https://res.cloudinary.com/demo/video/upload/lyric-videos/j1.mp4")
    (Some "lyric-videos/j1") (Some (12 # 1)) (Some "mp4") None None.

Definition accepting_uploader (rq : Upload.upload_request)
    : result Upload.upload_result :=
  Ok hosted.

(** The sequential loop as it stands when the second line of a refrain
    comes up: nothing cached, the first line's background accepted. *)
Definition after_first_line : Scenes.seq_state Fixtures.grid unit :=
  Scenes.mkSeq Fixtures.grid unit tt []
    [Fixtures.grid_of_text "la la la"].

(** A renderer that always writes the same file. *)
Definition fixed_render (scenes : list (scene Fixtures.grid)) (data : job)
    (style : style_profile) (w : unit) : result string * unit :=
  (Ok "/tmp/tmpab12/output.mp4"%string, w).

(** A request for [lyrics] in the minimalist style with a webhook. *)
Definition with_hook (lyrics : list lyric) : Job.request :=
  Job.mkRequest (Fixtures.payload lyrics) (Some "minimalist")
    (Some "https://example.org/hook") None.

(** The same request with [songTitle] left out. *)
Definition without_title (lyrics : list lyric) : Job.request :=
  Job.mkRequest (mkJob None (Some lyrics) None None) (Some "minimalist")
    (Some "https://example.org/hook") None.

(** A hosted video; the pattern of [delete_asset] finds [j1] in its
    URL. *)
Definition hosted_url : string :=
  "https://res.cloudinary.com/demo/video/upload/lyric-videos/j1.mp4".

Definition public_id_of_hosted_url (asset_url : string) : option string :=
  if String.eqb asset_url hosted_url then Some "j1"%string else None.

(** The remote store while it cannot be reached: every call raises. *)
Definition unreachable_resources (cl : unit)
    : result (list StorageLifecycleManager.resource) :=
  Raise (ExternalError "connection refused").

Definition unreachable_destroy (public_id : string) (cl : unit)
    : result unit * unit :=
  (Raise (ExternalError "connection refused"), cl).

End Samples.

(* ================================================================== *)
(** * Properties                                                      *)
(* ================================================================== *)

(** ** Duration estimation *)

Module DurationFacts.
Section Rounding.

Import Duration.

Variable rnd : Q -> Q.
Hypothesis rnd_monotone : forall a b : Q, (a <= b)%Q -> (rnd a <= rnd b)%Q.
Hypothesis rnd_zero : (rnd 0 == 0)%Q.

Lemma max2_ge_r (a b : Q) : (b <= max2 a b)%Q.
Proof.
  unfold max2. destruct (Qlt_le_dec a b) as [_ | Hle].
  - apply Qle_refl.
  - exact Hle.
Qed.

Lemma max2_ge_l (a b : Q) : (a <= max2 a b)%Q.
Proof.
  unfold max2. destruct (Qlt_le_dec a b) as [Hlt | _].
  - apply Qlt_le_weak, Hlt.
  - apply Qle_refl.
Qed.

Lemma max2_monotone_r (a b b' : Q) : (b <= b')%Q -> (max2 a b <= max2 a b')%Q.
Proof.
  intros Hb. unfold max2 at 1. destruct (Qlt_le_dec a b) as [_ | _].
  - eapply Qle_trans; [exact Hb | apply max2_ge_r].
  - apply max2_ge_l.
Qed.

Lemma max2_monotone_l (a a' b : Q) : (a <= a')%Q -> (max2 a b <= max2 a' b)%Q.
Proof.
  intros Ha. unfold max2 at 1. destruct (Qlt_le_dec a b) as [_ | _].
  - apply max2_ge_r.
  - eapply Qle_trans; [exact Ha | apply max2_ge_l].
Qed.

Lemma max2_is_Qmax (a b : Q) : (max2 a b == Qmax a b)%Q.
Proof.
  unfold max2. destruct (Qlt_le_dec a b) as [Hlt | Hle].
  - symmetry. apply Q.max_r, Qlt_le_weak, Hlt.
  - symmetry. apply Q.max_l, Hle.
Qed.

Lemma rnd_nonneg (q : Q) : (0 <= q)%Q -> (0 <= rnd q)%Q.
Proof.
  intros Hq. rewrite <- rnd_zero. apply rnd_monotone, Hq.
Qed.

Lemma seconds_per_beat_nonneg (bpm : Z) :
  (0 <= rnd (60 / rnd (inject_Z (Z.max 1 bpm))))%Q.
Proof.
  apply rnd_nonneg.
  assert (Hden : (0 <= rnd (inject_Z (Z.max 1 bpm)))%Q).
  { apply rnd_nonneg. change 0%Q with (inject_Z 0).
    rewrite <- Zle_Qle. lia. }
  unfold Qdiv. apply Qmult_le_0_compat; [discriminate |].
  apply Qinv_le_0_compat, Hden.
Qed.

Lemma beats_monotone (w1 w2 : Z) :
  w1 <= w2 ->
  (max2 1 (rnd (inject_Z w1 / 4)) <= max2 1 (rnd (inject_Z w2 / 4)))%Q.
Proof.
  intros Hw. apply max2_monotone_r, rnd_monotone.
  unfold Qdiv. apply Qmult_le_compat_r; [| discriminate].
  rewrite <- Zle_Qle. exact Hw.
Qed.

Lemma float_overflow_above_one : 1 < float_overflow.
Proof. vm_compute. reflexivity. Qed.

Lemma float_of_int_converts (z : Z) :
  Z.abs z < float_overflow -> float_of_int rnd z = Ok (rnd (inject_Z z)).
Proof.
  intros H. unfold float_of_int.
  destruct (Z.ltb_spec (Z.abs z) float_overflow) as [_ | Hge];
    [reflexivity | lia].
Qed.

Lemma float_of_int_overflows (z : Z) :
  float_overflow <= Z.abs z -> float_of_int rnd z = Raise OverflowError.
Proof.
  intros H. unfold float_of_int.
  destruct (Z.ltb_spec (Z.abs z) float_overflow) as [Hlt | _];
    [lia | reflexivity].
Qed.

(** The value computed when the bpm converts. *)
Local Abbreviation derived := (fun (t : string) (bpm : Z) =>
  max2 (rnd (max2 1 (rnd (inject_Z (word_count t) / 4))
             * rnd (60 / rnd (inject_Z (Z.max 1 bpm))))) 1).

Lemma derived_monotone (t1 t2 : string) (bpm : Z) :
  word_count t1 <= word_count t2 -> (derived t1 bpm <= derived t2 bpm)%Q.
Proof.
  intros Hw.
  apply max2_monotone_l, rnd_monotone, Qmult_le_compat_r.
  - apply beats_monotone, Hw.
  - apply seconds_per_beat_nonneg.
Qed.

Lemma calculate_lyric_duration_derived (l : lyric) (bpm : Z) :
  l_duration l = None ->
  bpm < float_overflow ->
  calculate_lyric_duration rnd l bpm = Ok (derived (get_text l) bpm).
Proof.
  intros Hd Hbpm. unfold calculate_lyric_duration. rewrite Hd.
  rewrite float_of_int_converts; [reflexivity |].
  pose proof float_overflow_above_one. lia.
Qed.

Lemma calculate_lyric_duration_overflow (l : lyric) (bpm : Z) :
  l_duration l = None ->
  float_overflow <= bpm ->
  calculate_lyric_duration rnd l bpm = Raise OverflowError.
Proof.
  intros Hd Hbpm. unfold calculate_lyric_duration. rewrite Hd.
  rewrite float_of_int_overflows; [reflexivity | lia].
Qed.

(** [optimized_calculate_duration] is the same computation on the
    text alone. *)
Lemma optimized_calculate_duration_derived (l : lyric) (bpm : Z) :
  l_duration l = None ->
  calculate_lyric_duration rnd l bpm
  = optimized_calculate_duration rnd (get_text l) bpm.
Proof.
  intros Hd. unfold calculate_lyric_duration, optimized_calculate_duration.
  rewrite Hd. reflexivity.
Qed.

Lemma rnd_compat (x y : Q) : (x == y)%Q -> (rnd x == rnd y)%Q.
Proof.
  intros Hxy. apply Qle_antisym; apply rnd_monotone; rewrite Hxy;
    apply Qle_refl.
Qed.

Lemma derived_is_spec (t : string) (bpm : Z) :
  (derived t bpm == spec_derived_duration rnd t (Z.max 1 bpm))%Q.
Proof.
  unfold spec_derived_duration.
  rewrite max2_is_Qmax, Q.max_comm.
  apply Q.max_compat; [reflexivity |].
  apply rnd_compat. rewrite max2_is_Qmax. reflexivity.
Qed.

(** C4, amended.  For lyrics without an explicit [duration] and a bpm
    that converts to a float, [calculate_lyric_duration] returns
    [max(1.0, max(1, words/4) * 60/max(1, bpm))] in float arithmetic:
    a value that is at least 1.0 and that does not decrease when the
    number of whitespace-separated words grows.  It is the formula
    with [60/bpm] when [bpm >= 1].  For a bpm beyond the float range
    the call raises [OverflowError].  [optimized_calculate_duration]
    on the text of the lyric behaves in the same way. *)
Theorem derived_duration_floor_and_monotone (l1 l2 : lyric) (bpm : Z) :
  l_duration l1 = None ->
  l_duration l2 = None ->
  word_count (get_text l1) <= word_count (get_text l2) ->
  (bpm < float_overflow ->
   exists d1 d2 : Q,
     calculate_lyric_duration rnd l1 bpm = Ok d1
     /\ calculate_lyric_duration rnd l2 bpm = Ok d2
     /\ (1 <= d1)%Q /\ (1 <= d2)%Q /\ (d1 <= d2)%Q
     /\ (d1 == spec_derived_duration rnd (get_text l1) (Z.max 1 bpm))%Q
     /\ (1 <= bpm -> (d1 == spec_derived_duration rnd (get_text l1) bpm)%Q))
  /\ (float_overflow <= bpm ->
      calculate_lyric_duration rnd l1 bpm = Raise OverflowError
      /\ calculate_lyric_duration rnd l2 bpm = Raise OverflowError)
  /\ optimized_calculate_duration rnd (get_text l1) bpm
     = calculate_lyric_duration rnd l1 bpm.
Proof.
  intros H1 H2 Hw. split; [| split].
  3: { symmetry. apply optimized_calculate_duration_derived, H1. }
  - intros Hbpm.
    exists (derived (get_text l1) bpm), (derived (get_text l2) bpm).
    split; [apply calculate_lyric_duration_derived; assumption |].
    split; [apply calculate_lyric_duration_derived; assumption |].
    split; [apply max2_ge_r |].
    split; [apply max2_ge_r |].
    split; [apply derived_monotone, Hw |].
    split; [apply derived_is_spec |].
    intros Hpos. rewrite derived_is_spec.
    rewrite Z.max_r by exact Hpos. reflexivity.
  - intros Hbpm.
    split; apply calculate_lyric_duration_overflow; assumption.
Qed.

(** C10.  With a [duration] key the function is [float(lyric["duration"])]
    for every bpm, the bpm playing no part: a float is returned as it
    is, whatever its size or sign, and no floor is applied; an [int]
    is converted, and [float] raising ([TypeError] on [None],
    [OverflowError] on an [int] beyond the float range) is the call
    raising. *)
Theorem explicit_duration_returned_unchanged (l : lyric) (bpm : Z) (v : value) :
  l_duration l = Some v ->
  calculate_lyric_duration rnd l bpm = py_float rnd v
  /\ (forall q : Q, v = VFloat q -> calculate_lyric_duration rnd l bpm = Ok q)
  /\ (forall z : Z, v = VInt z -> Z.abs z < float_overflow ->
      calculate_lyric_duration rnd l bpm = Ok (rnd (inject_Z z)))
  /\ (forall z : Z, v = VInt z -> float_overflow <= Z.abs z ->
      calculate_lyric_duration rnd l bpm = Raise OverflowError)
  /\ (forall b : bool, v = VBool b ->
      calculate_lyric_duration rnd l bpm = Ok (if b then 1%Q else 0%Q))
  /\ (v = VNone -> calculate_lyric_duration rnd l bpm = Raise TypeError).
Proof.
  intros Hd. unfold calculate_lyric_duration. rewrite Hd.
  split; [reflexivity |].
  split; [intros q ->; reflexivity |].
  split; [intros z -> Hz; apply float_of_int_converts, Hz |].
  split; [intros z -> Hz; apply float_of_int_overflows, Hz |].
  split; [intros b ->; reflexivity |].
  intros ->. reflexivity.
Qed.

End Rounding.

Import Duration.

Lemma derived_duration_floor_and_monotone_witness :
  exists d1 d2 : Q,
    Duration.calculate_lyric_duration exact
      (mkLyric (Some "hello world"%string) (Some 0%Q) None None) 120 = Ok d1
    /\ Duration.calculate_lyric_duration exact
         (mkLyric (Some "one two three four  five six seven eight nine"%string)
            None None None) 120 = Ok d2
    /\ (1 <= d1)%Q /\ (1 <= d2)%Q /\ (d1 <= d2)%Q
    /\ (d1 == spec_derived_duration exact "hello world" (Z.max 1 120))%Q
    /\ (1 <= 120 -> (d1 == spec_derived_duration exact "hello world" 120)%Q).
Proof.
  apply (derived_duration_floor_and_monotone exact
           (fun a b H => H) (Qeq_refl 0)
           (mkLyric (Some "hello world"%string) (Some 0%Q) None None)
           (mkLyric (Some "one two three four  five six seven eight nine"%string)
              None None None) 120).
  - reflexivity.
  - reflexivity.
  - vm_compute. discriminate.
  - vm_compute. reflexivity.
Defined.

(** C4 as stated fails.  At [bpm = -60] the code divides by
    [max(1, bpm) = 1] and returns 60.0 for a one-word line, where
    [max(1.0, max(1, 1/4) * 60/bpm)] is 1.0; at [bpm = 10^400] no
    value comes back at all, the conversion of the bpm raises. *)
Lemma derived_duration_differs_from_formula :
  Duration.calculate_lyric_duration exact
    (mkLyric (Some "hello"%string) None None None) (-60) = Ok 60%Q
  /\ spec_derived_duration exact "hello" (-60) = 1%Q
  /\ ~ (60 == spec_derived_duration exact "hello" (-60))%Q
  /\ Duration.calculate_lyric_duration exact
       (mkLyric (Some "hello"%string) None None None) (10 ^ 400)
     = Raise OverflowError.
Proof.
  split; [vm_compute; reflexivity |].
  split; [vm_compute; reflexivity |].
  split; [vm_compute; discriminate |].
  vm_compute. reflexivity.
Qed.

Lemma explicit_duration_returned_unchanged_witness :
  Duration.calculate_lyric_duration exact
    (mkLyric (Some "a few words here"%string) None (Some (VFloat (1 # 4))) None)
    90 = Ok (1 # 4).
Proof.
  apply (explicit_duration_returned_unchanged exact
           (mkLyric (Some "a few words here"%string) None
              (Some (VFloat (1 # 4))) None) 90 (VFloat (1 # 4))).
  - reflexivity.
  - reflexivity.
Defined.

End DurationFacts.

(** ** The texture cache *)

Module ModelCacheFacts.
Section Cache.

Import ModelCache.

Context {V : Type}.
Implicit Types (c : cache (V := V)) (k key : string) (v : V).

Lemma getitem_In key c v : getitem key c = Ok v -> List.In key (keys c).
Proof.
  induction c as [| [k w] c IH]; simpl; [discriminate |].
  destruct (String.eqb_spec k key) as [-> | _]; [left; reflexivity |].
  intros H. right. apply IH, H.
Qed.

Lemma getitem_absent key c : ~ List.In key (keys c) -> getitem key c = Raise KeyError.
Proof.
  induction c as [| [k w] c IH]; simpl; [reflexivity |].
  intros Hn. destruct (String.eqb_spec k key) as [-> | _].
  - exfalso. apply Hn. left. reflexivity.
  - apply IH. intros Hin. apply Hn. right. exact Hin.
Qed.

Lemma contains_getitem key c : contains key c = is_ok (getitem key c).
Proof.
  induction c as [| [k w] c IH]; simpl; [reflexivity |].
  destruct (String.eqb k key); [reflexivity | exact IH].
Qed.

Lemma remove_absent key c : ~ List.In key (keys c) -> remove key c = c.
Proof.
  induction c as [| [k w] c IH]; simpl; [reflexivity |].
  intros Hn. destruct (String.eqb_spec k key) as [-> | _].
  - exfalso. apply Hn. left. reflexivity.
  - f_equal. apply IH. intros Hin. apply Hn. right. exact Hin.
Qed.

Lemma remove_setitem key v c : remove key (setitem key v c) = remove key c.
Proof.
  induction c as [| [k w] c IH]; simpl.
  - rewrite String.eqb_refl. reflexivity.
  - destruct (String.eqb_spec k key) as [-> | Hne]; simpl.
    + rewrite String.eqb_refl. reflexivity.
    + destruct (String.eqb_spec k key); [contradiction |]. f_equal. exact IH.
Qed.

Lemma getitem_setitem key v c : getitem key (setitem key v c) = Ok v.
Proof.
  induction c as [| [k w] c IH]; simpl.
  - rewrite String.eqb_refl. reflexivity.
  - destruct (String.eqb_spec k key) as [-> | Hne]; simpl.
    + rewrite String.eqb_refl. reflexivity.
    + destruct (String.eqb_spec k key); [contradiction | exact IH].
Qed.

Lemma remove_length_le key c : (List.length (remove key c) <= List.length c)%nat.
Proof.
  induction c as [| [k w] c IH]; simpl; [lia |].
  destruct (String.eqb k key); simpl; lia.
Qed.

Lemma remove_length_present key c v :
  getitem key c = Ok v -> S (List.length (remove key c)) = List.length c.
Proof.
  induction c as [| [k w] c IH]; simpl; [discriminate |].
  destruct (String.eqb k key); [reflexivity |].
  intros H. simpl. f_equal. apply IH, H.
Qed.

Lemma keys_remove_subset key c k :
  List.In k (keys (remove key c)) -> List.In k (keys c).
Proof.
  induction c as [| [k' w] c IH]; simpl; [tauto |].
  destruct (String.eqb k' key); simpl; intuition.
Qed.

Lemma NoDup_remove key c :
  List.NoDup (keys c) ->
  List.NoDup (keys (remove key c)) /\ ~ List.In key (keys (remove key c)).
Proof.
  induction c as [| [k w] c IH]; simpl; intros Hnd.
  - split; [constructor | tauto].
  - inversion Hnd as [| ? ? Hk Hc]; subst.
    destruct (String.eqb_spec k key) as [-> | Hne].
    + split; assumption.
    + destruct (IH Hc) as [Hnd' Hnin]. split.
      * simpl. constructor; [| exact Hnd'].
        intros Hin. apply Hk. eapply keys_remove_subset, Hin.
      * simpl. intros [Heq | Hin]; [contradiction | exact (Hnin Hin)].
Qed.

Lemma keys_app c1 c2 : keys (c1 ++ c2) = keys c1 ++ keys c2.
Proof. apply List.map_app. Qed.

Lemma NoDup_promote key v c :
  List.NoDup (keys c) -> List.NoDup (keys (remove key c ++ [(key, v)])).
Proof.
  intros Hnd. destruct (NoDup_remove key c Hnd) as [Hnd' Hnin].
  rewrite keys_app. simpl. apply List.NoDup_app.
  repeat split.
  - exact Hnd'.
  - constructor; [simpl; tauto | constructor].
  - intros k Hk [<- | []]. exact (Hnin Hk).
Qed.

Lemma getitem_last key v c :
  ~ List.In key (keys c) -> getitem key (c ++ [(key, v)]) = Ok v.
Proof.
  induction c as [| [k w] c IH]; simpl; intros Hn.
  - rewrite String.eqb_refl. reflexivity.
  - destruct (String.eqb_spec k key) as [-> | _].
    + exfalso. apply Hn. left. reflexivity.
    + apply IH. intros Hin. apply Hn. right. exact Hin.
Qed.

Lemma move_to_end_present key c v :
  getitem key c = Ok v -> move_to_end key c = Ok (remove key c ++ [(key, v)]).
Proof. intros H. unfold move_to_end. rewrite H. reflexivity. Qed.

(** [cache_texture] never raises: it re-appends the key and evicts the
    head when the capacity is exceeded. *)
Lemma cache_texture_eq (max_size : nat) key v c :
  cache_texture max_size key v c
  = Ok (evict max_size (remove key c ++ [(key, v)])).
Proof.
  unfold cache_texture.
  rewrite (move_to_end_present key (setitem key v c) v)
    by apply getitem_setitem.
  rewrite remove_setitem. simpl. unfold evict.
  destruct (max_size <? _)%nat; [| reflexivity].
  destruct (remove key c ++ [(key, v)]) eqn:E; [| reflexivity].
  destruct (remove key c); discriminate.
Qed.

Lemma get_cached_texture_hit key c v :
  List.NoDup (keys c) -> getitem key c = Ok v ->
  get_cached_texture key c = Ok (Some v, remove key c ++ [(key, v)]).
Proof.
  intros Hnd Hget. unfold get_cached_texture.
  rewrite contains_getitem, Hget. simpl.
  rewrite (move_to_end_present key c v Hget). simpl.
  rewrite getitem_last; [reflexivity |].
  apply NoDup_remove, Hnd.
Qed.

Lemma get_cached_texture_miss key c :
  contains key c = false -> get_cached_texture key c = Ok (None, c).
Proof. intros H. unfold get_cached_texture. rewrite H. reflexivity. Qed.

Lemma evict_length (max_size : nat) c :
  (List.length c <= S max_size)%nat ->
  (List.length (evict max_size c) <= max_size)%nat.
Proof.
  intros H. unfold evict.
  destruct (Nat.ltb_spec max_size (List.length c)); [| lia].
  destruct c; simpl in *; lia.
Qed.

Lemma NoDup_evict (max_size : nat) c :
  List.NoDup (keys c) -> List.NoDup (keys (evict max_size c)).
Proof.
  intros H. unfold evict. destruct (max_size <? _)%nat; [| exact H].
  destruct c; simpl in *; [exact H |]. inversion H; assumption.
Qed.

(** One operation keeps the cache a dictionary within its capacity. *)
Lemma run_op_bounded (max_size : nat) (o : op) c :
  (List.length c <= max_size)%nat -> List.NoDup (keys c) ->
  exists c', run_op max_size o c = Ok c'
    /\ (List.length c' <= max_size)%nat /\ List.NoDup (keys c').
Proof.
  intros Hlen Hnd. destruct o as [k v | k]; simpl.
  - rewrite cache_texture_eq. eexists. split; [reflexivity |]. split.
    + apply evict_length. rewrite List.length_app. simpl.
      pose proof (remove_length_le k c). lia.
    + apply NoDup_evict, NoDup_promote, Hnd.
  - destruct (getitem k c) as [v | e] eqn:Hget.
    + rewrite (get_cached_texture_hit k c v Hnd Hget). simpl.
      eexists. split; [reflexivity |]. split.
      * rewrite List.length_app. simpl.
        pose proof (remove_length_present k c v Hget). lia.
      * apply NoDup_promote, Hnd.
    + rewrite get_cached_texture_miss
        by (rewrite contains_getitem, Hget; reflexivity).
      simpl. exists c. auto.
Qed.

Lemma run_ops_bounded (max_size : nat) (os : list op) c :
  (List.length c <= max_size)%nat -> List.NoDup (keys c) ->
  exists c', run_ops max_size os c = Ok c'
    /\ (List.length c' <= max_size)%nat /\ List.NoDup (keys c').
Proof.
  revert c. induction os as [| o os IH]; intros c Hlen Hnd; simpl.
  - exists c. auto.
  - destruct (run_op_bounded max_size o c Hlen Hnd) as (c1 & -> & Hl1 & Hn1).
    simpl. apply IH; assumption.
Qed.

Lemma evict_below (max_size : nat) c :
  (List.length c <= max_size)%nat -> evict max_size c = c.
Proof.
  intros H. unfold evict. destruct (Nat.ltb_spec max_size (List.length c)); [lia | reflexivity].
Qed.

Lemma evict_above (max_size : nat) c :
  (max_size < List.length c)%nat -> evict max_size c = List.tl c.
Proof.
  intros H. unfold evict. destruct (Nat.ltb_spec max_size (List.length c)); [reflexivity | lia].
Qed.

(** Fresh keys fill the cache in insertion order while there is room. *)
Lemma put_all_room (max_size : nat) (kvs : list (string * V)) c :
  List.NoDup (keys c ++ List.map fst kvs) ->
  (List.length c + List.length kvs <= max_size)%nat ->
  put_all max_size kvs c = Ok (c ++ kvs).
Proof.
  revert c. induction kvs as [| [k v] kvs IH]; intros c Hnd Hlen.
  - unfold put_all. simpl. rewrite List.app_nil_r. reflexivity.
  - unfold put_all in *. simpl in *. rewrite cache_texture_eq.
    assert (Hk : ~ List.In k (keys c)).
    { intros Hin. apply List.NoDup_remove_2 in Hnd. apply Hnd.
      apply List.in_or_app. left. exact Hin. }
    rewrite (remove_absent k c Hk).
    rewrite evict_below by (rewrite List.length_app; simpl; lia).
    simpl. rewrite IH.
    + rewrite <- List.app_assoc. reflexivity.
    + rewrite keys_app, <- List.app_assoc. simpl.
      apply List.NoDup_remove_1 in Hnd as Hnd1.
      apply List.NoDup_remove_2 in Hnd as Hnd2.
      apply (Permutation.Permutation_NoDup (l := k :: keys c ++ List.map fst kvs)).
      * apply Permutation.Permutation_middle.
      * constructor; assumption.
    + rewrite List.length_app. simpl. lia.
Qed.

Lemma run_ops_app (max_size : nat) (os1 os2 : list op) c :
  run_ops max_size (os1 ++ os2) c
  = bind (run_ops max_size os1 c) (run_ops max_size os2).
Proof.
  revert c. induction os1 as [| o os1 IH]; intros c; simpl; [reflexivity |].
  destruct (run_op max_size o c); simpl; [apply IH | reflexivity].
Qed.

(** Filling an empty cache with one key too many drops the first. *)
Lemma put_all_overflow (max_size : nat) (kvs : list (string * V)) :
  List.NoDup (List.map fst kvs) -> List.length kvs = S max_size ->
  put_all max_size kvs [] = Ok (List.tl kvs).
Proof.
  intros Hnd Hlen.
  destruct (List.exists_last (l := kvs)) as (front & [k v] & ->).
  { intros ->. discriminate. }
  rewrite List.length_app in Hlen. simpl in Hlen.
  rewrite List.map_app in Hnd. simpl in Hnd.
  unfold put_all. rewrite List.map_app, run_ops_app.
  fold (put_all max_size front []).
  rewrite put_all_room; simpl.
  - rewrite cache_texture_eq.
    assert (Hk : ~ List.In k (keys front)).
    { apply List.NoDup_remove_2 in Hnd. rewrite List.app_nil_r in Hnd. exact Hnd. }
    rewrite (remove_absent k front Hk).
    rewrite evict_above by (rewrite List.length_app; simpl; lia).
    reflexivity.
  - apply List.NoDup_remove_1 in Hnd. rewrite List.app_nil_r in Hnd. exact Hnd.
  - lia.
Qed.

(** C5.  Starting from a cache within its capacity, any sequence of
    [cache_texture] and [get_cached_texture] calls succeeds and leaves
    at most [max_size] entries; putting [max_size + 1] distinct keys
    into an empty cache leaves all but the first, the least recently
    used one; a full cache that receives a new key drops exactly its
    oldest entry; and reading or re-inserting a present key moves it
    to the most-recently-used end, the other entries keeping their
    order. *)
Theorem model_cache_is_lru (max_size : nat) c (os : list op)
    (kvs : list (string * V)) key v v' :
  (List.length c <= max_size)%nat ->
  List.NoDup (keys c) ->
  getitem key c = Ok v ->
  List.NoDup (List.map fst kvs) ->
  List.length kvs = S max_size ->
  (exists c', run_ops max_size os c = Ok c'
     /\ (List.length c' <= max_size)%nat)
  /\ put_all max_size kvs [] = Ok (List.tl kvs)
  /\ (forall k2 v2, List.length c = max_size -> ~ List.In k2 (keys c) ->
      cache_texture max_size k2 v2 c = Ok (List.tl (c ++ [(k2, v2)])))
  /\ get_cached_texture key c = Ok (Some v, remove key c ++ [(key, v)])
  /\ cache_texture max_size key v' c = Ok (remove key c ++ [(key, v')]).
Proof.
  intros Hlen Hnd Hget Hkvs Hn.
  split.
  { destruct (run_ops_bounded max_size os c Hlen Hnd) as (c' & H1 & H2 & _).
    exists c'. auto. }
  split; [apply put_all_overflow; assumption |].
  split.
  { intros k2 v2 Hfull Hfresh. rewrite cache_texture_eq.
    rewrite (remove_absent k2 c Hfresh).
    apply f_equal, evict_above. rewrite List.length_app. simpl. lia. }
  split; [apply get_cached_texture_hit; assumption |].
  rewrite cache_texture_eq. apply f_equal, evict_below.
  rewrite List.length_app. simpl.
  pose proof (remove_length_present key c v Hget). lia.
Qed.

End Cache.

Lemma model_cache_is_lru_witness :
  (exists c', ModelCache.run_ops 2
                [ModelCache.Get "b"; ModelCache.Put "c" 30; ModelCache.Get "a";
                 ModelCache.Put "d" 40]%string
                [("a", 10); ("b", 20)]%string = Ok c'
     /\ (List.length c' <= 2)%nat)
  /\ ModelCache.put_all 2 [("x", 1); ("y", 2); ("z", 3)]%string []
     = Ok [("y", 2); ("z", 3)]%string
  /\ (forall k2 v2, List.length [("a", 10); ("b", 20)]%string = 2%nat ->
      ~ List.In k2 (ModelCache.keys [("a", 10); ("b", 20)]%string) ->
      ModelCache.cache_texture 2 k2 v2 [("a", 10); ("b", 20)]%string
      = Ok (List.tl ([("a", 10); ("b", 20)]%string ++ [(k2, v2)])))
  /\ ModelCache.get_cached_texture "a"%string [("a", 10); ("b", 20)]%string
     = Ok (Some 10, [("b", 20); ("a", 10)]%string)
  /\ ModelCache.cache_texture 2 "a"%string 11 [("a", 10); ("b", 20)]%string
     = Ok [("b", 20); ("a", 11)]%string.
Proof.
  apply (model_cache_is_lru (V := Z) 2 [("a", 10); ("b", 20)]%string
           [ModelCache.Get "b"; ModelCache.Put "c" 30; ModelCache.Get "a";
            ModelCache.Put "d" 40]%string
           [("x", 1); ("y", 2); ("z", 3)]%string "a"%string 10 11).
  - simpl. lia.
  - repeat constructor; simpl; intuition discriminate.
  - reflexivity.
  - repeat constructor; simpl; intuition discriminate.
  - reflexivity.
Defined.

End ModelCacheFacts.

(** ** The uniqueness validator *)

Module UniquenessFacts.
Section Validator.

Import UniquenessValidator.

Variable image : Type.
Variable grey8x8 : image -> result (list Z).

Lemma check_uniqueness_empty (new_image : image) (threshold : Q) pixels :
  grey8x8 new_image = Ok pixels ->
  check_uniqueness image grey8x8 new_image [] threshold = Ok true.
Proof.
  intros H. unfold check_uniqueness, calculate_image_hash. rewrite H.
  reflexivity.
Qed.

(** What the loop decides, when every background decodes: the new
    background is rejected exactly when the MD5 digest of some earlier
    one agrees with its own digest in more than [threshold] of the 32
    positions. *)
Lemma compare_all_false_iff (new_hash : string) (previous : list image)
    (threshold : Q) :
  List.Forall (fun p => exists px, grey8x8 p = Ok px) previous ->
  exists b, compare_all image grey8x8 new_hash previous threshold = Ok b
    /\ (b = false <->
        exists p h, List.In p previous
          /\ calculate_image_hash image grey8x8 p = Ok h
          /\ (threshold < similarity new_hash h)%Q).
Proof.
  induction previous as [| p ps IH]; intros Hall; simpl.
  - exists true. split; [reflexivity |].
    split; [discriminate | intros (? & ? & [] & _)].
  - inversion Hall as [| ? ? [px Hpx] Hps]; subst.
    unfold calculate_image_hash at 1. rewrite Hpx. simpl.
    destruct (Qlt_le_dec threshold
                (similarity new_hash (MD5.hexdigest (hash_bits px))))
      as [Hlt | Hle].
    + exists false. split; [reflexivity |]. split; [| reflexivity].
      intros _. exists p, (MD5.hexdigest (hash_bits px)).
      split; [left; reflexivity |]. split; [| exact Hlt].
      unfold calculate_image_hash. rewrite Hpx. reflexivity.
    + destruct (IH Hps) as (b & Hb & Hiff). exists b.
      split; [exact Hb |]. rewrite Hiff. split.
      * intros (q & h & Hin & Hh & Hlt). exists q, h. simpl. auto.
      * intros (q & h & [<- | Hin] & Hh & Hlt).
        -- unfold calculate_image_hash in Hh. rewrite Hpx in Hh.
           simpl in Hh. injection Hh as <-.
           exfalso. exact (Qlt_not_le _ _ Hlt Hle).
        -- exists q, h. auto.
Qed.

End Validator.

Import UniquenessValidator Fixtures.

(** C2.  The candidate [half_split_shifted] differs from the accepted
    [half_split] in one of the 64 bits of the binarised grid, a
    similarity of 63/64 > 0.85, yet [check_uniqueness] accepts it: the
    comparison runs over the MD5 digests of the two bit strings, which
    agree in 1 of 32 positions.  The validator worded over the grids
    rejects it. *)
Theorem check_uniqueness_accepts_one_bit_neighbour :
  bit_similarity grid decoded half_split_shifted half_split = Ok (63 # 64)
  /\ (default_threshold < 63 # 64)%Q
  /\ spec_check_uniqueness grid decoded half_split_shifted [half_split]
       default_threshold = Ok false
  /\ calculate_image_hash grid decoded half_split
     = Ok "4f185389a21665ea778fb124f078c1ac"%string
  /\ calculate_image_hash grid decoded half_split_shifted
     = Ok "c94fa9c08e0d30d5967bf57d1c44bea0"%string
  /\ check_uniqueness grid decoded half_split_shifted [half_split]
       default_threshold = Ok true.
Proof.
  repeat split; vm_compute; reflexivity.
Qed.

End UniquenessFacts.

(** ** Scene generation *)

Module SceneFacts.
Section Generation.

Import Scenes Acceptance.

Variable rnd : Q -> Q.
Variable image : Type.
Variable grey8x8 : image -> result (list Z).
Variable world : Type.
Variable generate_styled_background :
  lyric -> style_profile -> world -> result image * world.

Local Abbreviation seq_state := (seq_state image world).
Local Abbreviation styled_scene :=
  (styled_scene rnd image grey8x8 world generate_styled_background).
Local Abbreviation styled_scenes_from :=
  (styled_scenes_from rnd image grey8x8 world generate_styled_background).
Local Abbreviation attempt_loop :=
  (attempt_loop image grey8x8 world generate_styled_background).
Local Abbreviation attempt_image :=
  (attempt_image image world generate_styled_background).
Local Abbreviation generator_total :=
  (generator_total image world generate_styled_background).
Local Abbreviation decoder_total := (decoder_total image grey8x8).
Local Abbreviation durations_convert := (durations_convert rnd).

(** *** Lists of ids *)

Lemma StronglySorted_snoc (l : list Z) (x : Z) :
  StronglySorted Z.lt l -> List.Forall (fun y => y < x) l ->
  StronglySorted Z.lt (l ++ [x]).
Proof.
  induction l as [| y l IH]; intros Hs Hf; simpl.
  - constructor; constructor.
  - inversion Hs as [| ? ? Hl Hy]; subst.
    inversion Hf as [| ? ? Hyx Hlx]; subst.
    constructor; [apply IH; assumption |].
    apply List.Forall_app. split; [exact Hy |]. constructor; [exact Hyx | constructor].
Qed.

Lemma one_to_succ (n : nat) : one_to (S n) = one_to n ++ [Z.of_nat n + 1].
Proof.
  unfold one_to. rewrite List.seq_S, List.map_app. reflexivity.
Qed.

(** *** The sequential loop *)

Lemma styled_scene_id (data : job) (style : style_profile) (i : nat)
    (l : lyric) scenes (s s1 : seq_state) (sc : scene image) :
  styled_scene data style i l scenes s = (Ok sc, s1) ->
  s_id sc = Z.of_nat i + 1.
Proof.
  unfold Scenes.styled_scene.
  destruct (Scenes.attempt_loop _ _ _ _ _ _ _ _ _) as [[oimg | e] s2];
    [| discriminate].
  destruct (Duration.calculate_lyric_duration rnd l _); [| discriminate].
  intros H. injection H as <- _. reflexivity.
Qed.

(** Ids collected so far are increasing and at most [i]; the loop
    keeps them so while [i] counts the lyrics seen. *)
Lemma styled_scenes_from_ids (data : job) (style : style_profile)
    (lyrics : list lyric) :
  forall (i : nat) scenes (s : seq_state),
    increasing_within i (ids image scenes) ->
    increasing_within (i + List.length lyrics)
      (ids image (fst (styled_scenes_from data style i lyrics scenes s))).
Proof.
  induction lyrics as [| l rest IH]; intros i scenes s [Hs Hr]; simpl.
  - rewrite Nat.add_0_r. split; assumption.
  - replace (i + S (List.length rest))%nat with (S i + List.length rest)%nat by lia.
    destruct (styled_scene data style i l scenes s) as [[sc | e] s1] eqn:E.
    + apply IH. unfold ids. rewrite List.map_app. simpl.
      rewrite (styled_scene_id _ _ _ _ _ _ _ _ E). split.
      * apply StronglySorted_snoc; [exact Hs |].
        eapply List.Forall_impl; [| exact Hr]. simpl. intros; lia.
      * apply List.Forall_app. split.
        -- eapply List.Forall_impl; [| exact Hr]. simpl. intros; lia.
        -- constructor; [lia | constructor].
    + apply IH. split; [exact Hs |].
      eapply List.Forall_impl; [| exact Hr]. simpl. intros; lia.
Qed.

(** *** When nothing raises *)

Lemma check_uniqueness_total (img : image) (previous : list image) (t : Q) :
  decoder_total ->
  exists b, UniquenessValidator.check_uniqueness image grey8x8 img previous t = Ok b.
Proof.
  intros Hdec. unfold UniquenessValidator.check_uniqueness,
    UniquenessValidator.calculate_image_hash.
  destruct (Hdec img) as [px ->]. simpl.
  destruct (UniquenessFacts.compare_all_false_iff image grey8x8
              (MD5.hexdigest (UniquenessValidator.hash_bits px)) previous t)
    as (b & Hb & _).
  - apply List.Forall_forall. intros p _. apply Hdec.
  - exists b. exact Hb.
Qed.

Lemma attempt_image_total (l : lyric) (style : style_profile) (s : seq_state) :
  generator_total style ->
  exists img s1, attempt_image l style s = (Ok img, s1).
Proof.
  intros Hgen. unfold Scenes.attempt_image.
  destruct (ModelCache.contains _ (q_cache _ _ s)) eqn:Hc.
  - rewrite ModelCacheFacts.contains_getitem in Hc.
    destruct (ModelCache.getitem _ (q_cache _ _ s)) as [v | e]; [| discriminate].
    exists v, s. reflexivity.
  - destruct (Hgen l (q_world _ _ s)) as (img & w' & ->).
    rewrite ModelCacheFacts.cache_texture_eq. eexists _, _. reflexivity.
Qed.

Lemma attempt_loop_total (n : nat) (l : lyric) (style : style_profile) :
  generator_total style -> decoder_total ->
  forall (last : option image) (s : seq_state),
  exists oimg s1, attempt_loop n l style last s = (Ok oimg, s1).
Proof.
  intros Hgen Hdec. induction n as [| n IH]; intros last s; simpl.
  - eexists _, _. reflexivity.
  - destruct (attempt_image_total l style s Hgen) as (img & s1 & ->).
    destruct (check_uniqueness_total img (q_previous _ _ s1)
                UniquenessValidator.default_threshold Hdec) as [[|] ->].
    + eexists _, _. reflexivity.
    + apply IH.
Qed.

Lemma styled_scenes_from_complete (data : job) (style : style_profile)
    (lyrics : list lyric) :
  generator_total style -> decoder_total ->
  durations_convert lyrics (bpm_of data) ->
  forall (i : nat) scenes (s : seq_state),
    ids image (fst (styled_scenes_from data style i lyrics scenes s))
    = ids image scenes
      ++ List.map (fun j => Z.of_nat j + 1) (List.seq i (List.length lyrics)).
Proof.
  intros Hgen Hdec. induction lyrics as [| l rest IH];
    intros Hdur i scenes s; simpl.
  - rewrite List.app_nil_r. reflexivity.
  - inversion Hdur as [| ? ? [d Hd] Hrest]; subst.
    unfold Scenes.styled_scene.
    destruct (attempt_loop_total max_attempts l style Hgen Hdec None s)
      as (oimg & s1 & ->).
    rewrite Hd. rewrite (IH Hrest). unfold ids.
    rewrite List.map_app, <- List.app_assoc. reflexivity.
Qed.

(** *** Sorting by id *)

Lemma insert_by_id_perm (x : scene image) (l : list (scene image)) :
  Permutation (insert_by_id x l) (x :: l).
Proof.
  induction l as [| y l IH]; simpl; [reflexivity |].
  destruct (s_id x <=? s_id y); [reflexivity |].
  rewrite IH. apply perm_swap.
Qed.

Lemma sort_by_id_perm (l : list (scene image)) :
  Permutation (sort_by_id l) l.
Proof.
  induction l as [| x l IH]; simpl; [reflexivity |].
  rewrite insert_by_id_perm. constructor. exact IH.
Qed.

Lemma insert_by_id_sorted (x : scene image) (l : list (scene image)) :
  StronglySorted Z.le (ids image l) ->
  StronglySorted Z.le (ids image (insert_by_id x l)).
Proof.
  induction l as [| y l IH]; simpl; intros Hs.
  - constructor; constructor.
  - inversion Hs as [| ? ? Hl Hy]; subst.
    destruct (Z.leb_spec (s_id x) (s_id y)) as [Hle | Hgt]; simpl.
    + constructor; [exact Hs |]. constructor; [exact Hle |].
      eapply List.Forall_impl; [| exact Hy]. simpl. intros; lia.
    + constructor; [apply IH, Hl |].
      unfold ids.
      rewrite (Permutation_map s_id (insert_by_id_perm x l)). simpl.
      constructor; [lia | exact Hy].
Qed.

Lemma sort_by_id_sorted (l : list (scene image)) :
  StronglySorted Z.le (ids image (sort_by_id l)).
Proof.
  induction l as [| x l IH]; simpl; [constructor |].
  apply insert_by_id_sorted, IH.
Qed.

Lemma sorted_nodup_strict (l : list Z) :
  StronglySorted Z.le l -> List.NoDup l -> StronglySorted Z.lt l.
Proof.
  induction l as [| x l IH]; intros Hs Hn; [constructor |].
  inversion Hs as [| ? ? Hl Hx]; subst.
  inversion Hn as [| ? ? Hnin Hn']; subst.
  constructor; [apply IH; assumption |].
  apply List.Forall_forall. intros y Hy.
  pose proof (proj1 (List.Forall_forall _ _) Hx y Hy) as Hle.
  assert (x <> y) by (intros ->; contradiction). lia.
Qed.

(** *** The pool *)

Local Abbreviation pool := (pool image world).
Local Abbreviation step :=
  (step rnd image grey8x8 world generate_styled_background).
Local Abbreviation run :=
  (run rnd image grey8x8 world generate_styled_background).
Local Abbreviation parallel_generate_scenes :=
  (parallel_generate_scenes rnd image grey8x8 world
     generate_styled_background).

Local Abbreviation collected := (collected image world).

Lemma collected_submit (lyrics : list lyric) (w : world) :
  collected (List.length lyrics) (submit image world lyrics w).
Proof.
  constructor; simpl.
  - apply List.length_map.
  - intros sc [].
  - constructor.
Qed.

(** A task that is not finished moves to a state without a scene. *)
Lemma collected_update (n i : nat) (p : pool) (t t' : task image)
    (w : world) (previous : list image) :
  collected n p -> p_tasks _ _ p !! i = Some t -> is_finished image t = false ->
  collected n (mkPool image world w previous (<[i := t']> (p_tasks _ _ p))
                 (p_scenes _ _ p)).
Proof.
  intros [Hlen Hown Hnd] Hi Hnf. constructor; simpl.
  - rewrite length_insert. exact Hlen.
  - intros sc Hin. destruct (Hown sc Hin) as (j & Hid & Hj).
    exists j. split; [exact Hid |].
    rewrite list_lookup_insert_ne; [exact Hj |].
    intros ->. rewrite Hi in Hj. injection Hj as ->. discriminate.
  - exact Hnd.
Qed.

Lemma collected_finish (n i : nat) (p : pool) (t : task image)
    (r : option (scene image)) (w : world) (previous : list image) :
  collected n p -> p_tasks _ _ p !! i = Some t -> is_finished image t = false ->
  (forall sc, r = Some sc -> s_id sc = Z.of_nat i + 1) ->
  collected n (finish image world i r p w previous).
Proof.
  intros Hc Hi Hnf Hr. destruct r as [sc |]; unfold finish.
  - destruct Hc as [Hlen Hown Hnd]. constructor; simpl.
    + rewrite length_insert. exact Hlen.
    + intros sc' Hin. apply List.in_app_or in Hin as [Hin | [<- | []]].
      * destruct (Hown sc' Hin) as (j & Hid & Hj).
        exists j. split; [exact Hid |].
        rewrite list_lookup_insert_ne; [exact Hj |].
        intros ->. rewrite Hi in Hj. injection Hj as ->. discriminate.
      * exists i. split; [apply Hr; reflexivity |].
        apply list_lookup_insert_eq.
        apply lookup_lt_Some in Hi. exact Hi.
    + unfold ids. rewrite List.map_app. simpl.
      apply List.NoDup_app. repeat split.
      * exact Hnd.
      * constructor; [simpl; tauto | constructor].
      * intros x Hx [<- | []].
        apply List.in_map_iff in Hx as (sc' & Hid & Hin).
        destruct (Hown sc' Hin) as (j & Hid' & Hj).
        rewrite (Hr sc eq_refl) in Hid.
        assert (j = i) by lia. subst j.
        rewrite Hi in Hj. injection Hj as ->. discriminate.
  - eapply collected_update; eassumption.
Qed.

Lemma step_collected (lyrics : list lyric) (style : style_profile)
    (max_workers i : nat) (p p' : pool) :
  collected (List.length lyrics) p ->
  step lyrics style max_workers i p = Some p' ->
  collected (List.length lyrics) p'.
Proof.
  intros Hc. unfold Scenes.step.
  destruct (p_tasks _ _ p !! i) as [t |] eqn:Hi; [| discriminate].
  destruct (lyrics !! i) as [l |] eqn:Hl; [| destruct t; discriminate].
  destruct t as [| img | img | r].
  - destruct (can_start _ _ _ _); [| discriminate].
    destruct (generate_styled_background l style _) as [[img | e] w];
      intros H; injection H as <-.
    + eapply collected_update; [exact Hc | exact Hi | reflexivity].
    + eapply collected_finish; [exact Hc | exact Hi | reflexivity |].
      intros sc Hsc. discriminate.
  - destruct (UniquenessValidator.check_uniqueness _ _ _ _ _) as [[|] | e];
      intros H; injection H as <-.
    + eapply collected_update; [exact Hc | exact Hi | reflexivity].
    + eapply collected_finish; [exact Hc | exact Hi | reflexivity |].
      intros sc Hsc. discriminate.
    + eapply collected_finish; [exact Hc | exact Hi | reflexivity |].
      intros sc Hsc. discriminate.
  - destruct (Duration.calculate_lyric_duration rnd l 120) as [d | e];
      intros H; injection H as <-.
    + eapply collected_finish; [exact Hc | exact Hi | reflexivity |].
      intros sc Hsc. injection Hsc as <-. reflexivity.
    + eapply collected_finish; [exact Hc | exact Hi | reflexivity |].
      intros sc Hsc. discriminate.
  - intros H. injection H as <-. exact Hc.
Qed.

Lemma run_collected (lyrics : list lyric) (style : style_profile)
    (max_workers : nat) (schedule : list nat) :
  forall p p' : pool,
    collected (List.length lyrics) p ->
    run lyrics style max_workers schedule p = Some p' ->
    collected (List.length lyrics) p'.
Proof.
  induction schedule as [| i rest IH]; intros p p' Hc; simpl.
  - intros H. injection H as <-. exact Hc.
  - destruct (step lyrics style max_workers i p) as [p1 |] eqn:E;
      [| discriminate].
    apply IH. eapply step_collected; eassumption.
Qed.

Lemma collected_ids (n : nat) (p : pool) :
  collected n p ->
  increasing_within n (ids image (sort_by_id (p_scenes _ _ p))).
Proof.
  intros [Hlen Hown Hnd]. split.
  - apply sorted_nodup_strict; [apply sort_by_id_sorted |].
    eapply Permutation_NoDup; [| exact Hnd].
    symmetry. apply Permutation_map, sort_by_id_perm.
  - apply List.Forall_forall. intros x Hx.
    apply List.in_map_iff in Hx as (sc & <- & Hin).
    apply (Permutation_in _ (sort_by_id_perm _)) in Hin.
    destruct (Hown sc Hin) as (i & -> & Hi).
    apply lookup_lt_Some in Hi. lia.
Qed.

Lemma parallel_ids (lyrics : list lyric) (style : style_profile)
    (max_workers : nat) (schedule : list nat) (w : world) scenes (p : pool) :
  parallel_generate_scenes lyrics style max_workers schedule w
  = Some (scenes, p) ->
  increasing_within (List.length lyrics) (ids image scenes).
Proof.
  unfold Scenes.parallel_generate_scenes.
  destruct (run lyrics style max_workers schedule _) as [p1 |] eqn:E;
    [| discriminate].
  destruct (forallb _ _); [| discriminate].
  intros H. injection H as <- <-.
  apply collected_ids. eapply run_collected; [| exact E].
  apply collected_submit.
Qed.

(** *** The schedule that runs the tasks one by one *)

Local Abbreviation phase := (phase image).

Lemma run_app (lyrics : list lyric) (style : style_profile)
    (max_workers : nat) (s1 s2 : list nat) (p : pool) :
  run lyrics style max_workers (s1 ++ s2) p
  = match run lyrics style max_workers s1 p with
    | Some p' => run lyrics style max_workers s2 p'
    | None => None
    end.
Proof.
  revert p. induction s1 as [| i s1 IH]; intros p; simpl; [reflexivity |].
  destruct (step lyrics style max_workers i p); [apply IH | reflexivity].
Qed.

Lemma idle_not_running (fs : list (task image)) (k : nat) :
  List.Forall (fun t => is_finished image t = true) fs ->
  List.filter (is_running image) (fs ++ repeat (Queued image) k) = [].
Proof.
  intros Hfs. rewrite List.filter_app.
  assert (H1 : List.filter (is_running image) fs = []).
  { induction Hfs as [| t fs Ht _ IH]; simpl; [reflexivity |].
    destruct t; try discriminate. simpl. exact IH. }
  assert (H2 : List.filter (is_running image) (repeat (Queued image) k) = []).
  { induction k as [| k IH]; simpl; [reflexivity | exact IH]. }
  rewrite H1, H2. reflexivity.
Qed.

Lemma finished_not_queued (fs : list (task image)) :
  List.Forall (fun t => is_finished image t = true) fs ->
  forallb (fun t => negb (is_queued image t)) fs = true.
Proof.
  intros Hfs. induction Hfs as [| t fs Ht _ IH]; simpl; [reflexivity |].
  destruct t; try discriminate. simpl. exact IH.
Qed.

(** With its predecessors finished and its successors queued, the
    task at the front moves on at each step. *)
Lemma step_front (lyrics : list lyric) (style : style_profile)
    (max_workers : nat) (p : pool) (fs : list (task image))
    (t : task image) (k : nat) (l : lyric) :
  (1 <= max_workers)%nat ->
  p_tasks _ _ p = fs ++ t :: repeat (Queued image) k ->
  List.Forall (fun t => is_finished image t = true) fs ->
  lyrics !! List.length fs = Some l ->
  exists (p' : pool) (t' : task image),
    step lyrics style max_workers (List.length fs) p = Some p'
    /\ p_tasks _ _ p' = fs ++ t' :: repeat (Queued image) k
    /\ (Nat.min 3 (S (phase t)) <= phase t')%nat.
Proof.
  intros Hw Htasks Hfs Hl. unfold Scenes.step.
  assert (Hi : p_tasks _ _ p !! List.length fs = Some t).
  { rewrite Htasks. apply list_lookup_middle. reflexivity. }
  assert (Hins : forall x, <[List.length fs := x]> (p_tasks _ _ p)
                           = fs ++ x :: repeat (Queued image) k).
  { intros x. rewrite Htasks.
    replace (List.length fs) with (List.length fs + 0)%nat at 1 by lia.
    rewrite insert_app_r. reflexivity. }
  rewrite Hi, Hl. destruct t as [| img | img | r].
  - assert (Hstart : can_start image max_workers (List.length fs)
                       (p_tasks _ _ p) = true).
    { unfold can_start. rewrite Htasks.
      change (firstn (List.length fs) (fs ++ Queued image :: repeat (Queued image) k))
        with (take (List.length fs) (fs ++ Queued image :: repeat (Queued image) k)).
      rewrite take_app_length, finished_not_queued by exact Hfs.
      change (Queued image :: repeat (Queued image) k)
        with (repeat (Queued image) (S k)).
      rewrite idle_not_running by exact Hfs. simpl.
      apply Nat.ltb_lt. lia. }
    rewrite Hstart.
    destruct (generate_styled_background l style _) as [[img | e] w].
    + eexists _, _. split; [reflexivity |]. simpl. rewrite Hins.
      split; [reflexivity | simpl; lia].
    + eexists _, _. split; [reflexivity |]. simpl. rewrite Hins.
      split; [reflexivity | simpl; lia].
  - destruct (UniquenessValidator.check_uniqueness _ _ _ _ _) as [[|] | e];
      (eexists _, _; split; [reflexivity |]; simpl; rewrite Hins;
       split; [reflexivity | simpl; lia]).
  - destruct (Duration.calculate_lyric_duration rnd l 120) as [d | e];
      (eexists _, _; split; [reflexivity |]; simpl; rewrite Hins;
       split; [reflexivity | simpl; lia]).
  - exists p, (Finished image r). split; [reflexivity |].
    split; [exact Htasks | simpl; lia].
Qed.

Lemma three_steps_finish (lyrics : list lyric) (style : style_profile)
    (max_workers : nat) (p : pool) (fs : list (task image)) (k : nat)
    (l : lyric) :
  (1 <= max_workers)%nat ->
  p_tasks _ _ p = fs ++ repeat (Queued image) (S k) ->
  List.Forall (fun t => is_finished image t = true) fs ->
  lyrics !! List.length fs = Some l ->
  exists (p' : pool) (r : option (scene image)),
    run lyrics style max_workers
      [List.length fs; List.length fs; List.length fs] p = Some p'
    /\ p_tasks _ _ p' = (fs ++ [Finished image r]) ++ repeat (Queued image) k.
Proof.
  intros Hw Htasks Hfs Hl. simpl in Htasks.
  destruct (step_front lyrics style max_workers p fs _ k l Hw Htasks Hfs Hl)
    as (p1 & t1 & E1 & T1 & Ph1).
  destruct (step_front lyrics style max_workers p1 fs _ k l Hw T1 Hfs Hl)
    as (p2 & t2 & E2 & T2 & Ph2).
  destruct (step_front lyrics style max_workers p2 fs _ k l Hw T2 Hfs Hl)
    as (p3 & t3 & E3 & T3 & Ph3).
  simpl. rewrite E1, E2, E3.
  assert (Hp : (3 <= phase t3)%nat) by (simpl phase in Ph1; lia).
  destruct t3 as [| img | img | r]; simpl in Hp; try lia.
  exists p3, r. split; [reflexivity |].
  rewrite <- List.app_assoc. exact T3.
Qed.

Lemma one_by_one_from (style : style_profile) (max_workers : nat)
    (lyrics : list lyric) :
  (1 <= max_workers)%nat ->
  forall (k : nat) (fs : list (task image)) (p : pool),
    (List.length fs + k)%nat = List.length lyrics ->
    p_tasks _ _ p = fs ++ repeat (Queued image) k ->
    List.Forall (fun t => is_finished image t = true) fs ->
    exists p' : pool,
      run lyrics style max_workers
        (flat_map (fun i => [i; i; i]) (List.seq (List.length fs) k)) p
      = Some p'
      /\ forallb (is_finished image) (p_tasks _ _ p') = true.
Proof.
  intros Hw. induction k as [| k IH]; intros fs p Hlen Htasks Hfs.
  - simpl. exists p. split; [reflexivity |].
    rewrite Htasks. simpl. rewrite List.app_nil_r.
    apply List.forallb_forall. intros t Ht.
    exact (proj1 (List.Forall_forall _ _) Hfs t Ht).
  - assert (Hl : exists l, lyrics !! List.length fs = Some l).
    { apply lookup_lt_is_Some. lia. }
    destruct Hl as [l Hl].
    destruct (three_steps_finish lyrics style max_workers p fs k l
                Hw Htasks Hfs Hl) as (p1 & r & E1 & T1).
    change (flat_map (fun i => [i; i; i]) (List.seq (List.length fs) (S k)))
      with ([List.length fs; List.length fs; List.length fs]
            ++ flat_map (fun i => [i; i; i]) (List.seq (S (List.length fs)) k)).
    rewrite run_app, E1.
    replace (S (List.length fs)) with (List.length (fs ++ [Finished image r]))
      by (rewrite List.length_app; simpl; lia).
    apply IH.
    + rewrite List.length_app. simpl. lia.
    + exact T1.
    + apply List.Forall_app. split; [exact Hfs |].
      constructor; [reflexivity | constructor].
Qed.

Lemma one_by_one_completes (lyrics : list lyric) (style : style_profile)
    (max_workers : nat) (w : world) :
  (1 <= max_workers)%nat ->
  exists scenes (p : pool),
    parallel_generate_scenes lyrics style max_workers
      (one_by_one (List.length lyrics)) w = Some (scenes, p).
Proof.
  intros Hw. unfold Scenes.parallel_generate_scenes, one_by_one.
  destruct (one_by_one_from style max_workers lyrics Hw (List.length lyrics)
              [] (submit image world lyrics w)) as (p & E & Hfin).
  - reflexivity.
  - simpl. clear. induction lyrics as [| l ls IH]; simpl; [reflexivity |].
    f_equal. exact IH.
  - constructor.
  - simpl in E. rewrite E, Hfin. eexists _, _. reflexivity.
Qed.

(** *** A full list of ids is [1..n] *)

Lemma increasing_length_bound (l : list Z) :
  forall a b : Z,
    StronglySorted Z.lt l -> List.Forall (fun x => a <= x <= b) l ->
    Z.of_nat (List.length l) <= Z.max 0 (b - a + 1).
Proof.
  induction l as [| x l IH]; intros a b Hs Hr; simpl List.length; [lia |].
  inversion Hs as [| ? ? Hl Hx]; subst.
  inversion Hr as [| ? ? Hxr Hlr]; subst.
  assert (Hin : List.Forall (fun y => x + 1 <= y <= b) l).
  { apply List.Forall_forall. intros y Hy.
    pose proof (proj1 (List.Forall_forall _ _) Hx y Hy).
    pose proof (proj1 (List.Forall_forall _ _) Hlr y Hy). simpl in *. lia. }
  pose proof (IH (x + 1) b Hl Hin). lia.
Qed.

Lemma increasing_full (l : list Z) :
  forall (n : nat) (a : Z),
    StronglySorted Z.lt l ->
    List.Forall (fun x => a + 1 <= x <= a + Z.of_nat n) l ->
    List.length l = n ->
    l = List.map (fun i => a + Z.of_nat i + 1) (List.seq 0 n).
Proof.
  induction l as [| x l IH]; intros n a Hs Hr Hlen; simpl in Hlen; subst n;
    [reflexivity |].
  inversion Hs as [| ? ? Hl Hx]; subst.
  inversion Hr as [| ? ? Hxr Hlr]; subst.
  assert (Hin : List.Forall (fun y => x + 1 <= y <= a + Z.of_nat (S (List.length l))) l).
  { apply List.Forall_forall. intros y Hy.
    pose proof (proj1 (List.Forall_forall _ _) Hx y Hy).
    pose proof (proj1 (List.Forall_forall _ _) Hlr y Hy). simpl in *. lia. }
  pose proof (increasing_length_bound l _ _ Hl Hin) as Hb.
  assert (x = a + 1) by lia. subst x.
  simpl. f_equal; [lia |].
  rewrite <- List.seq_shift, List.map_map.
  transitivity (List.map (fun i => a + 1 + Z.of_nat i + 1)
                  (List.seq 0 (List.length l))).
  - apply IH; [exact Hl | | reflexivity].
    eapply List.Forall_impl; [| exact Hin]. simpl. intros; lia.
  - apply List.map_ext. intros i. lia.
Qed.

Lemma increasing_within_full (n : nat) (l : list Z) :
  increasing_within n l -> List.length l = n -> l = one_to n.
Proof.
  intros [Hs Hr] Hlen. unfold one_to.
  rewrite (increasing_full l n 0 Hs); [| | exact Hlen].
  - apply List.map_ext. intros i. lia.
  - eapply List.Forall_impl; [| exact Hr]. simpl. intros; lia.
Qed.

(** *** When no background is rejected *)

Local Abbreviation distinct_backgrounds :=
  (distinct_backgrounds image grey8x8 world generate_styled_background).
Local Abbreviation generated_for :=
  (generated_for image world generate_styled_background).
Local Abbreviation accounted :=
  (accounted image world generate_styled_background).

(** A background that is far from every accepted one passes the test. *)
Lemma check_uniqueness_far (x : image) (previous : list image) :
  decoder_total ->
  List.Forall (fun p => far_apart image grey8x8 p x) previous ->
  UniquenessValidator.check_uniqueness image grey8x8 x previous
    UniquenessValidator.default_threshold = Ok true.
Proof.
  intros Hdec Hfar. unfold UniquenessValidator.check_uniqueness.
  destruct (Hdec x) as [px Hpx].
  assert (Hx : UniquenessValidator.calculate_image_hash image grey8x8 x
               = Ok (MD5.hexdigest (UniquenessValidator.hash_bits px))).
  { unfold UniquenessValidator.calculate_image_hash. rewrite Hpx. reflexivity. }
  rewrite Hx. simpl.
  induction Hfar as [| p ps (he & hl & Hp & Hl & Hle) _ IH]; simpl;
    [reflexivity |].
  rewrite Hp. simpl. rewrite Hx in Hl. injection Hl as <-.
  destruct (Qlt_le_dec UniquenessValidator.default_threshold _) as [Hlt | _].
  - exfalso. exact (Qlt_not_le _ _ Hlt Hle).
  - exact IH.
Qed.

Lemma finished_count_insert (ts : list (task image)) :
  forall (i : nat) (t t' : task image),
    ts !! i = Some t ->
    (List.length (List.filter (is_finished image) (<[i := t']> ts))
     + (if is_finished image t then 1 else 0)
     = List.length (List.filter (is_finished image) ts)
       + (if is_finished image t' then 1 else 0))%nat.
Proof.
  induction ts as [| x ts IH]; intros i t t' Hi; [discriminate |].
  destruct i as [| i]; simpl in Hi.
  - injection Hi as ->. simpl.
    destruct (is_finished image t), (is_finished image t'); simpl; lia.
  - specialize (IH i t t' Hi). simpl.
    destruct (is_finished image x); simpl; lia.
Qed.

Lemma finished_all (ts : list (task image)) :
  forallb (is_finished image) ts = true ->
  List.filter (is_finished image) ts = ts.
Proof.
  induction ts as [| x ts IH]; simpl; [reflexivity |].
  intros H. apply andb_true_iff in H as [Hx Hts].
  rewrite Hx, IH by exact Hts. reflexivity.
Qed.

Lemma accounted_submit (lyrics : list lyric) (style : style_profile)
    (w : world) :
  accounted lyrics style (submit image world lyrics w).
Proof.
  constructor; simpl.
  - induction lyrics as [| l ls IH]; simpl; [reflexivity | exact IH].
  - intros i img [H | H]; apply list_lookup_fmap_Some in H as (l & H1 & H2);
      (discriminate H1 || discriminate H2).
  - intros img [].
Qed.

(** A task that moves on without finishing. *)
Lemma accounted_update (lyrics : list lyric) (style : style_profile)
    (i : nat) (p : pool) (t t' : task image) (w : world) :
  accounted lyrics style p ->
  p_tasks _ _ p !! i = Some t ->
  is_finished image t = false -> is_finished image t' = false ->
  (forall img, t' = Generated image img \/ t' = Unique image img ->
     generated_for lyrics style i img) ->
  accounted lyrics style
    (mkPool image world w (p_previous _ _ p) (<[i := t']> (p_tasks _ _ p))
       (p_scenes _ _ p)).
Proof.
  intros [Hsc Hrun Hprev] Hi Ht Ht' Hnew. constructor; simpl.
  - pose proof (finished_count_insert _ i t t' Hi) as Hc.
    rewrite Ht, Ht' in Hc. lia.
  - intros i0 img H. destruct (decide (i0 = i)) as [-> | Hne].
    + apply lookup_lt_Some in Hi.
      rewrite list_lookup_insert_eq in H by exact Hi.
      apply Hnew. destruct H as [H | H]; injection H as ->; auto.
    + rewrite list_lookup_insert_ne in H by congruence. apply Hrun, H.
  - intros img Hin. destruct (Hprev img Hin) as (j & r & Hg & Hj).
    exists j, r. split; [exact Hg |].
    rewrite list_lookup_insert_ne; [exact Hj |].
    intros ->. rewrite Hi in Hj. injection Hj as ->. discriminate.
Qed.

Lemma step_accounted (lyrics : list lyric) (style : style_profile)
    (max_workers i : nat) (p p' : pool) :
  generator_total style -> decoder_total ->
  durations_convert lyrics 120 ->
  distinct_backgrounds lyrics style ->
  accounted lyrics style p ->
  step lyrics style max_workers i p = Some p' ->
  accounted lyrics style p'.
Proof.
  intros Hgen Hdec Hdur Hdist Hacc. unfold Scenes.step.
  destruct (p_tasks _ _ p !! i) as [t |] eqn:Hi; [| discriminate].
  destruct (lyrics !! i) as [l |] eqn:Hl; [| destruct t; discriminate].
  destruct t as [| img | img | r].
  - destruct (can_start _ _ _ _); [| discriminate].
    destruct (Hgen l (p_world _ _ p)) as (img & w & E). rewrite E.
    intros H. injection H as <-.
    eapply accounted_update; [exact Hacc | exact Hi | reflexivity
                             | reflexivity |].
    intros img0 [H | H]; [| discriminate]. injection H as <-.
    exists l, (p_world _ _ p), w. split; [exact Hl | exact E].
  - assert (Hme : generated_for lyrics style i img).
    { apply (acc_running _ _ _ _ _ _ Hacc). left. exact Hi. }
    assert (Hfar : List.Forall (fun q => far_apart image grey8x8 q img)
                     (p_previous _ _ p)).
    { apply List.Forall_forall. intros q Hq.
      destruct (acc_previous _ _ _ _ _ _ Hacc q Hq)
        as (j & r & (l2 & w2 & w2' & Hl2 & E2) & Hj).
      destruct Hme as (l1 & w1 & w1' & Hl1 & E1).
      apply (Hdist j i l2 l1 w2 w2' w1 w1' q img); try assumption.
      intros ->. rewrite Hi in Hj. discriminate. }
    rewrite (check_uniqueness_far img _ Hdec Hfar).
    intros H. injection H as <-.
    eapply accounted_update; [exact Hacc | exact Hi | reflexivity
                             | reflexivity |].
    intros img0 [H | H]; [discriminate |]. injection H as <-. exact Hme.
  - assert (Hme : generated_for lyrics style i img).
    { apply (acc_running _ _ _ _ _ _ Hacc). right. exact Hi. }
    assert (Hd : exists d, Duration.calculate_lyric_duration rnd l 120 = Ok d).
    { apply (proj1 (List.Forall_forall _ _) Hdur).
      apply list_elem_of_In. eapply list_elem_of_lookup_2. exact Hl. }
    destruct Hd as [d ->]. intros H. injection H as <-.
    destruct Hacc as [Hsc Hrun Hprev]. unfold finish. constructor; simpl.
    + pose proof (finished_count_insert _ i _
                    (Finished image (Some
                       {| s_id := Z.of_nat i + 1;
                          s_lyric := get_text l;
                          s_image := Some img;
                          s_time := match l_time l with
                                    | Some t => t
                                    | None => 0%Q
                                    end;
                          s_duration := d;
                          s_style := sp_name style;
                          s_rendering_data := rendering_of style |})) Hi) as Hc.
      simpl in Hc. rewrite List.length_app. simpl. lia.
    + intros i0 img0 H. destruct (decide (i0 = i)) as [-> | Hne].
      * apply lookup_lt_Some in Hi.
        rewrite list_lookup_insert_eq in H by exact Hi.
        destruct H as [H | H]; discriminate.
      * rewrite list_lookup_insert_ne in H by congruence. apply Hrun, H.
    + intros img0 Hin. apply List.in_app_or in Hin as [Hin | [<- | []]].
      * destruct (Hprev img0 Hin) as (j & r & Hg & Hj).
        exists j, r. split; [exact Hg |].
        rewrite list_lookup_insert_ne; [exact Hj |].
        intros ->. rewrite Hi in Hj. discriminate.
      * eexists i, _. split; [exact Hme |].
        apply list_lookup_insert_eq. apply lookup_lt_Some in Hi. exact Hi.
  - intros H. injection H as <-. exact Hacc.
Qed.

Lemma run_accounted (lyrics : list lyric) (style : style_profile)
    (max_workers : nat) (schedule : list nat) :
  generator_total style -> decoder_total ->
  durations_convert lyrics 120 ->
  distinct_backgrounds lyrics style ->
  forall p p' : pool,
    accounted lyrics style p ->
    run lyrics style max_workers schedule p = Some p' ->
    accounted lyrics style p'.
Proof.
  intros Hgen Hdec Hdur Hdist.
  induction schedule as [| i rest IH]; intros p p' Hacc; simpl.
  - intros H. injection H as <-. exact Hacc.
  - destruct (step lyrics style max_workers i p) as [p1 |] eqn:E;
      [| discriminate].
    apply IH. eapply step_accounted; eassumption.
Qed.

(** Under every schedule that completes, when nothing raises and no
    background is rejected, every line comes back as a scene. *)
Lemma parallel_complete (lyrics : list lyric) (style : style_profile)
    (max_workers : nat) (schedule : list nat) (w : world) scenes (p : pool) :
  generator_total style -> decoder_total ->
  durations_convert lyrics 120 ->
  distinct_backgrounds lyrics style ->
  parallel_generate_scenes lyrics style max_workers schedule w
  = Some (scenes, p) ->
  List.length scenes = List.length lyrics.
Proof.
  intros Hgen Hdec Hdur Hdist. unfold Scenes.parallel_generate_scenes.
  destruct (run lyrics style max_workers schedule _) as [p1 |] eqn:E;
    [| discriminate].
  destruct (forallb _ _) eqn:Hfin; [| discriminate].
  intros H. injection H as <- <-.
  pose proof (run_accounted lyrics style max_workers schedule Hgen Hdec Hdur
                Hdist _ _ (accounted_submit lyrics style w) E) as Hacc.
  pose proof (run_collected lyrics style max_workers schedule _ _
                (collected_submit lyrics w) E) as Hcol.
  rewrite (Permutation_length (sort_by_id_perm _)).
  rewrite (acc_scenes _ _ _ _ _ _ Hacc), (finished_all _ Hfin).
  apply (col_length _ _ _ _ Hcol).
Qed.


(** C1, amended.  For a job that passes validation and holds [N]
    lyrics: (a) [generate_styled_scenes] returns a scene list whose ids
    are strictly increasing and lie in [1..N], and are exactly
    [1; ...; N] when neither the collaborators nor a duration
    conversion raise; (b) [parallel_generate_scenes] completes under
    the one-by-one schedule; (c) under every schedule that completes,
    the returned ids are strictly increasing and lie in [1..N], and
    are exactly [1; ...; N] when nothing raises and the backgrounds of
    different lines pass the uniqueness test against each other. *)
Theorem scene_ids_increasing_within_range (data : job)
    (style : style_profile) (lyrics : list lyric) (w : world)
    (c : ModelCache.cache) (max_workers : nat) (schedule : list nat) :
  validate_input_data data = Ok tt ->
  d_lyrics data = Some lyrics ->
  (1 <= max_workers)%nat ->
  (exists scenes s,
      generate_styled_scenes rnd image grey8x8 world
        generate_styled_background data style w c = (Ok scenes, s)
      /\ increasing_within (List.length lyrics) (ids image scenes)
      /\ (generator_total style -> decoder_total ->
          durations_convert lyrics (bpm_of data) ->
          ids image scenes = one_to (List.length lyrics)))
  /\ (exists scenes p,
        parallel_generate_scenes lyrics style max_workers
          (one_by_one (List.length lyrics)) w = Some (scenes, p))
  /\ (forall scenes p,
        parallel_generate_scenes lyrics style max_workers schedule w
        = Some (scenes, p) ->
        increasing_within (List.length lyrics) (ids image scenes)
        /\ (generator_total style -> decoder_total ->
            durations_convert lyrics 120 ->
            distinct_backgrounds lyrics style ->
            ids image scenes = one_to (List.length lyrics))).
Proof.
  intros _ Hlyrics Hw. split; [| split].
  - unfold Scenes.generate_styled_scenes. rewrite Hlyrics.
    destruct (styled_scenes_from data style 0 lyrics []
                (mkSeq image world w c [])) as [scenes s] eqn:E.
    exists scenes, s. split; [reflexivity |]. split.
    + pose proof (styled_scenes_from_ids data style lyrics 0 []
                    (mkSeq image world w c [])) as H.
      rewrite E in H. simpl in H. apply H.
      split; constructor.
    + intros Hgen Hdec Hdur.
      pose proof (styled_scenes_from_complete data style lyrics Hgen Hdec
                    Hdur 0 [] (mkSeq image world w c [])) as H.
      rewrite E in H. exact H.
  - apply one_by_one_completes, Hw.
  - intros scenes p H.
    pose proof (parallel_ids _ _ _ _ _ _ _ H) as Hinc.
    split; [exact Hinc |].
    intros Hgen Hdec Hdur Hdist.
    apply increasing_within_full; [exact Hinc |].
    unfold ids. rewrite List.length_map.
    eapply parallel_complete; eassumption.
Qed.

End Generation.

Import Scenes Acceptance Fixtures.

Lemma by_text_total (style : style_profile) :
  generator_total grid unit by_text style.
Proof. intros l w. eexists _, _. reflexivity. Qed.

Lemma decoded_total : decoder_total grid decoded.
Proof. intros img. exists img. reflexivity. Qed.

Lemma plain_lines_convert (texts : list string) :
  durations_convert Duration.exact (map line texts) 120.
Proof.
  apply List.Forall_forall. intros l Hl.
  apply List.in_map_iff in Hl as (t & <- & _).
  eexists. unfold Duration.calculate_lyric_duration. simpl.
  reflexivity.
Qed.

Lemma four_lines_distinct :
  distinct_backgrounds grid decoded unit by_text four_lines plain_style.
Proof.
  intros i j l1 l2 w1 w1' w2 w2' img1 img2 Hne Hl1 Hl2 E1 E2.
  unfold by_text in E1, E2. injection E1 as <- _. injection E2 as <- _.
  destruct i as [| [| [| [| i]]]]; simpl in Hl1; try discriminate Hl1;
    injection Hl1 as <-;
    (destruct j as [| [| [| [| j]]]]; simpl in Hl2; try discriminate Hl2;
     injection Hl2 as <-; try (exfalso; apply Hne; reflexivity);
     (eexists _, _; split; [reflexivity |]; split; [reflexivity |];
      vm_compute; discriminate)).
Qed.

Lemma scene_ids_increasing_within_range_witness :
  (exists scenes s,
      generate_styled_scenes Duration.exact grid decoded unit by_text
        (payload four_lines) plain_style tt [] = (Ok scenes, s)
      /\ ids grid scenes = one_to 4)
  /\ (exists scenes p,
        parallel_generate_scenes Duration.exact grid decoded unit by_text
          four_lines plain_style 4 (one_by_one 4) tt = Some (scenes, p))
  /\ (forall scenes p,
        parallel_generate_scenes Duration.exact grid decoded unit by_text
          four_lines plain_style 4 lockstep tt = Some (scenes, p) ->
        ids grid scenes = one_to 4).
Proof.
  destruct (scene_ids_increasing_within_range Duration.exact grid decoded unit
              by_text (payload four_lines) plain_style four_lines tt [] 4
              lockstep)
    as ((scenes & s & E & _ & Hfull) & Hone & Hany).
  - reflexivity.
  - reflexivity.
  - lia.
  - split; [| split].
    + exists scenes, s. split; [exact E |].
      apply Hfull;
        [apply by_text_total | apply decoded_total
        | apply (plain_lines_convert ["a"; "bb"; "ccc"; "dddd"]%string)].
    + exact Hone.
    + intros scenes' p H. apply (Hany scenes' p H);
        [apply by_text_total | apply decoded_total
        | apply (plain_lines_convert ["a"; "bb"; "ccc"; "dddd"]%string)
        | apply four_lines_distinct].
Defined.

(** C1 as stated fails.  A job with the two required fields whose
    first lyric carries ["duration": null]: [float(None)] raises, the
    lyric is logged and skipped, and the sequential path returns the
    single id 2.  On the parallel path the same happens to the second
    of four lyrics, and the ids are 1, 3, 4.  With a bpm of [10^400]
    the duration of every line raises and no scene comes back.  And on
    the parallel path nothing needs to raise: of the four lines of a
    refrain, whose backgrounds are equal, only the first comes back. *)
Lemma scene_ids_not_contiguous :
  validate_input_data (payload [line_null_duration "a"; line "bb"]) = Ok tt
  /\ (exists scenes s,
        generate_styled_scenes Duration.exact grid decoded unit by_text
          (payload [line_null_duration "a"; line "bb"]) plain_style tt []
        = (Ok scenes, s)
        /\ ids grid scenes = [2]
        /\ ids grid scenes <> one_to 2)
  /\ (exists scenes p,
        parallel_generate_scenes Duration.exact grid decoded unit by_text
          four_lines_one_null plain_style 4 (one_by_one 4) tt
        = Some (scenes, p)
        /\ ids grid scenes = [1; 3; 4]
        /\ ids grid scenes <> one_to 4)
  /\ (exists scenes s,
        generate_styled_scenes Duration.exact grid decoded unit by_text
          (mkJob (Some "Test"%string) (Some four_lines) (Some (10 ^ 400)) None)
          plain_style tt []
        = (Ok scenes, s)
        /\ ids grid scenes = []
        /\ ids grid scenes <> one_to 4)
  /\ (durations_convert Duration.exact refrain 120
      /\ exists scenes p,
        parallel_generate_scenes Duration.exact grid decoded unit by_text
          refrain plain_style 4 (one_by_one 4) tt
        = Some (scenes, p)
        /\ ids grid scenes = [1]
        /\ ids grid scenes <> one_to 4).
Proof.
  split; [reflexivity |]. split; [| split; [| split]].
  - eexists _, _. split; [vm_compute; reflexivity |].
    split; [reflexivity | discriminate].
  - eexists _, _. split; [vm_compute; reflexivity |].
    split; [reflexivity | discriminate].
  - eexists _, _. split; [vm_compute; reflexivity |].
    split; [reflexivity | discriminate].
  - split.
    + apply (plain_lines_convert
               ["la la la"; "la la la"; "la la la"; "la la la"]%string).
    + eexists _, _. split; [vm_compute; reflexivity |].
      split; [reflexivity | discriminate].
Qed.

(** C3.  Four lyrics with the same text take the parallel path.  The
    generator yields the same background for each; run one by one, the
    first task is accepted and each later one fails the uniqueness
    test once and returns no scene: the generator is called four
    times in all, one scene comes back.  [generate_styled_scenes] on
    the same lyrics keeps all four scenes. *)
Theorem parallel_path_drops_scene_after_one_attempt :
  uses_parallel_path refrain = true
  /\ (exists scenes p,
        parallel_generate_scenes Duration.exact grid decoded nat
          counting_by_text refrain plain_style 4 (one_by_one 4) 0%nat
        = Some (scenes, p)
        /\ ids grid scenes = [1]
        /\ p_world grid nat p = 4%nat)
  /\ (exists scenes s,
        generate_styled_scenes Duration.exact grid decoded nat
          counting_by_text (payload refrain) plain_style 0%nat []
        = (Ok scenes, s)
        /\ ids grid scenes = [1; 2; 3; 4]).
Proof.
  split; [reflexivity |]. split.
  - eexists _, _. split; [vm_compute; reflexivity |].
    split; reflexivity.
  - eexists _, _. split; [vm_compute; reflexivity |]. reflexivity.
Qed.


End SceneFacts.

(** ** The storage lifecycle manager *)

Module LifecycleFacts.
Section Manager.

Import StorageLifecycleManager.

Variable cloud : Type.
Variable api_resources : cloud -> result (list resource).
Variable uploader_destroy : string -> cloud -> result unit * cloud.
Variable public_id_of_url : string -> option string.

Local Abbreviation _perform_scheduled_cleanup :=
  (_perform_scheduled_cleanup cloud api_resources uploader_destroy).
Local Abbreviation scheduled_cleanup_body :=
  (scheduled_cleanup_body cloud api_resources uploader_destroy).
Local Abbreviation delete_asset :=
  (delete_asset cloud uploader_destroy public_id_of_url).
Local Abbreviation _delete_after_delay :=
  (_delete_after_delay cloud uploader_destroy public_id_of_url).
Local Abbreviation sweeps := (sweeps cloud api_resources uploader_destroy).

(** [_cleanup_pending_deletions], called on its own, removes exactly
    the entries whose expiry has passed. *)
Lemma cleanup_pending_deletions_lookup (now : Q) (m : manager)
    (asset_id : string) :
  pending_deletions (_cleanup_pending_deletions now m) !! asset_id
  = match pending_deletions m !! asset_id with
    | Some expiry => if Qle_bool expiry now then None else Some expiry
    | None => None
    end.
Proof.
  unfold _cleanup_pending_deletions, expired_ids. simpl.
  set (pd := pending_deletions m).
  assert (Hgen : forall ids : list string,
    (fold_right (fun a acc => delete a acc) pd ids : gmap string Q) !! asset_id
    = if bool_decide (asset_id ∈ ids) then None else pd !! asset_id).
  { induction ids as [| a ids IH]; simpl.
    - reflexivity.
    - destruct (decide (a = asset_id)) as [-> | Hne].
      + rewrite lookup_delete_eq.
        rewrite bool_decide_eq_true_2 by (left). reflexivity.
      + rewrite lookup_delete_ne by exact Hne. rewrite IH.
        destruct (bool_decide (asset_id ∈ ids)) eqn:E.
        * apply bool_decide_eq_true_1 in E.
          rewrite bool_decide_eq_true_2 by (right; exact E). reflexivity.
        * apply bool_decide_eq_false_1 in E.
          rewrite bool_decide_eq_false_2; [reflexivity |].
          intros Hin. apply elem_of_cons in Hin as [-> | Hin]; tauto. }
  rewrite Hgen. clear Hgen.
  destruct (pd !! asset_id) as [expiry |] eqn:Hlook.
  - destruct (Qle_bool expiry now) eqn:Hexp.
    + rewrite bool_decide_eq_true_2; [reflexivity |].
      apply list_elem_of_In, List.in_map_iff.
      exists (asset_id, expiry). split; [reflexivity |].
      apply List.filter_In. split; [| exact Hexp].
      apply list_elem_of_In, elem_of_map_to_list, Hlook.
    + rewrite bool_decide_eq_false_2; [reflexivity |].
      intros Hin. apply list_elem_of_In, List.in_map_iff in Hin
        as ([k e] & Hk & Hin). simpl in Hk. subst k.
      apply List.filter_In in Hin as [Hin He]. simpl in He.
      apply list_elem_of_In, elem_of_map_to_list in Hin.
      rewrite Hlook in Hin. injection Hin as ->. congruence.
  - rewrite bool_decide_eq_false_2; [reflexivity |].
    intros Hin. apply list_elem_of_In, List.in_map_iff in Hin
      as ([k e] & Hk & Hin). simpl in Hk. subst k.
    apply List.filter_In in Hin as [Hin _].
    apply list_elem_of_In, elem_of_map_to_list in Hin. congruence.
Qed.

(** A deletion that reports success has removed the entry. *)
Lemma delete_asset_removes_entry (asset_id asset_url storage_type : string)
    (m m' : manager) (cl cl' : cloud) :
  delete_asset asset_id asset_url storage_type m cl = (true, m', cl') ->
  pending_deletions m' !! asset_id = None.
Proof.
  unfold StorageLifecycleManager.delete_asset, delete_asset_body.
  destruct (if (String.eqb storage_type "cloudinary" && cloudinary_available m)%bool
            then _ else _) as [[u | e] cl1]; intros H.
  - injection H as <- _. simpl. apply lookup_delete_eq.
  - discriminate.
Qed.

(** On a manager whose [s3_available] was never assigned, the body of
    the sweep raises before it reaches [_cleanup_pending_deletions]. *)
Lemma scheduled_cleanup_body_raises (now : Q) (m : manager) (cl : cloud) :
  s3_available m = None ->
  exists cl', scheduled_cleanup_body now m cl = (Raise AttributeError, cl').
Proof.
  intros Hs3. unfold StorageLifecycleManager.scheduled_cleanup_body.
  destruct (if cloudinary_available m then _ else _) as [count cl1].
  unfold get_s3_available. rewrite Hs3. exists cl1. reflexivity.
Qed.

Lemma perform_scheduled_cleanup_keeps_manager (now : Q) (m : manager)
    (cl : cloud) :
  s3_available m = None ->
  fst (_perform_scheduled_cleanup now m cl) = m.
Proof.
  intros Hs3. unfold StorageLifecycleManager._perform_scheduled_cleanup.
  destruct (scheduled_cleanup_body_raises now m cl Hs3) as [cl' ->].
  reflexivity.
Qed.

Lemma delete_asset_keeps_s3 (asset_id asset_url storage_type : string)
    (m : manager) (cl : cloud) :
  s3_available (snd (fst (delete_asset asset_id asset_url storage_type m cl)))
  = s3_available m.
Proof.
  unfold StorageLifecycleManager.delete_asset.
  destruct (delete_asset_body _ _ _ _ _ _ _ _) as [[m' | e] cl'] eqn:E;
    [| reflexivity].
  unfold delete_asset_body in E.
  destruct (if (String.eqb storage_type "cloudinary" && cloudinary_available m)%bool
            then _ else _) as [[u | e] cl1]; [| discriminate].
  injection E as <- _. reflexivity.
Qed.

(** A deletion that reports failure has left the manager alone. *)
Lemma delete_asset_failed (asset_id asset_url storage_type : string)
    (m : manager) (cl : cloud) :
  fst (fst (delete_asset asset_id asset_url storage_type m cl)) = false ->
  snd (fst (delete_asset asset_id asset_url storage_type m cl)) = m.
Proof.
  unfold StorageLifecycleManager.delete_asset.
  destruct (delete_asset_body _ _ _ _ _ _ _ _) as [[m' | e] cl'];
    [discriminate | reflexivity].
Qed.

(** The timed deletion fails, for one, when the remote [destroy]
    raises. *)
Lemma delete_asset_fails_with_destroy (asset_id asset_url : string)
    (m : manager) (cl cl' : cloud) (pid : string) (e : exn) :
  cloudinary_available m = true ->
  public_id_of_url asset_url = Some pid ->
  uploader_destroy pid cl = (Raise e, cl') ->
  delete_asset asset_id asset_url "cloudinary" m cl = (false, m, cl').
Proof.
  intros Hc Hpid Hd.
  unfold StorageLifecycleManager.delete_asset, delete_asset_body.
  rewrite Hc, Hpid. simpl. rewrite Hd. reflexivity.
Qed.

(** No sweep changes a manager whose [s3_available] was never
    assigned. *)
Lemma sweeps_keep_manager (times : list Q) (m : manager) :
  s3_available m = None ->
  forall cl : cloud, fst (sweeps times m cl) = m.
Proof.
  intros Hs3. induction times as [| now later IH]; intros cl; simpl;
    [reflexivity |].
  pose proof (perform_scheduled_cleanup_keeps_manager now m cl Hs3) as Hm.
  destruct (_perform_scheduled_cleanup now m cl) as [m' cl'].
  simpl in Hm. subst m'. apply IH.
Qed.

(** C6.  An asset is scheduled at [t0] on a freshly built manager, so
    its entry expires a day later, when the thread that
    [schedule_deletion] started calls [delete_asset].  If that call
    fails, the entry stays, and no sweep of the cleanup worker, before
    or after the expiry, ever removes it: the body of
    [_perform_scheduled_cleanup] reads [self.s3_available], which no
    statement assigns, and the [AttributeError] ends it before
    [_cleanup_pending_deletions].  That function, called directly at
    any time from the expiry on, does remove the entry.  In general, a
    sweep leaves every expired entry where it is, on every manager on
    which [s3_available] was never assigned. *)
Theorem sweep_never_reaches_pending_cleanup (backend : string)
    (credentials : bool) (asset_id asset_url storage_type : string)
    (t0 : Q) (before after : list Q) (cl : cloud) :
  let scheduled :=
    schedule_deletion asset_id asset_url storage_type t0
      (__init__ backend credentials) in
  let early := sweeps before (fst scheduled) cl in
  let timed := _delete_after_delay (snd scheduled) (fst early) (snd early) in
  let late := sweeps after (fst timed) (snd timed) in
  fst (fst (delete_asset asset_id asset_url storage_type
              (fst early) (snd early))) = false ->
  due (snd scheduled) = (t0 + 86400)%Q
  /\ pending_deletions (fst scheduled) !! asset_id = Some (t0 + 86400)%Q
  /\ pending_deletions (fst late) !! asset_id = Some (t0 + 86400)%Q
  /\ (forall now : Q, (t0 + 86400 <= now)%Q ->
      pending_deletions
        (fst (_perform_scheduled_cleanup now (fst late) (snd late)))
      !! asset_id = Some (t0 + 86400)%Q
      /\ pending_deletions (_cleanup_pending_deletions now (fst late))
         !! asset_id = None)
  /\ (forall (m : manager) (a : string) (expiry now : Q) (cl0 : cloud),
        s3_available m = None ->
        pending_deletions m !! a = Some expiry ->
        (expiry <= now)%Q ->
        pending_deletions (fst (_perform_scheduled_cleanup now m cl0)) !! a
        = Some expiry).
Proof.
  intros scheduled early timed late Hfail.
  assert (Hentry : pending_deletions (fst scheduled) !! asset_id
                   = Some (t0 + 86400)%Q).
  { unfold scheduled, schedule_deletion. simpl. apply lookup_insert_eq. }
  assert (Hearly : fst early = fst scheduled).
  { unfold early. apply sweeps_keep_manager. reflexivity. }
  assert (Htimed : fst timed = fst scheduled).
  { unfold timed, StorageLifecycleManager._delete_after_delay.
    change (dd_asset_id (snd scheduled)) with asset_id.
    change (dd_asset_url (snd scheduled)) with asset_url.
    change (dd_storage_type (snd scheduled)) with storage_type.
    pose proof (delete_asset_failed asset_id asset_url storage_type
                  (fst early) (snd early) Hfail) as Hm.
    destruct (delete_asset asset_id asset_url storage_type (fst early)
                (snd early)) as [[ok m'] cl'].
    simpl in Hm. simpl. rewrite Hm. exact Hearly. }
  assert (Hlate : fst late = fst scheduled).
  { unfold late. rewrite sweeps_keep_manager; [exact Htimed |].
    rewrite Htimed. reflexivity. }
  split; [reflexivity |]. split; [exact Hentry |].
  split; [rewrite Hlate; exact Hentry |]. split.
  - intros now Hnow. split.
    + rewrite perform_scheduled_cleanup_keeps_manager.
      * rewrite Hlate. exact Hentry.
      * rewrite Hlate. reflexivity.
    + rewrite cleanup_pending_deletions_lookup, Hlate, Hentry.
      apply Qle_bool_iff in Hnow. rewrite Hnow. reflexivity.
  - intros m a expiry now cl0 Hs3 Ha _.
    rewrite perform_scheduled_cleanup_keeps_manager by exact Hs3. exact Ha.
Qed.

End Manager.

Import StorageLifecycleManager Samples.

Lemma sweep_never_reaches_pending_cleanup_witness :
  let scheduled :=
    schedule_deletion "lyric-videos/j1" hosted_url "cloudinary" 0
      (__init__ "cloudinary" true) in
  let early :=
    sweeps unit unreachable_resources unreachable_destroy [3600; 7200]%Q
      (fst scheduled) tt in
  let timed :=
    _delete_after_delay unit unreachable_destroy public_id_of_hosted_url
      (snd scheduled) (fst early) (snd early) in
  let late :=
    sweeps unit unreachable_resources unreachable_destroy [90000; 93600]%Q
      (fst timed) (snd timed) in
  due (snd scheduled) = (0 + 86400)%Q
  /\ pending_deletions (fst scheduled) !! "lyric-videos/j1"%string
     = Some (0 + 86400)%Q
  /\ pending_deletions (fst late) !! "lyric-videos/j1"%string
     = Some (0 + 86400)%Q
  /\ (forall now : Q, (0 + 86400 <= now)%Q ->
      pending_deletions
        (fst (_perform_scheduled_cleanup unit unreachable_resources
                unreachable_destroy now (fst late) (snd late)))
      !! "lyric-videos/j1"%string = Some (0 + 86400)%Q
      /\ pending_deletions (_cleanup_pending_deletions now (fst late))
         !! "lyric-videos/j1"%string = None)
  /\ (forall (m : manager) (a : string) (expiry now : Q) (cl0 : unit),
        s3_available m = None ->
        pending_deletions m !! a = Some expiry ->
        (expiry <= now)%Q ->
        pending_deletions
          (fst (_perform_scheduled_cleanup unit unreachable_resources
                  unreachable_destroy now m cl0)) !! a
        = Some expiry).
Proof.
  cbv zeta.
  apply (sweep_never_reaches_pending_cleanup unit unreachable_resources
           unreachable_destroy public_id_of_hosted_url "cloudinary" true
           "lyric-videos/j1" hosted_url "cloudinary" 0 [3600; 7200]%Q
           [90000; 93600]%Q tt).
  vm_compute. reflexivity.
Defined.

End LifecycleFacts.

(** ** The animation registry *)

Module AnimationFacts.

Import Animation.

Section Clips.

Variable clip : Type.
Variable fadein fadeout : Q -> clip -> clip.
Variable animate : animation -> clip -> Q -> string -> result clip.

Local Abbreviation apply_professional_animation :=
  (@apply_professional_animation clip fadein fadeout animate).
Local Abbreviation fallback := (fallback clip fadein fadeout).

Lemma startswith_app (p s : string) : startswith p (p +:+ s) = true.
Proof.
  induction p as [| a p IH]; simpl; [reflexivity |].
  rewrite Ascii.eqb_refl. exact IH.
Qed.

Lemma drop_app (p s : string) : Py.drop (String.length p) (p +:+ s) = s.
Proof. induction p as [| a p IH]; simpl; [reflexivity | exact IH]. Qed.

Lemma remove_all_fuel_free (old s : string) :
  free_of old s = true ->
  forall fuel : nat, remove_all_fuel fuel old s = s.
Proof.
  induction s as [| c s IH]; intros Hfree fuel; destruct fuel as [| fuel];
    simpl; try reflexivity.
  simpl in Hfree. apply andb_true_iff in Hfree as [Hs Hrest].
  apply negb_true_iff in Hs. simpl in Hs. rewrite Hs.
  f_equal. apply IH, Hrest.
Qed.

(** With one occurrence, at the front, [replace] is prefix removal. *)
Lemma lookup_tag_single_prefix (rest : string) :
  free_of prefix rest = true ->
  lookup_tag (prefix +:+ rest) = lower rest.
Proof.
  intros Hfree. unfold lookup_tag. rewrite startswith_app.
  f_equal. unfold remove_all.
  change (remove_all_fuel (S (String.length (prefix +:+ rest))) prefix
            (prefix +:+ rest))
    with (remove_all_fuel (String.length (prefix +:+ rest)) prefix
            (Py.drop (String.length prefix) (prefix +:+ rest))).
  rewrite drop_app. apply remove_all_fuel_free, Hfree.
Qed.

Lemma startswith_split (p s : string) :
  startswith p s = true -> s = p +:+ Py.drop (String.length p) s.
Proof.
  revert s. induction p as [| a p IH]; intros s H; [reflexivity |].
  destruct s as [| b s]; [discriminate |].
  simpl in H. apply andb_true_iff in H as [Hab Hrest].
  apply Ascii.eqb_eq in Hab. subst b.
  change (String a s = String a (p +:+ Py.drop (String.length p) s)).
  f_equal. apply IH, Hrest.
Qed.

(** When the prefix does not occur again behind the front, the tag
    that is looked up is the one the specification names. *)
Lemma lookup_tag_is_spec (tag : string) :
  free_of prefix (Py.drop (String.length prefix) tag) = true ->
  lookup_tag tag = spec_lookup_tag tag.
Proof.
  intros Hfree. unfold spec_lookup_tag.
  destruct (startswith prefix tag) eqn:Hp.
  - rewrite (startswith_split _ _ Hp) at 1.
    apply lookup_tag_single_prefix, Hfree.
  - unfold lookup_tag. rewrite Hp. reflexivity.
Qed.

(** The tags that reach [apply_professional_animation]: a scene takes
    its tag from an entry of [STYLE_PROFILES], and a scene without one
    gets ["float_fade"].  None of them holds the prefix twice. *)
Lemma program_tags_single_prefix {image} (sc : scene image) :
  (exists key style,
      List.In (key, style) Styles.STYLE_PROFILES
      /\ animation_tag (s_rendering_data sc) = Some (sp_animation_tag style))
  \/ animation_tag (s_rendering_data sc) = None ->
  free_of prefix (Py.drop (String.length prefix) (tag_of sc)) = true.
Proof.
  unfold tag_of. intros [(key & style & Hin & ->) | ->]; [| reflexivity].
  simpl in Hin.
  repeat (destruct Hin as [Hin | Hin];
          [injection Hin as <- <-; reflexivity |]).
  contradiction.
Qed.

(** C8.  A scene built by scene generation carries the animation tag
    of an entry of [STYLE_PROFILES]; a scene without a tag gets
    ["float_fade"].  For every such scene (and for every tag in which
    ["ANIMATION_"] does not occur again behind the front) the registry
    is consulted under the tag with its leading ["ANIMATION_"] taken
    off and the rest lower-cased, or under the tag as it is when it
    has no such prefix; and when that tag is not in the registry, the
    overlay is the clip with a 0.5 s fade-in and a 0.5 s fade-out. *)
Theorem unknown_tag_falls_back_to_fade {image} (text_clip : clip)
    (sc : scene image) :
  (exists key style,
      List.In (key, style) Styles.STYLE_PROFILES
      /\ animation_tag (s_rendering_data sc) = Some (sp_animation_tag style))
  \/ animation_tag (s_rendering_data sc) = None
  \/ free_of prefix (Py.drop (String.length prefix) (tag_of sc)) = true ->
  lookup_tag (tag_of sc) = spec_lookup_tag (tag_of sc)
  /\ (startswith prefix (tag_of sc) = true ->
      lookup_tag (tag_of sc)
      = lower (Py.drop (String.length prefix) (tag_of sc)))
  /\ (startswith prefix (tag_of sc) = false ->
      lookup_tag (tag_of sc) = tag_of sc)
  /\ (registry_get (spec_lookup_tag (tag_of sc)) ANIMATION_FUNCTION_MAP = None ->
      apply_professional_animation text_clip sc
      = fadeout (1 # 2) (fadein (1 # 2) text_clip))
  /\ apply_professional_animation text_clip sc
     = spec_apply_professional_animation clip fadein fadeout animate
         text_clip sc.
Proof.
  intros Htag.
  assert (Hfree : free_of prefix (Py.drop (String.length prefix) (tag_of sc))
                  = true).
  { destruct Htag as [H | [H | H]]; [| | exact H];
      apply program_tags_single_prefix; auto. }
  pose proof (lookup_tag_is_spec _ Hfree) as Hspec.
  split; [exact Hspec |]. split; [| split; [| split]].
  - intros Hp. rewrite Hspec. unfold spec_lookup_tag. rewrite Hp. reflexivity.
  - intros Hp. rewrite Hspec. unfold spec_lookup_tag. rewrite Hp. reflexivity.
  - intros Hnone. unfold Animation.apply_professional_animation.
    rewrite Hspec, Hnone. reflexivity.
  - unfold Animation.apply_professional_animation,
      spec_apply_professional_animation.
    rewrite Hspec. reflexivity.
Qed.

End Clips.

Lemma unknown_tag_falls_back_to_fade_witness :
  apply_professional_animation term_clip FadeIn FadeOut record_animation
    (TextClip "hello") (scene_with_tag "ANIMATION_SLIDE_SNAP")
  = FadeOut (1 # 2) (FadeIn (1 # 2) (TextClip "hello"))
  /\ lookup_tag "ANIMATION_SLIDE_SNAP" = "slide_snap"%string.
Proof.
  destruct (unknown_tag_falls_back_to_fade term_clip FadeIn FadeOut
              record_animation (TextClip "hello")
              (scene_with_tag "ANIMATION_SLIDE_SNAP"))
    as (_ & H2 & _ & H4 & _).
  - left. exists "minimalist_typography"%string,
      (mkStyle "Minimalist Typography" "FONT_GEOMETRIC_THIN"
         "ANIMATION_SLIDE_SNAP" "EFFECT_NONE" "COLOR_MONOCHROME_HIGH" "low").
    split; [right; left; reflexivity | reflexivity].
  - split; [exact (H4 eq_refl) | exact (H2 eq_refl)].
Defined.

(** A tag that holds the prefix twice is not one the program builds.
    On such a tag [replace] deletes both occurrences: for
    ["ANIMATION_ANIMATION_SLIDE"] the registry is asked for ["slide"]
    and not for ["animation_slide"]. *)
Lemma second_prefix_is_removed_too :
  spec_lookup_tag "ANIMATION_ANIMATION_SLIDE" = "animation_slide"%string
  /\ registry_get "animation_slide" ANIMATION_FUNCTION_MAP = None
  /\ spec_apply_professional_animation term_clip FadeIn FadeOut
       record_animation (TextClip "hello")
       (scene_with_tag "ANIMATION_ANIMATION_SLIDE")
     = FadeOut (1 # 2) (FadeIn (1 # 2) (TextClip "hello"))
  /\ lookup_tag "ANIMATION_ANIMATION_SLIDE" = "slide"%string
  /\ apply_professional_animation term_clip FadeIn FadeOut record_animation
       (TextClip "hello") (scene_with_tag "ANIMATION_ANIMATION_SLIDE")
     = Animated animate_slide_snap 1 "low" (TextClip "hello")
  /\ apply_professional_animation term_clip FadeIn FadeOut record_animation
       (TextClip "hello") (scene_with_tag "ANIMATION_ANIMATION_SLIDE")
     <> FadeOut (1 # 2) (FadeIn (1 # 2) (TextClip "hello")).
Proof.
  repeat split; try reflexivity. discriminate.
Qed.

End AnimationFacts.

(** ** The upload step *)

Module UploadFacts.

Import Upload.

Section Uploader.

Variable uploader_upload : upload_request -> result upload_result.
Variable video_duration : string -> result Q.
Variable str_exn : exn -> string.

Local Abbreviation upload_to_cloudinary :=
  (upload_to_cloudinary uploader_upload video_duration str_exn).
Local Abbreviation _upload_with_lifecycle :=
  (_upload_with_lifecycle uploader_upload video_duration str_exn).
Local Abbreviation upload_and_log := (upload_and_log uploader_upload).

(** Neither function ever raises. *)
Lemma upload_to_cloudinary_returns (video_path : string) (data : job)
    (env : environ) (now : Z) :
  exists r, upload_to_cloudinary video_path data env now = Ok r.
Proof.
  unfold Upload.upload_to_cloudinary.
  destruct (negb (credentials env)); [eexists; reflexivity |].
  destruct (Upload.upload_and_log _ _); eexists; reflexivity.
Qed.

Lemma upload_with_lifecycle_returns (video_path : string) (data : job)
    (env : environ) (now : Z) (expires_at : string) :
  exists r, _upload_with_lifecycle video_path data env now expires_at = Ok r.
Proof.
  unfold Upload._upload_with_lifecycle.
  destruct (negb (credentials env)); [eexists; reflexivity |].
  destruct (Upload.upload_and_log _ _); eexists; reflexivity.
Qed.

Lemma upload_and_log_raises (rq : upload_request) (e : exn) :
  uploader_upload rq = Raise e -> upload_and_log rq = Raise e.
Proof. intros H. unfold Upload.upload_and_log. rewrite H. reflexivity. Qed.

Lemma local_test_is_local (video_path : string) (now : Z) :
  is_local video_path now (local_test video_duration video_path now).
Proof. unfold is_local. simpl. auto. Qed.

Lemma local_fallback_is_local (video_path : string) (now : Z) (e : exn) :
  is_local video_path now (local_fallback str_exn video_path now e).
Proof. unfold is_local. simpl. auto. Qed.

(** C9.  When a Cloudinary credential is missing, or when the upload
    call raises, both [upload_to_cloudinary] and
    [_upload_with_lifecycle] return normally, with a result whose
    [secure_url] is ["file://"] followed by the path of the rendered
    video and whose [public_id] is a local one; the two keys that the
    callers read next are present. *)
Theorem upload_failure_yields_local_reference (video_path : string)
    (data : job) (env : environ) (now : Z) (expires_at : string) :
  credentials env = false
  \/ ((exists e, uploader_upload (plain_request video_path data now) = Raise e)
      /\ (exists e, uploader_upload
                      (lifecycle_request video_path data now expires_at)
                    = Raise e)) ->
  (exists r, upload_to_cloudinary video_path data env now = Ok r
     /\ is_local video_path now r
     /\ is_ok (read_back r) = true)
  /\ (exists r,
        _upload_with_lifecycle video_path data env now expires_at = Ok r
        /\ is_local video_path now r
        /\ is_ok (read_back r) = true).
Proof.
  intros [Hcred | [[e1 H1] [e2 H2]]].
  - unfold Upload.upload_to_cloudinary, Upload._upload_with_lifecycle.
    rewrite Hcred. simpl.
    split; eexists; (split; [reflexivity |]);
      (split; [apply local_test_is_local | reflexivity]).
  - unfold Upload.upload_to_cloudinary, Upload._upload_with_lifecycle.
    destruct (negb (credentials env)).
    + split; eexists; (split; [reflexivity |]);
        (split; [apply local_test_is_local | reflexivity]).
    + rewrite (upload_and_log_raises _ _ H1), (upload_and_log_raises _ _ H2).
      split; eexists; (split; [reflexivity |]);
        (split; [apply local_fallback_is_local | reflexivity]).
Qed.

End Uploader.

Import Fixtures.

Lemma upload_failure_yields_local_reference_witness :
  (exists r, upload_to_cloudinary refusing_uploader unknown_duration exn_text
               "/tmp/tmpab12/output.mp4" (payload four_lines)
               configured_environ 1700000000 = Ok r
     /\ is_local "/tmp/tmpab12/output.mp4" 1700000000 r
     /\ is_ok (read_back r) = true)
  /\ (exists r,
        _upload_with_lifecycle refusing_uploader unknown_duration exn_text
          "/tmp/tmpab12/output.mp4" (payload four_lines)
          configured_environ 1700000000 "2023-11-15T22:13:20" = Ok r
        /\ is_local "/tmp/tmpab12/output.mp4" 1700000000 r
        /\ is_ok (read_back r) = true).
Proof.
  apply (upload_failure_yields_local_reference refusing_uploader
           unknown_duration exn_text "/tmp/tmpab12/output.mp4"
           (payload four_lines) configured_environ 1700000000
           "2023-11-15T22:13:20").
  right. split; exists (ExternalError "upload refused"); reflexivity.
Defined.

End UploadFacts.

(** ** Style selection *)

Module StyleFacts.

Import Styles.

Lemma first_match_in (r : string) (table : list (string * style_profile))
    (default : style_profile) :
  first_match r table default = default
  \/ exists key, List.In (key, first_match r table default) table
       /\ nonempty r = true /\ contains_str r key = true.
Proof.
  induction table as [| [key p] rest IH]; simpl; [left; reflexivity |].
  destruct (nonempty r && contains_str r key)%bool eqn:E.
  - right. exists key. apply andb_true_iff in E. tauto.
  - destruct IH as [-> | (k & Hin & Hr)]; [left; reflexivity |].
    right. exists k. tauto.
Qed.

Lemma first_match_none (r : string) (table : list (string * style_profile))
    (default : style_profile) :
  (nonempty r = false
   \/ forall key p, List.In (key, p) table -> contains_str r key = false) ->
  first_match r table default = default.
Proof.
  intros H. induction table as [| [key p] rest IH]; simpl; [reflexivity |].
  destruct H as [H | H].
  - rewrite H. simpl. apply IH. left. exact H.
  - rewrite (H key p) by (left; reflexivity). rewrite andb_false_r.
    apply IH. right. intros k q Hin. apply (H k q). right. exact Hin.
Qed.

Lemma first_match_first (r : string) (default : style_profile)
    (before after : list (string * style_profile)) (key : string)
    (p : style_profile) :
  nonempty r = true ->
  (forall k q, List.In (k, q) before -> contains_str r k = false) ->
  contains_str r key = true ->
  first_match r (before ++ (key, p) :: after) default = p.
Proof.
  intros Hr Hbefore Hkey. induction before as [| [k q] before IH]; simpl.
  - rewrite Hr, Hkey. reflexivity.
  - rewrite (Hbefore k q) by (left; reflexivity). rewrite andb_false_r.
    apply IH. intros k' q' Hin. apply (Hbefore k' q'). right. exact Hin.
Qed.

(** X1.  [select_style_profile] always returns an entry of
    [STYLE_PROFILES].  It is the first entry, in dict order, whose key
    contains the lower-cased requested style; when the style is missing
    or empty, or no key contains it, it is the Dreamy Ethereal entry.
    The match is on keys, so the display name of a style selects
    nothing. *)
Theorem select_style_profile_first_key_match (style : option string) :
  let requested :=
    lower (match style with Some s => s | None => EmptyString end) in
  (exists key, List.In (key, select_style_profile style) STYLE_PROFILES)
  /\ (requested = EmptyString -> select_style_profile style = dreamy_ethereal)
  /\ ((forall key p, List.In (key, p) STYLE_PROFILES ->
       contains_str requested key = false) ->
      select_style_profile style = dreamy_ethereal)
  /\ (forall before key p after,
        STYLE_PROFILES = before ++ (key, p) :: after ->
        requested <> EmptyString ->
        (forall k q, List.In (k, q) before -> contains_str requested k = false) ->
        contains_str requested key = true ->
        select_style_profile style = p)
  /\ select_style_profile (Some "Minimalist"%string)
     = mkStyle "Minimalist Typography" "FONT_GEOMETRIC_THIN"
         "ANIMATION_SLIDE_SNAP" "EFFECT_NONE" "COLOR_MONOCHROME_HIGH" "low"
  /\ select_style_profile (Some "Minimalist Typography"%string)
     = dreamy_ethereal.
Proof.
  intros requested. unfold select_style_profile. fold requested.
  split; [| split; [| split; [| split; [| split]]]].
  - destruct (first_match_in requested STYLE_PROFILES dreamy_ethereal)
      as [-> | (key & Hin & _)].
    + exists "dreamy_ethereal"%string. left. reflexivity.
    + exists key. exact Hin.
  - intros ->. reflexivity.
  - intros H. apply first_match_none. right. exact H.
  - intros before key p after -> Hne Hbefore Hkey.
    apply first_match_first; [| exact Hbefore | exact Hkey].
    destruct requested; [contradiction | reflexivity].
  - reflexivity.
  - reflexivity.
Qed.

End StyleFacts.

(** ** The animation registry and the style table together *)

Module RegistryFacts.

Import Animation Styles.

Lemma lower_char_not_A (c : ascii) : Ascii.eqb "A"%char (lower_char c) = false.
Proof.
  destruct c as [[] [] [] [] [] [] [] []]; vm_compute; reflexivity.
Qed.

Lemma lower_not_prefixed (s : string) : startswith prefix (lower s) = false.
Proof.
  destruct s as [| c s]; [reflexivity |].
  change (startswith prefix (lower (String c s)))
    with (Ascii.eqb "A"%char (lower_char c)
          && startswith "NIMATION_" (lower s))%bool.
  rewrite lower_char_not_A. reflexivity.
Qed.

Lemma lookup_tag_not_prefixed (tag : string) :
  startswith prefix (lookup_tag tag) = false.
Proof.
  unfold lookup_tag. destruct (startswith prefix tag) eqn:E.
  - apply lower_not_prefixed.
  - exact E.
Qed.

Lemma eqb_prefixed (k tag : string) :
  startswith prefix k = true -> startswith prefix tag = false ->
  String.eqb k tag = false.
Proof.
  intros Hk Htag. destruct (String.eqb_spec k tag) as [-> | _]; [| reflexivity].
  congruence.
Qed.

(** X2.  The tag under which the registry is consulted never starts
    with ["ANIMATION_"], so the two registry entries whose keys do,
    [ANIMATION_FLOAT_FADE] and [ANIMATION_WOBBLE_POP], are never
    selected: every lookup gives what the first sixteen entries give. *)
Theorem prefixed_registry_entries_are_dead (tag : string) :
  startswith prefix (lookup_tag tag) = false
  /\ lookup_tag tag <> "ANIMATION_FLOAT_FADE"%string
  /\ lookup_tag tag <> "ANIMATION_WOBBLE_POP"%string
  /\ registry_get (lookup_tag tag) ANIMATION_FUNCTION_MAP
     = registry_get (lookup_tag tag) (firstn 16 ANIMATION_FUNCTION_MAP).
Proof.
  pose proof (lookup_tag_not_prefixed tag) as H.
  split; [exact H |]. split; [| split].
  - intros E. rewrite E in H. discriminate.
  - intros E. rewrite E in H. discriminate.
  - change ANIMATION_FUNCTION_MAP
      with (firstn 16 ANIMATION_FUNCTION_MAP
            ++ [("ANIMATION_FLOAT_FADE"%string, animate_simple_fade);
                ("ANIMATION_WOBBLE_POP"%string, animate_wobble_pop)]) at 1.
    generalize (firstn 16 ANIMATION_FUNCTION_MAP). intros reg.
    induction reg as [| [k f] reg IH]; cbn [app registry_get].
    + rewrite !eqb_prefixed by (reflexivity || exact H). reflexivity.
    + destruct (String.eqb k (lookup_tag tag)); [reflexivity | exact IH].
Qed.

Section Clips.

Variable clip : Type.
Variable fadein fadeout : Q -> clip -> clip.
Variable animate : animation -> clip -> Q -> string -> result clip.

(** X3.  A scene generated in the Minimalist Typography or the Glitch
    Core style carries a tag ([ANIMATION_SLIDE_SNAP],
    [ANIMATION_SHATTER_SHIFT]) that the registry does not know under its
    stripped name, so its overlay is the fallback fade whatever the
    animation library does; the tags of the other eight styles are all
    registered. *)
Theorem two_styles_always_get_the_fade {image} (key : string)
    (style : style_profile) (text_clip : clip) (sc : scene image) :
  List.In (key, style) STYLE_PROFILES ->
  s_rendering_data sc = rendering_of style ->
  (key = "minimalist_typography"%string \/ key = "glitch_core"%string ->
   apply_professional_animation clip fadein fadeout animate text_clip sc
   = fadeout (1 # 2) (fadein (1 # 2) text_clip))
  /\ (key <> "minimalist_typography"%string -> key <> "glitch_core"%string ->
      exists f, registry_get (lookup_tag (sp_animation_tag style))
                  ANIMATION_FUNCTION_MAP = Some f).
Proof.
  intros Hin Hrd.
  assert (Htag : tag_of sc = sp_animation_tag style).
  { unfold tag_of. rewrite Hrd. reflexivity. }
  unfold apply_professional_animation. rewrite Htag.
  simpl in Hin.
  repeat (destruct Hin as [Hin | Hin];
          [injection Hin as <- <-;
           split; [intros [E | E]; (discriminate E || reflexivity)
                  | intros N1 N2;
                    (contradiction || (eexists; vm_compute; reflexivity))]
          |]).
  contradiction.
Qed.

End Clips.

Lemma two_styles_always_get_the_fade_witness :
  (("minimalist_typography" = "minimalist_typography" \/
    "minimalist_typography" = "glitch_core")%string ->
   apply_professional_animation term_clip FadeIn FadeOut record_animation
     (TextClip "hello")
     (mkScene (image := unit) 1 "hello" None 0 1 "Minimalist Typography"
        (rendering_of Fixtures.plain_style))
   = FadeOut (1 # 2) (FadeIn (1 # 2) (TextClip "hello")))
  /\ ("minimalist_typography" <> "minimalist_typography" ->
      "minimalist_typography" <> "glitch_core" ->
      exists f, registry_get
                  (lookup_tag (sp_animation_tag Fixtures.plain_style))
                  ANIMATION_FUNCTION_MAP = Some f)%string.
Proof.
  apply (two_styles_always_get_the_fade term_clip FadeIn FadeOut
           record_animation "minimalist_typography" Fixtures.plain_style).
  - right. left. reflexivity.
  - reflexivity.
Defined.

End RegistryFacts.

(** ** Physics animations *)

Module PhysicsFacts.

Import Physics.

Section Clips.

Variable clip : Type.
Variable run_physics : physics_animation -> clip -> result clip.

Lemma catalogue_get_prefixed (tag : string) (f : physics_animation) :
  catalogue_get tag PHYSICS_ANIMATIONS = Some f ->
  startswith "PHYSICS_" tag = true.
Proof.
  unfold PHYSICS_ANIMATIONS. cbn [catalogue_get].
  repeat (match goal with
          | |- context [String.eqb ?k tag] =>
              destruct (String.eqb_spec k tag) as [<- | _];
              [intros _; reflexivity |]
          end).
  discriminate.
Qed.

(** X4.  [apply_physics_animation] has no fallback: for a tag outside
    the catalogue it raises [ValueError] and the clip is never touched.
    Every catalogue key starts with ["PHYSICS_"], so every
    ["ANIMATION_..."] tag, and with it the tag of each of the ten style
    profiles, is rejected. *)
Theorem physics_lookup_rejects_animation_tags (c : clip) (tag : string) :
  (catalogue_get tag PHYSICS_ANIMATIONS = None ->
   apply_physics_animation clip run_physics c tag = Raise ValueError)
  /\ (startswith "ANIMATION_" tag = true ->
      apply_physics_animation clip run_physics c tag = Raise ValueError)
  /\ (forall key style, List.In (key, style) Styles.STYLE_PROFILES ->
      apply_physics_animation clip run_physics c (sp_animation_tag style)
      = Raise ValueError).
Proof.
  assert (Hnone : catalogue_get tag PHYSICS_ANIMATIONS = None ->
                  apply_physics_animation clip run_physics c tag
                  = Raise ValueError).
  { intros H. unfold apply_physics_animation, get_physics_animation.
    rewrite H. reflexivity. }
  split; [exact Hnone |]. split.
  - intros Hanim. apply Hnone.
    destruct (catalogue_get tag PHYSICS_ANIMATIONS) as [f |] eqn:E;
      [| reflexivity].
    apply catalogue_get_prefixed in E.
    destruct tag as [| a tag]; [discriminate |].
    change (Ascii.eqb "A"%char a && startswith "NIMATION_" tag = true)%bool
      in Hanim.
    change (Ascii.eqb "P"%char a && startswith "HYSICS_" tag = true)%bool in E.
    apply andb_true_iff in Hanim as [Ha _]. apply andb_true_iff in E as [Hp _].
    apply Ascii.eqb_eq in Ha, Hp. congruence.
  - intros key style Hin. simpl in Hin.
    repeat (destruct Hin as [Hin | Hin]; [injection Hin as <- <-; reflexivity |]).
    contradiction.
Qed.

End Clips.
End PhysicsFacts.

(** ** Batched encoding *)

Module EncodingFacts.

Import Encoding.

Section Batches.

Variable clip : Type.
Variable world : Type.
Variable write_batch : list clip -> string -> world -> result unit * world.

Lemma range_from_chunks (l : list clip) (step : nat) :
  (1 <= step)%nat ->
  forall count i : nat,
    (List.length l <= count + i)%nat ->
    List.concat (map (fun j => slice clip l j step)
                   (range_from count i (List.length l) step))
    = skipn i l.
Proof.
  intros Hstep. induction count as [| count IH]; intros i Hlen; simpl.
  - symmetry. apply List.skipn_all2. lia.
  - destruct (Nat.ltb_spec i (List.length l)) as [Hlt | Hge]; simpl.
    + rewrite IH by lia. unfold slice.
      replace (i + step)%nat with (step + i)%nat by lia.
      rewrite <- List.skipn_skipn. apply List.firstn_skipn.
    + symmetry. apply List.skipn_all2. exact Hge.
Qed.

Lemma range_from_multiples (n step : nat) :
  forall count a : nat,
    range_from count (a * step) n step
    = map (fun k => (k * step)%nat)
        (List.seq a (List.length (range_from count (a * step) n step))).
Proof.
  induction count as [| count IH]; intros a; simpl; [reflexivity |].
  destruct (a * step <? n)%nat; simpl; [| reflexivity].
  f_equal. replace (a * step + step)%nat with (S a * step)%nat by lia.
  apply IH.
Qed.

Lemma range_from_below (n step : nat) :
  forall count i : nat,
    List.Forall (fun j => (j < n)%nat) (range_from count i n step).
Proof.
  induction count as [| count IH]; intros i; simpl; [constructor |].
  destruct (Nat.ltb_spec i n); [| constructor].
  constructor; [assumption | apply IH].
Qed.

Lemma slice_length (l : list clip) (j step : nat) :
  List.length (slice clip l j step) = Nat.min step (List.length l - j).
Proof. unfold slice. rewrite List.length_firstn, List.length_skipn. reflexivity. Qed.

Lemma concat_length_bound (batches : list (list clip)) (bound : nat) :
  List.Forall (fun batch => (List.length batch <= bound)%nat) batches ->
  (List.length (List.concat batches) <= List.length batches * bound)%nat.
Proof.
  induction 1 as [| b bs Hb _ IH]; simpl; [lia |].
  rewrite List.length_app. lia.
Qed.

Lemma batch_plan_batches_nonempty (clips : list clip)
    (output_pattern : string) (batch_size : nat) :
  (1 <= batch_size)%nat ->
  List.Forall (fun batch => (1 <= List.length batch)%nat)
    (map snd (batch_plan clip clips output_pattern batch_size)).
Proof.
  intros Hbs. unfold batch_plan. rewrite List.map_map. simpl.
  apply List.Forall_map. eapply List.Forall_impl; [| apply range_from_below].
  intros j Hj. simpl in Hj. rewrite slice_length. lia.
Qed.

(** X5.  For a batch size of at least one, the batches that
    [batch_encode_clips] visits are the clip list cut into consecutive
    pieces: concatenated in order they give back the list, every batch
    holds between 1 and [batch_size] clips, the k-th batch (counted
    from 0) is written to [<pattern>_batch_<k>.mp4], and the number of
    batches is the least that covers the list. *)
Theorem batch_plan_partitions_clips (clips : list clip)
    (output_pattern : string) (batch_size : nat) :
  (1 <= batch_size)%nat ->
  let plan := batch_plan clip clips output_pattern batch_size in
  List.concat (map snd plan) = clips
  /\ List.Forall (fun batch => (1 <= List.length batch <= batch_size)%nat)
       (map snd plan)
  /\ map fst plan
     = map (fun k => output_pattern +:+ "_batch_" +:+ pretty (Z.of_nat k)
                       +:+ ".mp4")
         (List.seq 0 (List.length plan))
  /\ (List.length clips <= List.length plan * batch_size)%nat
  /\ (forall m, List.length plan = S m ->
      (m * batch_size < List.length clips)%nat).
Proof.
  intros Hbs plan. unfold plan, batch_plan.
  set (r := range_from (List.length clips) 0 (List.length clips) batch_size).
  assert (Hmul : r = map (fun k => (k * batch_size)%nat)
                       (List.seq 0 (List.length r))).
  { apply (range_from_multiples (List.length clips) batch_size
             (List.length clips) 0). }
  assert (Hbelow : List.Forall (fun j => (j < List.length clips)%nat) r).
  { apply range_from_below. }
  assert (Hcat : List.concat (map (fun j => slice clip clips j batch_size) r)
                 = clips).
  { unfold r. rewrite range_from_chunks; [reflexivity | exact Hbs | lia]. }
  assert (Hsizes : List.Forall
                     (fun batch => (1 <= List.length batch <= batch_size)%nat)
                     (map (fun j => slice clip clips j batch_size) r)).
  { apply List.Forall_map. eapply List.Forall_impl; [| exact Hbelow].
    intros j Hj. simpl in Hj. rewrite slice_length. lia. }
  rewrite !List.map_map, List.length_map. simpl.
  split; [exact Hcat |]. split; [exact Hsizes |]. split; [| split].
  - rewrite Hmul at 1. rewrite List.map_map. apply List.map_ext.
    intros k. rewrite Nat.div_mul by lia. reflexivity.
  - rewrite <- Hcat at 1.
    rewrite <- (List.length_map (fun j => slice clip clips j batch_size) r).
    apply concat_length_bound. eapply List.Forall_impl; [| exact Hsizes].
    simpl. intros; lia.
  - intros m Hm.
    assert (Hin : List.In (m * batch_size)%nat r).
    { rewrite Hmul. apply List.in_map_iff. exists m. split; [reflexivity |].
      apply List.in_seq. lia. }
    exact (proj1 (List.Forall_forall _ _) Hbelow _ Hin).
Qed.

Lemma encode_plan_all_written (plan : list (string * list clip)) :
  (forall batch path w0, exists w1, write_batch batch path w0 = (Ok tt, w1)) ->
  List.Forall (fun batch => (1 <= List.length batch)%nat) (map snd plan) ->
  forall (output_paths : list string) (w : world),
  exists w',
    encode_plan clip world write_batch plan output_paths w
    = (Ok (output_paths ++ map fst plan), w').
Proof.
  intros Hwrite. induction plan as [| [path batch] plan IH];
    intros Hne output_paths w; simpl.
  - exists w. rewrite List.app_nil_r. reflexivity.
  - inversion Hne as [| ? ? Hb Hrest]; subst. simpl in Hb.
    destruct batch as [| c batch]; [simpl in Hb; lia |].
    destruct (Hwrite (c :: batch) path w) as [w1 ->].
    destruct (IH Hrest (output_paths ++ [path]) w1) as [w' ->].
    exists w'. rewrite <- List.app_assoc. reflexivity.
Qed.

(** X6.  [batch_encode_clips] with a batch size of 0 raises
    [ValueError] before anything is encoded; with a negative batch size
    it encodes nothing and returns the empty list; with a positive one,
    when every write succeeds, it returns one path per batch of the
    plan, in order. *)
Theorem batch_encode_clips_by_batch_size (clips : list clip)
    (output_pattern : string) (batch_size : Z) (w : world) :
  (forall batch path w0, exists w1, write_batch batch path w0 = (Ok tt, w1)) ->
  (batch_size = 0 ->
   batch_encode_clips clip world write_batch clips output_pattern batch_size w
   = (Raise ValueError, w))
  /\ (batch_size < 0 ->
      batch_encode_clips clip world write_batch clips output_pattern
        batch_size w = (Ok [], w))
  /\ (0 < batch_size ->
      exists w',
        batch_encode_clips clip world write_batch clips output_pattern
          batch_size w
        = (Ok (map fst (batch_plan clip clips output_pattern
                          (Z.to_nat batch_size))), w')).
Proof.
  intros Hwrite. unfold batch_encode_clips. split; [| split].
  - intros ->. reflexivity.
  - intros Hneg. destruct (Z.eqb_spec batch_size 0); [lia |].
    destruct (Z.ltb_spec batch_size 0); [reflexivity | lia].
  - intros Hpos. destruct (Z.eqb_spec batch_size 0); [lia |].
    destruct (Z.ltb_spec batch_size 0); [lia |].
    apply (encode_plan_all_written _ Hwrite) with (output_paths := []) (w := w).
    apply batch_plan_batches_nonempty. lia.
Qed.

End Batches.

Lemma batch_plan_partitions_clips_witness :
  let plan := batch_plan nat [10; 11; 12; 13; 14; 15; 16]%nat "out" 3 in
  List.concat (map snd plan) = [10; 11; 12; 13; 14; 15; 16]%nat
  /\ List.Forall (fun batch => (1 <= List.length batch <= 3)%nat) (map snd plan)
  /\ map fst plan
     = map (fun k => "out" +:+ "_batch_" +:+ pretty (Z.of_nat k) +:+ ".mp4")
         (List.seq 0 (List.length plan))
  /\ (List.length [10; 11; 12; 13; 14; 15; 16]%nat
      <= List.length plan * 3)%nat
  /\ (forall m, List.length plan = S m ->
      (m * 3 < List.length [10; 11; 12; 13; 14; 15; 16]%nat)%nat).
Proof.
  apply (batch_plan_partitions_clips nat [10; 11; 12; 13; 14; 15; 16]%nat
           "out" 3).
  lia.
Defined.

Lemma batch_encode_clips_by_batch_size_witness :
  (5 = 0 ->
   batch_encode_clips nat unit (fun _ _ w => (Ok tt, w))
     [10; 11; 12; 13; 14; 15; 16]%nat "out" 5 tt = (Raise ValueError, tt))
  /\ (5 < 0 ->
      batch_encode_clips nat unit (fun _ _ w => (Ok tt, w))
        [10; 11; 12; 13; 14; 15; 16]%nat "out" 5 tt = (Ok [], tt))
  /\ (0 < 5 ->
      exists w',
        batch_encode_clips nat unit (fun _ _ w => (Ok tt, w))
          [10; 11; 12; 13; 14; 15; 16]%nat "out" 5 tt
        = (Ok (map fst (batch_plan nat [10; 11; 12; 13; 14; 15; 16]%nat "out"
                          (Z.to_nat 5))), w')).
Proof.
  apply (batch_encode_clips_by_batch_size nat unit (fun _ _ w => (Ok tt, w))
           [10; 11; 12; 13; 14; 15; 16]%nat "out" 5 tt).
  intros batch path w0. exists w0. reflexivity.
Defined.

End EncodingFacts.

(** ** Background generation *)

Module BackgroundFacts.

Import Background.

Section Backends.

Variable image : Type.
Variable world : Type.
Variable text_to_image : string -> world -> result image * world.
Variable choice : world -> bool * world.
Variable seed_of : string -> Z.
Variable draw : family -> lyric -> Z -> world -> result image * world.

Local Abbreviation procedural :=
  (generate_procedural_fallback_background image world seed_of draw).
Local Abbreviation fallback_in_try :=
  (fallback_in_try image world seed_of draw).
Local Abbreviation styled :=
  (generate_styled_background image world text_to_image choice seed_of draw).

Lemma fallback_in_try_raises (l : lyric) (style : style_profile) (w w' : world)
    (e : exn) :
  fallback_in_try l style w = (Raise e, w') ->
  exists e1 w1, procedural l style w = (Raise e1, w1)
    /\ procedural l style w1 = (Raise e, w').
Proof.
  unfold Background.fallback_in_try.
  destruct (procedural l style w) as [[img | e1] w1] eqn:E1; [discriminate |].
  intros E2. exists e1, w1. split; [reflexivity | exact E2].
Qed.

Lemma fallback_in_try_total (l : lyric) (style : style_profile) (w : world) :
  (forall w0, exists img w1, procedural l style w0 = (Ok img, w1)) ->
  exists img w', fallback_in_try l style w = (Ok img, w').
Proof.
  intros Htotal. unfold Background.fallback_in_try.
  destruct (Htotal w) as (img & w1 & ->). exists img, w1. reflexivity.
Qed.

(** X7.  [generate_styled_background] raises only if the procedural
    fallback raised twice in a row: once in the [try] and once more in
    the outer [except]; the exception raised is that of the second
    call.  If the procedural generator never raises, neither does
    [generate_styled_background], whatever the AI client does. *)
Theorem styled_background_fails_only_with_the_fallback (hf_token : option string)
    (hf_available : bool) (l : lyric) (style : style_profile) (w : world) :
  (forall e w', styled hf_token hf_available l style w = (Raise e, w') ->
     exists e1 w1 w2,
       procedural l style w1 = (Raise e1, w2)
       /\ procedural l style w2 = (Raise e, w'))
  /\ ((forall w0, exists img w1, procedural l style w0 = (Ok img, w1)) ->
      exists img w', styled hf_token hf_available l style w = (Ok img, w')).
Proof.
  unfold Background.generate_styled_background.
  destruct (choice w) as [second w1]. split.
  - intros e w' H.
    destruct (truthy_env hf_token && hf_available)%bool.
    + destruct (text_to_image _ w1) as [[img | e0] w2]; [discriminate |].
      destruct (fallback_in_try_raises _ _ _ _ _ H) as (e1 & w3 & H1 & H2).
      exists e1, w2, w3. split; assumption.
    + destruct (fallback_in_try_raises _ _ _ _ _ H) as (e1 & w3 & H1 & H2).
      exists e1, w1, w3. split; assumption.
  - intros Htotal.
    destruct (truthy_env hf_token && hf_available)%bool.
    + destruct (text_to_image _ w1) as [[img | e0] w2].
      * exists img, w2. reflexivity.
      * apply fallback_in_try_total, Htotal.
    + apply fallback_in_try_total, Htotal.
Qed.

End Backends.

Section Clients.

Variable image : Type.
Variable world : Type.
Variable choice : world -> bool * world.
Variable seed_of : string -> Z.
Variable draw : family -> lyric -> Z -> world -> result image * world.

(** X8.  Without [HF_TOKEN], or without the client library, the AI
    client is never consulted: two clients give the same result.  With
    both present and a client that answers, the style profile plays no
    part: the prompt is built from the lyric text and mood alone, so
    any two styles give the same background; and the answer of the
    client to that prompt is what is returned. *)
Theorem styled_background_use_of_the_client (hf_token : option string)
    (hf_available : bool) (l : lyric) (w : world)
    (client client' : string -> world -> result image * world)
    (style style' : style_profile) :
  (truthy_env hf_token && hf_available = false ->
   generate_styled_background image world client choice seed_of draw
     hf_token hf_available l style w
   = generate_styled_background image world client' choice seed_of draw
       hf_token hf_available l style w)
  /\ (truthy_env hf_token && hf_available = true ->
      (forall p w0, exists img w1, client p w0 = (Ok img, w1)) ->
      generate_styled_background image world client choice seed_of draw
        hf_token hf_available l style w
      = generate_styled_background image world client choice seed_of draw
          hf_token hf_available l style' w)%bool
  /\ (truthy_env hf_token && hf_available = true ->
      forall (second : bool) (w1 w2 : world) (img : image),
        choice w = (second, w1) ->
        client (if second then prompt_without_text (get_mood l)
                else prompt_with_text (get_text l) (get_mood l)) w1
        = (Ok img, w2) ->
        generate_styled_background image world client choice seed_of draw
          hf_token hf_available l style w = (Ok img, w2))%bool.
Proof.
  unfold generate_styled_background. split; [| split]; intros Hcfg.
  - destruct (choice w) as [second w1]. rewrite Hcfg. reflexivity.
  - intros Hanswers. destruct (choice w) as [second w1]. rewrite Hcfg.
    destruct (Hanswers (if second then prompt_without_text (get_mood l)
                        else prompt_with_text (get_text l) (get_mood l)) w1)
      as (img & w2 & ->).
    reflexivity.
  - intros second w1 w2 img Hchoice Hanswer.
    rewrite Hchoice, Hcfg, Hanswer. reflexivity.
Qed.

End Clients.

(** X9.  Of the ten style profiles only Minimalist Typography is drawn
    by the minimalist generator; the procedural fallback of every other
    style is the dreamy-ethereal generator.  In general a style gets
    the minimalist generator exactly when its lower-cased name contains
    ["minimal"] and not ["dreamy"]. *)
Theorem procedural_family_of_each_style (style : style_profile) :
  (family_of style = minimalist_varied <->
   Styles.contains_str "minimal" (lower (sp_name style)) = true
   /\ Styles.contains_str "dreamy" (lower (sp_name style)) = false)
  /\ (forall key, List.In (key, style) Styles.STYLE_PROFILES ->
      (family_of style = minimalist_varied
       <-> key = "minimalist_typography"%string)).
Proof.
  split.
  - unfold family_of.
    destruct (Styles.contains_str "dreamy" (lower (sp_name style)));
      destruct (Styles.contains_str "minimal" (lower (sp_name style)));
      try destruct (Styles.contains_str "cosmic" (lower (sp_name style)));
      split; (discriminate || tauto || (intros [? ?]; discriminate)
              || reflexivity).
  - intros key Hin. simpl in Hin.
    repeat (destruct Hin as [Hin | Hin];
            [injection Hin as <- <-; split; intros H;
             (reflexivity || discriminate H)
            |]).
    contradiction.
Qed.

End BackgroundFacts.

(** ** The response of the upload *)

Module UploadResponseFacts.

Import Upload.

Section Uploader.

Variable uploader_upload : upload_request -> result upload_result.
Variable video_duration : string -> result Q.
Variable str_exn : exn -> string.

(** X10.  With the three credentials set and an upload that returns, the
    response of Cloudinary is handed back as it is when it holds a
    [secure_url]; a response without one makes the log line raise
    [KeyError] inside the [try], and the caller gets the local fallback
    with that error recorded. *)
Theorem upload_response_needs_secure_url (video_path : string) (data : job)
    (env : environ) (now : Z) (response : upload_result) :
  credentials env = true ->
  uploader_upload (plain_request video_path data now) = Ok response ->
  (forall url, secure_url response = Some url ->
     upload_to_cloudinary uploader_upload video_duration str_exn
       video_path data env now = Ok response)
  /\ (secure_url response = None ->
      upload_to_cloudinary uploader_upload video_duration str_exn
        video_path data env now
      = Ok (local_fallback str_exn video_path now KeyError)).
Proof.
  intros Hcred Hup. unfold upload_to_cloudinary, upload_and_log.
  rewrite Hcred, Hup. simpl. split.
  - intros url ->. reflexivity.
  - intros ->. reflexivity.
Qed.

End Uploader.

Import Fixtures Samples.

Lemma upload_response_needs_secure_url_witness :
  (forall url, secure_url hosted = Some url ->
     upload_to_cloudinary accepting_uploader unknown_duration exn_text
       "/tmp/tmpab12/output.mp4" (payload four_lines) configured_environ
       1700000000 = Ok hosted)
  /\ (secure_url hosted = None ->
      upload_to_cloudinary accepting_uploader unknown_duration exn_text
        "/tmp/tmpab12/output.mp4" (payload four_lines) configured_environ
        1700000000
      = Ok (local_fallback exn_text "/tmp/tmpab12/output.mp4" 1700000000
              KeyError)).
Proof.
  apply (upload_response_needs_secure_url accepting_uploader unknown_duration
           exn_text "/tmp/tmpab12/output.mp4" (payload four_lines)
           configured_environ 1700000000 hosted).
  - reflexivity.
  - reflexivity.
Defined.

End UploadResponseFacts.

(** ** Signed URLs *)

Module SignedUrlFacts.

Import StorageLifecycleManager SignedUrl Upload.

Section Rewrite.

Variable with_expires : string -> Z -> result string.
Variable uploader_upload : upload_request -> result upload_result.
Variable video_duration : string -> result Q.
Variable str_exn : exn -> string.

Lemma generate_signed_url_plain (asset_url : string) (expiry_hours : Z)
    (storage_type : string) (now : Z) (m : manager) :
  storage_type <> "cloudinary"%string \/ cloudinary_available m = false ->
  generate_signed_url with_expires asset_url expiry_hours storage_type now m
  = asset_url.
Proof.
  intros H. unfold generate_signed_url, signed_url_body.
  assert (Hc : (String.eqb storage_type "cloudinary"
                && cloudinary_available m)%bool = false).
  { destruct H as [H | H].
    - destruct (String.eqb_spec storage_type "cloudinary"); [contradiction |].
      reflexivity.
    - rewrite H. apply andb_false_r. }
  rewrite Hc. destruct (String.eqb storage_type "s3").
  - unfold get_s3_available. destruct (s3_available m) as [[|] |]; reflexivity.
  - reflexivity.
Qed.

(** X11.  [generate_signed_url] returns the asset URL unchanged for every
    storage type other than ["cloudinary"] (["s3"] included, whatever
    the state of the manager) and whenever Cloudinary is not
    configured; otherwise it returns the URL with its [_expires]
    parameter set to [now + 3600 * expiry_hours], or the asset URL if
    that rewriting raises.  In particular, when a credential is missing
    the download URL that [OptimizedVideoPipeline] builds for the result
    of [_upload_with_lifecycle] is the [file://] reference itself. *)
Theorem signed_url_only_for_configured_cloudinary (asset_url : string)
    (expiry_hours : Z) (storage_type : string) (now : Z) (m : manager)
    (video_path : string) (data : job) (env : environ) (expires_at : string) :
  (storage_type <> "cloudinary"%string \/ cloudinary_available m = false ->
   generate_signed_url with_expires asset_url expiry_hours storage_type now m
   = asset_url)
  /\ (cloudinary_available m = true ->
      generate_signed_url with_expires asset_url expiry_hours "cloudinary"
        now m
      = match with_expires asset_url (now + expiry_hours * 3600) with
        | Ok signed => signed
        | Raise _ => asset_url
        end)
  /\ (credentials env = false ->
      exists r url,
        _upload_with_lifecycle uploader_upload video_duration str_exn
          video_path data env now expires_at = Ok r
        /\ secure_url r = Some url
        /\ generate_signed_url with_expires url 24 "cloudinary" now
             (__init__ "cloudinary" (credentials env))
           = ("file://" +:+ video_path)).
Proof.
  split; [apply generate_signed_url_plain |]. split.
  - intros Hc. unfold generate_signed_url, signed_url_body. simpl.
    rewrite Hc. reflexivity.
  - intros Hcred. unfold _upload_with_lifecycle. rewrite Hcred. simpl.
    eexists _, _. split; [reflexivity |]. split; [reflexivity |].
    apply generate_signed_url_plain. right. reflexivity.
Qed.

End Rewrite.
End SignedUrlFacts.

(** ** The task *)

Module JobFacts.

Import Job.

Section Task.

Variable rnd : Q -> Q.
Variable image : Type.
Variable grey8x8 : image -> result (list Z).
Variable world : Type.
Variable generate_styled_background :
  lyric -> style_profile -> world -> result image * world.
Variable render :
  list (scene image) -> job -> style_profile -> world -> result string * world.
Variable uploader_upload : Upload.upload_request -> result Upload.upload_result.
Variable video_duration : string -> result Q.
Variable str_exn : exn -> string.
Variable requests_available : bool.

Local Abbreviation state := (state image world).
Local Abbreviation task_body :=
  (task_body rnd image grey8x8 world generate_styled_background render
     uploader_upload video_duration str_exn requests_available).
Local Abbreviation generate_lyric_video_pro :=
  (generate_lyric_video_pro rnd image grey8x8 world generate_styled_background
     render uploader_upload video_duration str_exn requests_available).
Local Abbreviation post := (post image world requests_available).
Local Abbreviation generate_styled_scenes :=
  (Scenes.generate_styled_scenes rnd image grey8x8 world
     generate_styled_background).

Lemma progress_values_progress (posted : list notification) (p : Z)
    (message : string) :
  progress_values (posted ++ [Progress p message])
  = progress_values posted ++ [p].
Proof. unfold progress_values. rewrite List.flat_map_app. reflexivity. Qed.

Lemma progress_values_failed (posted : list notification) (e : exn) :
  progress_values (posted ++ [Failed e]) = progress_values posted.
Proof.
  unfold progress_values. rewrite List.flat_map_app. apply List.app_nil_r.
Qed.

Lemma progress_values_completed (posted : list notification)
    (url pid : string) (n : nat) :
  progress_values (posted ++ [Completed url pid n]) = progress_values posted.
Proof.
  unfold progress_values. rewrite List.flat_map_app. apply List.app_nil_r.
Qed.

Lemma final_posts_progress (posted : list notification) (p : Z)
    (message : string) :
  final_posts (posted ++ [Progress p message]) = final_posts posted.
Proof. unfold final_posts. rewrite List.filter_app. apply List.app_nil_r. Qed.

Lemma final_posts_final (posted : list notification) (n : notification) :
  (forall p message, n <> Progress p message) ->
  final_posts (posted ++ [n]) = final_posts posted ++ [n].
Proof.
  intros Hn. unfold final_posts. rewrite List.filter_app. simpl.
  destruct n; [exfalso; eapply Hn; reflexivity | reflexivity | reflexivity].
Qed.

(** X12.  A payload without [lyrics] or without [songTitle] makes the
    task raise [ValueError] before anything else happens: no background
    is generated, the cache is untouched, no progress is reported, and
    the only post is the failure report, when a webhook is given. *)
Theorem invalid_payload_fails_before_any_work (rq : request)
    (env : Upload.environ) (now : Z) (task_id : string) (s : state) :
  d_lyrics (rq_data rq) = None \/ d_songTitle (rq_data rq) = None ->
  generate_lyric_video_pro rq env now task_id s
  = (Raise ValueError,
     if truthy (rq_webhook_url rq) then post rq (Failed ValueError) s else s)
  /\ (forall s', snd (generate_lyric_video_pro rq env now task_id s) = s' ->
      t_world _ _ s' = t_world _ _ s /\ t_cache _ _ s' = t_cache _ _ s
      /\ progress_values (t_posted _ _ s') = progress_values (t_posted _ _ s)).
Proof.
  intros Hmissing.
  assert (Hv : validate_input_data (rq_data rq) = Raise ValueError).
  { unfold validate_input_data.
    destruct Hmissing as [-> | ->]; [reflexivity |].
    destruct (d_lyrics (rq_data rq)); reflexivity. }
  assert (E : generate_lyric_video_pro rq env now task_id s
              = (Raise ValueError,
                 if truthy (rq_webhook_url rq)
                 then post rq (Failed ValueError) s else s)).
  { unfold Job.generate_lyric_video_pro, Job.task_body. rewrite Hv.
    reflexivity. }
  split; [exact E |].
  intros s' <-. rewrite E. simpl.
  unfold Job.post.
  destruct (truthy (rq_webhook_url rq)); simpl; [| auto].
  destruct requests_available; simpl; [| auto].
  split; [reflexivity |]. split; [reflexivity |].
  apply progress_values_failed.
Qed.

(** X13.  A payload that passes validation but yields no scene (an empty
    [lyrics] list, or lyrics that all fail) makes the task raise
    [ValueError] from [create_professional_video]: nothing is rendered
    or uploaded, and the state is the one scene generation left,
    plus the posts. *)
Theorem no_scene_fails_the_task (rq : request) (env : Upload.environ)
    (now : Z) (task_id : string) (s : state) (q : Scenes.seq_state image world) :
  validate_input_data (rq_data rq) = Ok tt ->
  generate_styled_scenes (rq_data rq)
    (Styles.select_style_profile (rq_style rq)) (t_world _ _ s) (t_cache _ _ s)
  = (Ok [], q) ->
  exists s',
    generate_lyric_video_pro rq env now task_id s = (Raise ValueError, s')
    /\ t_world _ _ s' = Scenes.q_world _ _ q
    /\ t_cache _ _ s' = Scenes.q_cache _ _ q
    /\ (truthy (rq_webhook_url rq) && requests_available = true ->
        progress_values (t_posted _ _ s')
        = progress_values (t_posted _ _ s) ++ [5; 15; 40])%bool.
Proof.
  intros Hv Hgen.
  unfold Job.generate_lyric_video_pro, Job.task_body. rewrite Hv.
  unfold Job.send_progress_update, Job.post.
  destruct (truthy (rq_webhook_url rq)) eqn:Hhook;
    destruct requests_available eqn:Hreq; simpl;
    rewrite Hgen; simpl; eexists; (split; [reflexivity |]); simpl;
    (split; [reflexivity |]); (split; [reflexivity |]);
    intros H; try discriminate H.
  rewrite progress_values_failed, !progress_values_progress.
  rewrite <- !List.app_assoc. reflexivity.
Qed.

(** X14.  With a webhook and the [requests] library, every run of the
    task ends with exactly one final post, and it agrees with the
    result: [Completed], carrying the returned URL, id and scene count,
    when the task returns, and [Failed], carrying the exception, when
    it raises.  The progress values posted are an initial part of
    5, 15, 40, 70, 100, complete when the task returns. *)
Theorem one_final_post_per_run (rq : request) (env : Upload.environ)
    (now : Z) (task_id : string) (s : state) :
  (truthy (rq_webhook_url rq) && requests_available = true)%bool ->
  exists (added : list notification) (k : nat),
    t_posted _ _ (snd (generate_lyric_video_pro rq env now task_id s))
    = t_posted _ _ s ++ added
    /\ progress_values added = firstn k [5; 15; 40; 70; 100]
    /\ match fst (generate_lyric_video_pro rq env now task_id s) with
       | Ok o =>
           k = 5%nat
           /\ final_posts added
              = [Completed (o_video_url o) (o_public_id o) (o_scenes o)]
       | Raise e => final_posts added = [Failed e]
       end.
Proof.
  intros Hhook. apply andb_true_iff in Hhook as [Hurl Hreq].
  unfold Job.generate_lyric_video_pro, Job.task_body,
    Job.send_progress_update, Job.post.
  rewrite Hurl, Hreq. simpl.
  destruct (validate_input_data (rq_data rq)) as [[] | e0]; simpl.
  2: { exists [Failed e0], 0%nat. repeat split. }
  destruct (Scenes.generate_styled_scenes _ _ _ _ _ _ _ _ _)
    as [[scenes | e1] q]; simpl.
  2: { eexists _, 2%nat. split; [rewrite <- !List.app_assoc; reflexivity |].
       split; reflexivity. }
  destruct scenes as [| sc scenes]; simpl.
  { eexists _, 3%nat. split; [rewrite <- !List.app_assoc; reflexivity |].
    split; reflexivity. }
  destruct (render _ _ _ _) as [[video_path | e2] w]; simpl.
  2: { eexists _, 3%nat. split; [rewrite <- !List.app_assoc; reflexivity |].
       split; reflexivity. }
  destruct (Upload.upload_to_cloudinary _ _ _ _ _ _ _) as [up | e3]; simpl.
  2: { eexists _, 4%nat. split; [rewrite <- !List.app_assoc; reflexivity |].
       split; reflexivity. }
  destruct (Upload.read_back up) as [[url pid] | e4]; simpl.
  - eexists _, 5%nat. split; [rewrite <- !List.app_assoc; reflexivity |].
    split; [reflexivity |]. split; reflexivity.
  - eexists _, 5%nat. split; [rewrite <- !List.app_assoc; reflexivity |].
    split; reflexivity.
Qed.

(** X15.  Once the video is rendered, a missing credential or a failing
    upload does not fail the task: it returns, and the result names the
    rendered file as [file://<path>] and counts the scenes that were
    generated. *)
Theorem task_returns_when_upload_falls_back (rq : request)
    (env : Upload.environ) (now : Z) (task_id : string) (s : state)
    (scenes : list (scene image)) (q : Scenes.seq_state image world)
    (video_path : string) (w : world) :
  validate_input_data (rq_data rq) = Ok tt ->
  generate_styled_scenes (rq_data rq)
    (Styles.select_style_profile (rq_style rq)) (t_world _ _ s) (t_cache _ _ s)
  = (Ok scenes, q) ->
  scenes <> [] ->
  render scenes (rq_data rq) (Styles.select_style_profile (rq_style rq))
    (Scenes.q_world _ _ q) = (Ok video_path, w) ->
  Upload.credentials env = false
  \/ (exists e, uploader_upload
                  (Upload.plain_request video_path (rq_data rq) now)
                = Raise e) ->
  exists o s',
    generate_lyric_video_pro rq env now task_id s = (Ok o, s')
    /\ o_video_url o = ("file://" +:+ video_path)
    /\ o_scenes o = List.length scenes
    /\ o_format o = "mp4"%string
    /\ t_world _ _ s' = w.
Proof.
  intros Hv Hgen Hne Hrender Hupload.
  assert (Hup : exists r,
            Upload.upload_to_cloudinary uploader_upload video_duration
              str_exn video_path (rq_data rq) env now = Ok r
            /\ Upload.secure_url r = Some ("file://" +:+ video_path)
            /\ (exists pid, Upload.public_id r = Some pid)
            /\ Upload.format r = Some "mp4"%string).
  { unfold Upload.upload_to_cloudinary.
    destruct (Upload.credentials env) eqn:Hc; simpl.
    - destruct Hupload as [Hcred | [e He]]; [discriminate |].
      unfold Upload.upload_and_log. rewrite He. simpl.
      eexists. split; [reflexivity |]. simpl. eauto.
    - eexists. split; [reflexivity |]. simpl. eauto. }
  destruct Hup as (r & Hr & Hurl & [pid Hpid] & Hfmt).
  unfold Job.generate_lyric_video_pro, Job.task_body,
    Job.send_progress_update, Job.post.
  rewrite Hv.
  destruct (truthy (rq_webhook_url rq)); destruct requests_available; simpl;
    rewrite Hgen; simpl;
    (destruct scenes as [| sc rest]; [contradiction |]); simpl;
    rewrite Hrender; simpl; rewrite Hr; simpl;
    unfold Upload.read_back; rewrite Hurl, Hpid; simpl;
    eexists _, _; (split; [reflexivity |]); simpl; rewrite ?Hfmt; auto.
Qed.

End Task.

Import Fixtures Samples.

Lemma invalid_payload_fails_before_any_work_witness :
  generate_lyric_video_pro Duration.exact grid decoded unit by_text
    fixed_render refusing_uploader unknown_duration exn_text true
    (without_title four_lines) configured_environ 1700000000 "task-1"
    (mkState grid unit tt [] [])
  = (Raise ValueError,
     mkState grid unit tt [] [Failed ValueError]).
Proof.
  apply (invalid_payload_fails_before_any_work Duration.exact grid decoded
           unit by_text fixed_render refusing_uploader unknown_duration
           exn_text true (without_title four_lines) configured_environ
           1700000000 "task-1" (mkState grid unit tt [] [])).
  right. reflexivity.
Defined.

Lemma no_scene_fails_the_task_witness :
  exists s',
    generate_lyric_video_pro Duration.exact grid decoded unit by_text
      fixed_render refusing_uploader unknown_duration exn_text true
      (with_hook []) configured_environ 1700000000 "task-1"
      (mkState grid unit tt [] [])
    = (Raise ValueError, s')
    /\ t_world _ _ s' = tt
    /\ t_cache _ _ s' = []
    /\ ((true && true)%bool = true ->
        progress_values (t_posted _ _ s') = [] ++ [5; 15; 40]).
Proof.
  apply (no_scene_fails_the_task Duration.exact grid decoded unit by_text
           fixed_render refusing_uploader unknown_duration exn_text true
           (with_hook []) configured_environ 1700000000 "task-1"
           (mkState grid unit tt [] [])
           (Scenes.mkSeq grid unit tt [] [])).
  - reflexivity.
  - reflexivity.
Defined.

Lemma one_final_post_per_run_witness :
  exists (added : list notification) (k : nat),
    t_posted _ _
      (snd (generate_lyric_video_pro Duration.exact grid decoded unit by_text
              fixed_render refusing_uploader unknown_duration exn_text true
              (with_hook four_lines) configured_environ 1700000000 "task-1"
              (mkState grid unit tt [] [])))
    = [] ++ added
    /\ progress_values added = firstn k [5; 15; 40; 70; 100]
    /\ match fst (generate_lyric_video_pro Duration.exact grid decoded unit
                    by_text fixed_render refusing_uploader unknown_duration
                    exn_text true (with_hook four_lines) configured_environ
                    1700000000 "task-1" (mkState grid unit tt [] [])) with
       | Ok o =>
           k = 5%nat
           /\ final_posts added
              = [Completed (o_video_url o) (o_public_id o) (o_scenes o)]
       | Raise e => final_posts added = [Failed e]
       end.
Proof.
  apply (one_final_post_per_run Duration.exact grid decoded unit by_text
           fixed_render refusing_uploader unknown_duration exn_text true
           (with_hook four_lines) configured_environ 1700000000 "task-1"
           (mkState grid unit tt [] [])).
  reflexivity.
Defined.

Lemma task_returns_when_upload_falls_back_witness :
  exists o s',
    generate_lyric_video_pro Duration.exact grid decoded unit by_text
      fixed_render refusing_uploader unknown_duration exn_text true
      (with_hook four_lines) configured_environ 1700000000 "task-1"
      (mkState grid unit tt [] [])
    = (Ok o, s')
    /\ o_video_url o = "file:///tmp/tmpab12/output.mp4"%string
    /\ o_scenes o = 4%nat
    /\ o_format o = "mp4"%string
    /\ t_world _ _ s' = tt.
Proof.
  destruct (Scenes.generate_styled_scenes Duration.exact grid decoded unit
              by_text (payload four_lines)
              (Styles.select_style_profile (Some "minimalist"%string)) tt [])
    as [r q] eqn:E.
  assert (Hr : exists scenes, r = Ok scenes /\ List.length scenes = 4%nat
                              /\ scenes <> []).
  { vm_compute in E. injection E as <- _. eexists. split; [reflexivity |].
    split; [reflexivity | discriminate]. }
  destruct Hr as (scenes & -> & Hlen & Hne).
  destruct (task_returns_when_upload_falls_back Duration.exact grid decoded
              unit by_text fixed_render refusing_uploader unknown_duration
              exn_text true (with_hook four_lines) configured_environ
              1700000000 "task-1" (mkState grid unit tt [] []) scenes q
              "/tmp/tmpab12/output.mp4" tt)
    as (o & s' & H1 & H2 & H3 & H4 & H5).
  - reflexivity.
  - exact E.
  - exact Hne.
  - unfold fixed_render. destruct (Scenes.q_world grid unit q). reflexivity.
  - right. exists (ExternalError "upload refused"). reflexivity.
  - exists o, s'. rewrite H3, Hlen. auto.
Defined.

End JobFacts.

(** ** The sequential path, further *)

Module SequentialFacts.

Import Scenes Acceptance.

Section Generation.

Variable rnd : Q -> Q.
Variable image : Type.
Variable grey8x8 : image -> result (list Z).
Variable world : Type.
Variable generate_styled_background :
  lyric -> style_profile -> world -> result image * world.

Local Abbreviation seq_state := (seq_state image world).
Local Abbreviation attempt_image :=
  (attempt_image image world generate_styled_background).
Local Abbreviation attempt_loop :=
  (attempt_loop image grey8x8 world generate_styled_background).
Local Abbreviation styled_scene :=
  (styled_scene rnd image grey8x8 world generate_styled_background).
Local Abbreviation styled_scenes_from :=
  (styled_scenes_from rnd image grey8x8 world generate_styled_background).
Local Abbreviation generate_styled_scenes :=
  (generate_styled_scenes rnd image grey8x8 world generate_styled_background).
Local Abbreviation check_uniqueness :=
  (UniquenessValidator.check_uniqueness image grey8x8).
Local Abbreviation far_apart := (far_apart image grey8x8).
Local Abbreviation pairwise_accepted := (pairwise_accepted image grey8x8).

(** *** Accepted backgrounds are pairwise far apart *)

Lemma compare_all_true_far (new_hash : string) (previous : list image)
    (threshold : Q) :
  UniquenessValidator.compare_all image grey8x8 new_hash previous threshold
  = Ok true ->
  List.Forall
    (fun p => exists h,
       UniquenessValidator.calculate_image_hash image grey8x8 p = Ok h
       /\ (UniquenessValidator.similarity new_hash h <= threshold)%Q)
    previous.
Proof.
  induction previous as [| p ps IH]; simpl; intros H; [constructor |].
  destruct (UniquenessValidator.calculate_image_hash image grey8x8 p)
    as [h | e] eqn:Eh; [| discriminate]. simpl in H.
  destruct (Qlt_le_dec threshold (UniquenessValidator.similarity new_hash h))
    as [_ | Hle]; [discriminate |].
  constructor; [| apply IH, H]. exists h. split; [exact Eh | exact Hle].
Qed.

Lemma check_uniqueness_true_far (x : image) (previous : list image) :
  check_uniqueness x previous UniquenessValidator.default_threshold = Ok true ->
  List.Forall (fun p => far_apart p x) previous.
Proof.
  unfold UniquenessValidator.check_uniqueness.
  destruct (UniquenessValidator.calculate_image_hash image grey8x8 x)
    as [hx | e] eqn:Ex; [| discriminate]. simpl. intros H.
  pose proof (compare_all_true_far _ _ _ H) as Hall.
  eapply List.Forall_impl; [| exact Hall].
  intros p (h & Hh & Hle). exists h, hx. split; [exact Hh |].
  split; [exact Ex | exact Hle].
Qed.

Lemma ForallOrdPairs_snoc {A} (R : A -> A -> Prop) (l : list A) (x : A) :
  ForallOrdPairs R l -> List.Forall (fun p => R p x) l ->
  ForallOrdPairs R (l ++ [x]).
Proof.
  induction 1 as [| a l Ha Hl IH]; intros Hx; simpl.
  - constructor; constructor.
  - inversion Hx as [| ? ? Hax Hlx]; subst. constructor.
    + apply List.Forall_app. split; [exact Ha |].
      constructor; [exact Hax | constructor].
    + apply IH, Hlx.
Qed.

Lemma attempt_image_previous (l : lyric) (style : style_profile)
    (s : seq_state) :
  q_previous _ _ (snd (attempt_image l style s)) = q_previous _ _ s.
Proof.
  unfold Scenes.attempt_image.
  destruct (ModelCache.contains _ _); [reflexivity |].
  destruct (generate_styled_background l style _) as [[img | e] w];
    [| reflexivity].
  destruct (ModelCache.cache_texture _ _ _ _); reflexivity.
Qed.

Lemma attempt_loop_accepted (l : lyric) (style : style_profile) :
  forall (n : nat) (last : option image) (s : seq_state),
    pairwise_accepted (q_previous _ _ s) ->
    pairwise_accepted (q_previous _ _ (snd (attempt_loop n l style last s))).
Proof.
  induction n as [| n IH]; intros last s Hs; simpl; [exact Hs |].
  pose proof (attempt_image_previous l style s) as Hprev.
  destruct (attempt_image l style s) as [[img | e] s1]; simpl in *.
  - destruct (check_uniqueness img (q_previous _ _ s1) _) as [[|] | e] eqn:Ec;
      simpl.
    + apply ForallOrdPairs_snoc; [rewrite Hprev; exact Hs |].
      apply check_uniqueness_true_far, Ec.
    + apply IH. rewrite Hprev. exact Hs.
    + rewrite Hprev. exact Hs.
  - rewrite Hprev. exact Hs.
Qed.

Lemma styled_scene_accepted (data : job) (style : style_profile) (i : nat)
    (l : lyric) scenes (s : seq_state) :
  pairwise_accepted (q_previous _ _ s) ->
  pairwise_accepted
    (q_previous _ _ (snd (styled_scene data style i l scenes s))).
Proof.
  intros Hs. unfold Scenes.styled_scene.
  pose proof (attempt_loop_accepted l style max_attempts None s Hs) as H.
  destruct (attempt_loop max_attempts l style None s) as [[oimg | e] s1];
    simpl in *; [| exact H].
  destruct (Duration.calculate_lyric_duration rnd l _); exact H.
Qed.

Lemma styled_scenes_from_accepted (data : job) (style : style_profile)
    (lyrics : list lyric) :
  forall (i : nat) scenes (s : seq_state),
    pairwise_accepted (q_previous _ _ s) ->
    pairwise_accepted
      (q_previous _ _ (snd (styled_scenes_from data style i lyrics scenes s))).
Proof.
  induction lyrics as [| l rest IH]; intros i scenes s Hs; simpl; [exact Hs |].
  pose proof (styled_scene_accepted data style i l scenes s Hs) as H.
  destruct (styled_scene data style i l scenes s) as [[sc | e] s1];
    simpl in H; apply IH, H.
Qed.

(** X16.  In [generate_styled_scenes] the list [previous_images] only
    ever receives a background that passed the uniqueness test against
    everything already in it: at the end any two of its members, taken
    in order, both decode and are no more similar than the threshold. *)
Theorem sequential_accepted_backgrounds_are_far_apart (data : job)
    (style : style_profile) (w : world) (c : ModelCache.cache) :
  pairwise_accepted
    (q_previous _ _ (snd (generate_styled_scenes data style w c))).
Proof.
  unfold Scenes.generate_styled_scenes.
  destruct (d_lyrics data) as [lyrics |]; simpl; [| constructor].
  pose proof (styled_scenes_from_accepted data style lyrics 0 []
                (mkSeq image world w c [])) as H.
  destruct (styled_scenes_from data style 0 lyrics [] _) as [scenes s].
  apply H. constructor.
Qed.

(** *** The retry loop re-tests one background *)

Lemma contains_false_absent (key : string) (c : ModelCache.cache (V := image)) :
  ModelCache.contains key c = false -> ~ List.In key (ModelCache.keys c).
Proof.
  induction c as [| [k v] c IH]; simpl; [tauto |].
  destruct (String.eqb_spec k key) as [-> | Hne]; [discriminate |].
  intros H [Heq | Hin]; [contradiction | exact (IH H Hin)].
Qed.

Lemma cached_after_texture (key : string) (img : image)
    (c c' : ModelCache.cache (V := image)) :
  ModelCache.contains key c = false ->
  ModelCache.cache_texture ModelCache._max_size key img c = Ok c' ->
  ModelCache.contains key c' = true /\ ModelCache.getitem key c' = Ok img.
Proof.
  intros Hmiss Hput. apply contains_false_absent in Hmiss.
  rewrite ModelCacheFacts.cache_texture_eq in Hput. injection Hput as <-.
  rewrite (ModelCacheFacts.remove_absent key c Hmiss).
  assert (Hget : ModelCache.getitem key
                   (ModelCache.evict ModelCache._max_size (c ++ [(key, img)]))
                 = Ok img).
  { unfold ModelCache.evict.
    destruct (Nat.ltb_spec ModelCache._max_size
                (List.length (c ++ [(key, img)]))) as [Hbig | _].
    - destruct c as [| kv c0].
      + simpl in Hbig. unfold ModelCache._max_size in Hbig. lia.
      + simpl. apply ModelCacheFacts.getitem_last.
        intros Hin. apply Hmiss. right. exact Hin.
    - apply ModelCacheFacts.getitem_last, Hmiss. }
  split; [| exact Hget].
  rewrite ModelCacheFacts.contains_getitem, Hget. reflexivity.
Qed.

Lemma attempt_image_again (l : lyric) (style : style_profile)
    (s s1 : seq_state) (img : image) :
  attempt_image l style s = (Ok img, s1) ->
  attempt_image l style s1 = (Ok img, s1).
Proof.
  unfold Scenes.attempt_image.
  destruct (ModelCache.contains _ (q_cache _ _ s)) eqn:Hc.
  - intros H. injection H as Hget <-. rewrite Hc, Hget. reflexivity.
  - destruct (generate_styled_background l style _) as [[img0 | e] w];
      [| discriminate].
    destruct (ModelCache.cache_texture _ _ _ _) as [c' | e] eqn:Hput;
      [| discriminate].
    intros H. injection H as <- <-. simpl.
    destruct (cached_after_texture _ _ _ _ Hc Hput) as [-> ->]. reflexivity.
Qed.

(** X17.  The retry loop never generates a second background for a
    lyric.  Once an attempt has produced a background, it is in the
    cache under the lyric's key, so every later attempt reads it back;
    if it fails the uniqueness test, each remaining attempt fails the
    same test on the same background, the loop ends with that
    background, and neither the collaborators nor the cache nor
    [previous_images] change after the first attempt. *)
Theorem retry_reuses_the_cached_background (l : lyric)
    (style : style_profile) (s s1 : seq_state) (img : image) (n : nat)
    (last : option image) :
  attempt_image l style s = (Ok img, s1) ->
  check_uniqueness img (q_previous _ _ s1)
    UniquenessValidator.default_threshold = Ok false ->
  attempt_image l style s1 = (Ok img, s1)
  /\ attempt_loop (S n) l style last s = (Ok (Some img), s1).
Proof.
  intros Hfirst Hdup.
  pose proof (attempt_image_again _ _ _ _ _ Hfirst) as Hagain.
  split; [exact Hagain |].
  assert (Hrest : forall m, attempt_loop m l style (Some img) s1
                            = (Ok (Some img), s1)).
  { induction m as [| m IH]; simpl; [reflexivity |].
    rewrite Hagain, Hdup. exact IH. }
  simpl. rewrite Hfirst, Hdup. apply Hrest.
Qed.

(** *** Scenes describe their lyrics *)

Lemma attempt_loop_some (l : lyric) (style : style_profile) :
  forall (n : nat) (last : option image) (s s1 : seq_state)
         (o : option image),
    attempt_loop n l style last s = (Ok o, s1) ->
    (n <> 0%nat \/ last <> None) -> o <> None.
Proof.
  induction n as [| n IH]; intros last s s1 o; simpl.
  - intros H [Hn | Hlast]; [contradiction |]. injection H as <- _. exact Hlast.
  - destruct (attempt_image l style s) as [[img | e] s2]; [| discriminate].
    destruct (check_uniqueness img _ _) as [[|] | e]; [| | discriminate].
    + intros H _. injection H as <- _. discriminate.
    + intros H _. eapply IH; [exact H |]. right. discriminate.
Qed.

Lemma styled_scene_describes (data : job) (style : style_profile) (i : nat)
    (l : lyric) scenes (s s1 : seq_state) (sc : scene image) :
  styled_scene data style i l scenes s = (Ok sc, s1) ->
  s_id sc = Z.of_nat i + 1
  /\ s_lyric sc = get_text l
  /\ s_style sc = sp_name style
  /\ s_rendering_data sc = rendering_of style
  /\ Duration.calculate_lyric_duration rnd l (bpm_of data) = Ok (s_duration sc)
  /\ (forall t, l_time l = Some t -> s_time sc = t)
  /\ s_image sc <> None.
Proof.
  unfold Scenes.styled_scene.
  destruct (attempt_loop max_attempts l style None s) as [[oimg | e] s2] eqn:E;
    [| discriminate].
  destruct (Duration.calculate_lyric_duration rnd l _) as [d | e] eqn:Ed;
    [| discriminate].
  intros H. injection H as <- _. simpl.
  repeat split.
  - intros t ->. reflexivity.
  - eapply attempt_loop_some; [exact E |]. left. discriminate.
Qed.

Lemma styled_scenes_from_describe (data : job) (style : style_profile)
    (all : list lyric) (P : scene image -> Prop) :
  (forall (i : nat) (l : lyric) scenes (s s1 : seq_state) sc,
     all !! i = Some l ->
     styled_scene data style i l scenes s = (Ok sc, s1) -> P sc) ->
  forall (lyrics : list lyric) (i : nat) scenes (s : seq_state),
    (forall j l, lyrics !! j = Some l -> all !! (i + j)%nat = Some l) ->
    List.Forall P scenes ->
    List.Forall P (fst (styled_scenes_from data style i lyrics scenes s)).
Proof.
  intros HP. induction lyrics as [| l rest IH]; intros i scenes s Hall Hs;
    simpl; [exact Hs |].
  assert (Hrest : forall j l0, rest !! j = Some l0 ->
                               all !! (S i + j)%nat = Some l0).
  { intros j l0 Hj. replace (S i + j)%nat with (i + S j)%nat by lia.
    apply Hall. exact Hj. }
  destruct (styled_scene data style i l scenes s) as [[sc | e] s1] eqn:E.
  - apply IH; [exact Hrest |]. apply List.Forall_app. split; [exact Hs |].
    constructor; [| constructor].
    eapply HP; [| exact E]. rewrite <- (Nat.add_0_r i). apply Hall. reflexivity.
  - apply IH; [exact Hrest | exact Hs].
Qed.

(** X18.  Every scene that [generate_styled_scenes] returns describes
    the lyric its id points at: its text, the name and the five
    rendering directives of the style, the lyric's own [time] when it
    has one, and the duration of that lyric at the payload's bpm (120
    when absent); and it carries a background. *)
Theorem sequential_scenes_describe_their_lyrics (data : job)
    (style : style_profile) (lyrics : list lyric) (w : world)
    (c : ModelCache.cache) :
  d_lyrics data = Some lyrics ->
  exists scenes s,
    generate_styled_scenes data style w c = (Ok scenes, s)
    /\ List.Forall (describes rnd image lyrics style (bpm_of data)) scenes
    /\ List.Forall (fun sc => s_image sc <> None) scenes.
Proof.
  intros Hl. unfold Scenes.generate_styled_scenes. rewrite Hl.
  destruct (styled_scenes_from data style 0 lyrics [] _) as [scenes s] eqn:E.
  exists scenes, s. split; [reflexivity |].
  replace scenes
    with (fst (styled_scenes_from data style 0 lyrics []
                 (mkSeq image world w c []))) by (rewrite E; reflexivity).
  split.
  - apply (styled_scenes_from_describe data style lyrics); [| auto | constructor].
    intros i l scs s0 s1 sc Hi Hsc.
    destruct (styled_scene_describes _ _ _ _ _ _ _ _ Hsc)
      as (H1 & H2 & H3 & H4 & H5 & H6 & _).
    exists i, l. auto 10.
  - apply (styled_scenes_from_describe data style lyrics); [| auto | constructor].
    intros i l scs s0 s1 sc Hi Hsc.
    apply (styled_scene_describes _ _ _ _ _ _ _ _ Hsc).
Qed.

End Generation.

Import Fixtures Samples.

Lemma retry_reuses_the_cached_background_witness :
  attempt_image grid unit by_text (line "la la la") plain_style
    (mkSeq grid unit tt
       [(get_cache_key ["la la la"; "Minimalist Typography"; "neutral"]%string,
         grid_of_text "la la la")]
       [grid_of_text "la la la"])
  = (Ok (grid_of_text "la la la"),
     mkSeq grid unit tt
       [(get_cache_key ["la la la"; "Minimalist Typography"; "neutral"]%string,
         grid_of_text "la la la")]
       [grid_of_text "la la la"])
  /\ attempt_loop grid decoded unit by_text 3 (line "la la la") plain_style
       None after_first_line
     = (Ok (Some (grid_of_text "la la la")),
        mkSeq grid unit tt
          [(get_cache_key ["la la la"; "Minimalist Typography"; "neutral"]%string,
            grid_of_text "la la la")]
          [grid_of_text "la la la"]).
Proof.
  apply (retry_reuses_the_cached_background grid decoded unit by_text
           (line "la la la") plain_style after_first_line).
  - reflexivity.
  - vm_compute. reflexivity.
Defined.

Lemma sequential_scenes_describe_their_lyrics_witness :
  exists scenes s,
    generate_styled_scenes Duration.exact grid decoded unit by_text
      (payload four_lines) plain_style tt [] = (Ok scenes, s)
    /\ List.Forall (describes Duration.exact grid four_lines plain_style 120)
         scenes
    /\ List.Forall (fun sc => s_image sc <> None) scenes.
Proof.
  apply (sequential_scenes_describe_their_lyrics Duration.exact grid decoded
           unit by_text (payload four_lines) plain_style four_lines tt []).
  reflexivity.
Defined.

End SequentialFacts.

(** ** The parallel path, further *)

Module ParallelFacts.

Import Scenes Acceptance.

Section Generation.

Variable rnd : Q -> Q.
Variable image : Type.
Variable grey8x8 : image -> result (list Z).
Variable world : Type.
Variable generate_styled_background :
  lyric -> style_profile -> world -> result image * world.

Local Abbreviation pool := (pool image world).
Local Abbreviation step :=
  (step rnd image grey8x8 world generate_styled_background).
Local Abbreviation run :=
  (run rnd image grey8x8 world generate_styled_background).
Local Abbreviation parallel_generate_scenes :=
  (parallel_generate_scenes rnd image grey8x8 world
     generate_styled_background).
Local Abbreviation pairwise_accepted := (pairwise_accepted image grey8x8).

(** *** Scenes describe their lyrics *)

Local Abbreviation well_described := (well_described rnd image world).

Lemma step_well_described (lyrics : list lyric) (style : style_profile)
    (max_workers i : nat) (p p' : pool) :
  well_described lyrics style p ->
  step lyrics style max_workers i p = Some p' ->
  well_described lyrics style p'.
Proof.
  intros Hp. unfold Scenes.step.
  destruct (p_tasks _ _ p !! i) as [t |] eqn:Hi; [| discriminate].
  destruct (lyrics !! i) as [l |] eqn:Hl; [| destruct t; discriminate].
  destruct t as [| img | img | r].
  - destruct (can_start _ _ _ _); [| discriminate].
    destruct (generate_styled_background l style _) as [[img | e] w];
      intros H; injection H as <-; exact Hp.
  - destruct (UniquenessValidator.check_uniqueness _ _ _ _ _) as [[|] | e];
      intros H; injection H as <-; exact Hp.
  - assert (Hold : List.Forall
                     (fun sc => describes rnd image lyrics style 120 sc
                                /\ exists img0, s_image sc = Some img0
                                     /\ List.In img0 (p_previous _ _ p ++ [img]))
                     (p_scenes _ _ p)).
    { eapply List.Forall_impl; [| exact Hp].
      intros sc (Hd & img0 & Hs & Hin). split; [exact Hd |].
      exists img0. split; [exact Hs |]. apply List.in_or_app. left. exact Hin. }
    destruct (Duration.calculate_lyric_duration rnd l 120) as [d | e] eqn:Ed;
      intros H; injection H as <-; unfold Acceptance.well_described, finish; simpl;
      [| exact Hold].
    apply List.Forall_app. split; [exact Hold |].
    constructor; [| constructor]. split.
    + exists i, l. simpl. repeat split; try assumption.
      intros t ->. reflexivity.
    + exists img. simpl. split; [reflexivity |].
      apply List.in_or_app. right. left. reflexivity.
  - intros H. injection H as <-. exact Hp.
Qed.

Lemma run_well_described (lyrics : list lyric) (style : style_profile)
    (max_workers : nat) (schedule : list nat) :
  forall p p' : pool,
    well_described lyrics style p ->
    run lyrics style max_workers schedule p = Some p' ->
    well_described lyrics style p'.
Proof.
  induction schedule as [| i rest IH]; intros p p' Hp; simpl.
  - intros H. injection H as <-. exact Hp.
  - destruct (step lyrics style max_workers i p) as [p1 |] eqn:E;
      [| discriminate].
    apply IH. eapply step_well_described; eassumption.
Qed.

(** X19.  Under every schedule that completes, each scene that
    [parallel_generate_scenes] returns describes the lyric its id
    points at (text, style name, directives, the lyric's own [time]),
    with the duration of that lyric computed at 120 bpm: the payload's
    bpm never reaches this path.  Its background is one of those
    appended to [previous_images]. *)
Theorem parallel_scenes_describe_their_lyrics (lyrics : list lyric)
    (style : style_profile) (max_workers : nat) (schedule : list nat)
    (w : world) (scenes : list (scene image)) (p : pool) :
  parallel_generate_scenes lyrics style max_workers schedule w
  = Some (scenes, p) ->
  List.Forall
    (fun sc => describes rnd image lyrics style 120 sc
               /\ exists img, s_image sc = Some img
                              /\ List.In img (p_previous _ _ p))
    scenes.
Proof.
  unfold Scenes.parallel_generate_scenes.
  destruct (run lyrics style max_workers schedule _) as [p1 |] eqn:E;
    [| discriminate].
  destruct (forallb _ _); [| discriminate].
  intros H. injection H as <- <-.
  assert (Hp : well_described lyrics style p1).
  { eapply run_well_described; [| exact E]. constructor. }
  apply List.Forall_forall. intros sc Hin.
  apply (Permutation_in _ (SceneFacts.sort_by_id_perm image _)) in Hin.
  exact (proj1 (List.Forall_forall _ _) Hp sc Hin).
Qed.

(** *** One task at a time keeps the accepted list far apart *)

Local Abbreviation sole_runner := (sole_runner image grey8x8 world).

Lemma step_sole_runner (lyrics : list lyric) (style : style_profile)
    (max_workers i : nat) (p p' : pool) :
  sole_runner i p ->
  step lyrics style max_workers i p = Some p' ->
  sole_runner i p'.
Proof.
  intros [Hacc Huniq]. unfold Scenes.step.
  destruct (p_tasks _ _ p !! i) as [t |] eqn:Hi; [| discriminate].
  assert (Hlt : (i < List.length (p_tasks _ _ p))%nat)
    by (eapply lookup_lt_Some; exact Hi).
  destruct (lyrics !! i) as [l |] eqn:Hl; [| destruct t; discriminate].
  destruct t as [| img | img | r].
  - destruct (can_start _ _ _ _); [| discriminate].
    destruct (generate_styled_background l style _) as [[img | e] w];
      intros H; injection H as <-; (split; [exact Hacc |]); simpl;
      intros img0; rewrite list_lookup_insert_eq by exact Hlt; discriminate.
  - destruct (UniquenessValidator.check_uniqueness _ _ _ _ _) as [[|] | e] eqn:Ec;
      intros H; injection H as <-; (split; [exact Hacc |]); simpl;
      intros img0; rewrite list_lookup_insert_eq by exact Hlt;
      intros H0; try discriminate H0.
    injection H0 as <-. exact Ec.
  - assert (Hnew : pairwise_accepted (p_previous _ _ p ++ [img])).
    { apply SequentialFacts.ForallOrdPairs_snoc; [exact Hacc |].
      apply SequentialFacts.check_uniqueness_true_far, Huniq. reflexivity. }
    destruct (Duration.calculate_lyric_duration rnd l 120) as [d | e];
      intros H; injection H as <-; (split; [exact Hnew |]); simpl;
      intros img0; rewrite list_lookup_insert_eq by exact Hlt; discriminate.
  - intros H. injection H as <-. split; [exact Hacc |].
    intros img0 H0. rewrite Hi in H0. discriminate.
Qed.

Lemma three_steps_accepted (lyrics : list lyric) (style : style_profile)
    (max_workers i : nat) (p p' : pool) :
  p_tasks _ _ p !! i = Some (Queued image) ->
  pairwise_accepted (p_previous _ _ p) ->
  run lyrics style max_workers [i; i; i] p = Some p' ->
  pairwise_accepted (p_previous _ _ p').
Proof.
  intros Hq Hacc. simpl.
  destruct (step lyrics style max_workers i p) as [p1 |] eqn:E1;
    [| discriminate].
  destruct (step lyrics style max_workers i p1) as [p2 |] eqn:E2;
    [| discriminate].
  destruct (step lyrics style max_workers i p2) as [p3 |] eqn:E3;
    [| discriminate].
  intros H. injection H as <-.
  assert (H0 : sole_runner i p).
  { split; [exact Hacc |]. intros img Hu. rewrite Hq in Hu. discriminate. }
  apply (step_sole_runner _ _ _ _ _ _ (step_sole_runner _ _ _ _ _ _
           (step_sole_runner _ _ _ _ _ _ H0 E1) E2) E3).
Qed.

Lemma one_by_one_from_accepted (style : style_profile) (max_workers : nat)
    (lyrics : list lyric) :
  (1 <= max_workers)%nat ->
  forall (k : nat) (fs : list (task image)) (p : pool),
    (List.length fs + k)%nat = List.length lyrics ->
    p_tasks _ _ p = fs ++ repeat (Queued image) k ->
    List.Forall (fun t => is_finished image t = true) fs ->
    pairwise_accepted (p_previous _ _ p) ->
    exists p' : pool,
      run lyrics style max_workers
        (flat_map (fun i => [i; i; i]) (List.seq (List.length fs) k)) p
      = Some p'
      /\ forallb (is_finished image) (p_tasks _ _ p') = true
      /\ pairwise_accepted (p_previous _ _ p').
Proof.
  intros Hw. induction k as [| k IH]; intros fs p Hlen Htasks Hfs Hacc.
  - simpl. exists p. split; [reflexivity |]. split; [| exact Hacc].
    rewrite Htasks. simpl. rewrite List.app_nil_r.
    apply List.forallb_forall. intros t Ht.
    exact (proj1 (List.Forall_forall _ _) Hfs t Ht).
  - assert (Hl : exists l, lyrics !! List.length fs = Some l).
    { apply lookup_lt_is_Some. lia. }
    destruct Hl as [l Hl].
    destruct (SceneFacts.three_steps_finish rnd image grey8x8 world
                generate_styled_background lyrics style max_workers p fs k l
                Hw Htasks Hfs Hl) as (p1 & r & E1 & T1).
    assert (Hq : p_tasks _ _ p !! List.length fs = Some (Queued image)).
    { rewrite Htasks. apply list_lookup_middle. reflexivity. }
    pose proof (three_steps_accepted _ _ _ _ _ _ Hq Hacc E1) as Hacc1.
    change (flat_map (fun i => [i; i; i]) (List.seq (List.length fs) (S k)))
      with ([List.length fs; List.length fs; List.length fs]
            ++ flat_map (fun i => [i; i; i]) (List.seq (S (List.length fs)) k)).
    rewrite SceneFacts.run_app, E1.
    replace (S (List.length fs))
      with (List.length (fs ++ [Finished image r]))
      by (rewrite List.length_app; simpl; lia).
    apply IH.
    + rewrite List.length_app. simpl. lia.
    + exact T1.
    + apply List.Forall_app. split; [exact Hfs |].
      constructor; [reflexivity | constructor].
    + exact Hacc1.
Qed.

(** X20.  When the tasks of [parallel_generate_scenes] run one after
    another, the call completes and the accepted list ends up far
    apart: any two of its members, in order, both decode and are no
    more similar than the threshold.  (Under other schedules this
    fails.) *)
Theorem one_by_one_accepts_far_apart (lyrics : list lyric)
    (style : style_profile) (max_workers : nat) (w : world) :
  (1 <= max_workers)%nat ->
  exists scenes (p : pool),
    parallel_generate_scenes lyrics style max_workers
      (one_by_one (List.length lyrics)) w = Some (scenes, p)
    /\ pairwise_accepted (p_previous _ _ p).
Proof.
  intros Hw. unfold Scenes.parallel_generate_scenes, one_by_one.
  destruct (one_by_one_from_accepted style max_workers lyrics Hw
              (List.length lyrics) [] (submit image world lyrics w))
    as (p & E & Hfin & Hacc).
  - reflexivity.
  - simpl. clear. induction lyrics as [| l ls IH]; simpl; [reflexivity |].
    f_equal. exact IH.
  - constructor.
  - constructor.
  - simpl in E. rewrite E, Hfin. eexists _, _. split; [reflexivity | exact Hacc].
Qed.

End Generation.

Import Fixtures.

Lemma parallel_scenes_describe_their_lyrics_witness :
  exists scenes (p : pool grid unit),
    parallel_generate_scenes Duration.exact grid decoded unit by_text
      four_lines plain_style 4 lockstep tt = Some (scenes, p)
    /\ List.Forall
         (fun sc => describes Duration.exact grid four_lines plain_style 120 sc
                    /\ exists img, s_image sc = Some img
                         /\ List.In img (p_previous _ _ p))
         scenes.
Proof.
  eexists _, _. split; [vm_compute; reflexivity |].
  apply (parallel_scenes_describe_their_lyrics Duration.exact grid decoded
           unit by_text four_lines plain_style 4 lockstep tt).
  vm_compute. reflexivity.
Defined.

Lemma one_by_one_accepts_far_apart_witness :
  exists scenes (p : pool grid unit),
    parallel_generate_scenes Duration.exact grid decoded unit by_text
      refrain plain_style 4 (one_by_one 4) tt = Some (scenes, p)
    /\ pairwise_accepted grid decoded (p_previous _ _ p).
Proof.
  apply (one_by_one_accepts_far_apart Duration.exact grid decoded unit
           by_text refrain plain_style 4 tt).
  lia.
Defined.

End ParallelFacts.

(** ** The validator, further *)

Module ValidatorFacts.

Import UniquenessValidator.

Lemma string_of_list_ascii_length (l : list ascii) :
  String.length (string_of_list_ascii l) = List.length l.
Proof. induction l as [| c l IH]; simpl; [reflexivity | f_equal; exact IH]. Qed.

Lemma le_bytes_length (n : nat) (x : Z) : List.length (MD5.le_bytes n x) = n.
Proof. unfold MD5.le_bytes. rewrite List.length_map. apply List.length_seq. Qed.

Lemma hex_of_bytes_length (bs : list Z) :
  List.length (MD5.hex_of_bytes bs) = (2 * List.length bs)%nat.
Proof.
  unfold MD5.hex_of_bytes. induction bs as [| b bs IH]; simpl; [reflexivity |].
  rewrite IH. lia.
Qed.

(** A digest is printed as 32 characters. *)
Lemma hexdigest_length (s : string) : String.length (MD5.hexdigest s) = 32%nat.
Proof.
  unfold MD5.hexdigest, MD5.digest.
  rewrite string_of_list_ascii_length, hex_of_bytes_length.
  rewrite !List.length_app, !le_bytes_length. reflexivity.
Qed.

Lemma matching_same (h : string) : matching h h = Z.of_nat (String.length h).
Proof.
  induction h as [| c h IH]; [reflexivity |].
  cbn [matching String.length]. rewrite Ascii.eqb_refl, IH. lia.
Qed.

Lemma similarity_same (h : string) :
  String.length h <> 0%nat -> (similarity h h == 1)%Q.
Proof.
  intros Hne. unfold similarity. rewrite matching_same.
  apply Qmult_inv_r. intros H.
  assert (Hz : Z.of_nat (String.length h) = 0).
  { unfold Qeq in H. simpl in H. lia. }
  lia.
Qed.

Section Validator.

Variable image : Type.
Variable grey8x8 : image -> result (list Z).

Local Abbreviation check_uniqueness := (check_uniqueness image grey8x8).
Local Abbreviation decodes :=
  (fun p : image => exists px, grey8x8 p = Ok px).

Lemma check_uniqueness_false_iff (x : image) (px : list Z)
    (previous : list image) (threshold : Q) :
  grey8x8 x = Ok px ->
  List.Forall decodes previous ->
  exists b, check_uniqueness x previous threshold = Ok b
    /\ (b = false <->
        exists p h, List.In p previous
          /\ calculate_image_hash image grey8x8 p = Ok h
          /\ (threshold < similarity (MD5.hexdigest (hash_bits px)) h)%Q).
Proof.
  intros Hx Hprev. unfold UniquenessValidator.check_uniqueness,
    calculate_image_hash at 1. rewrite Hx. simpl.
  apply UniquenessFacts.compare_all_false_iff, Hprev.
Qed.

(** X21.  [check_uniqueness] raises when the candidate does not decode,
    even against an empty list, and accepts every candidate that
    decodes when the list is empty.  Against images that decode, a
    candidate whose 8x8 binarised grid equals that of some listed image
    is rejected for every threshold below 1. *)
Theorem equal_fingerprints_are_rejected (x : image) (previous : list image)
    (threshold : Q) :
  (forall e, grey8x8 x = Raise e ->
     check_uniqueness x previous threshold = Raise e)
  /\ (forall px, grey8x8 x = Ok px -> check_uniqueness x [] threshold = Ok true)
  /\ (forall px p pp,
        grey8x8 x = Ok px ->
        List.Forall decodes previous ->
        List.In p previous -> grey8x8 p = Ok pp ->
        hash_bits pp = hash_bits px ->
        (threshold < 1)%Q ->
        check_uniqueness x previous threshold = Ok false).
Proof.
  split; [| split].
  - intros e He. unfold UniquenessValidator.check_uniqueness,
      calculate_image_hash. rewrite He. reflexivity.
  - intros px Hx. unfold UniquenessValidator.check_uniqueness,
      calculate_image_hash. rewrite Hx. reflexivity.
  - intros px p pp Hx Hprev Hin Hp Hbits Hthr.
    destruct (check_uniqueness_false_iff x px previous threshold Hx Hprev)
      as (b & -> & Hiff).
    f_equal. apply Hiff.
    exists p, (MD5.hexdigest (hash_bits px)).
    split; [exact Hin |]. split.
    + unfold calculate_image_hash. rewrite Hp. simpl. rewrite Hbits.
      reflexivity.
    + rewrite similarity_same; [exact Hthr |].
      rewrite hexdigest_length. discriminate.
Qed.

(** X22.  When all images decode, the verdict of [check_uniqueness]
    depends only on which images are listed: it is the same for any
    reordering of the list, and a candidate rejected against a list is
    rejected against every longer one. *)
Theorem verdict_depends_on_membership (x : image) (px : list Z)
    (previous others : list image) (threshold : Q) :
  grey8x8 x = Ok px ->
  List.Forall decodes previous ->
  List.Forall decodes others ->
  (Permutation previous others ->
   check_uniqueness x previous threshold = check_uniqueness x others threshold)
  /\ (check_uniqueness x previous threshold = Ok false ->
      check_uniqueness x (previous ++ others) threshold = Ok false
      /\ check_uniqueness x (others ++ previous) threshold = Ok false).
Proof.
  intros Hx Hprev Hoth.
  assert (Hsub : forall l1 l2,
            List.Forall decodes l1 -> List.Forall decodes l2 ->
            (forall p, List.In p l1 -> List.In p l2) ->
            check_uniqueness x l1 threshold = Ok false ->
            check_uniqueness x l2 threshold = Ok false).
  { intros l1 l2 H1 H2 Hincl Hrej.
    destruct (check_uniqueness_false_iff x px l1 threshold Hx H1)
      as (b1 & E1 & Hiff1).
    destruct (check_uniqueness_false_iff x px l2 threshold Hx H2)
      as (b2 & E2 & Hiff2).
    rewrite E2. f_equal. apply Hiff2.
    rewrite E1 in Hrej. injection Hrej as ->.
    destruct (proj1 Hiff1 eq_refl) as (p & h & Hin & Hh & Hlt).
    exists p, h. auto. }
  split.
  - intros Hperm.
    destruct (check_uniqueness_false_iff x px previous threshold Hx Hprev)
      as (b1 & E1 & _).
    destruct (check_uniqueness_false_iff x px others threshold Hx Hoth)
      as (b2 & E2 & _).
    destruct b1, b2; rewrite E1, E2; try reflexivity; exfalso.
    + assert (Hrej : check_uniqueness x previous threshold = Ok false).
      { apply (Hsub others previous Hoth Hprev); [| exact E2].
        intros p Hp. eapply Permutation_in; [symmetry; exact Hperm | exact Hp]. }
      rewrite E1 in Hrej. discriminate.
    + assert (Hrej : check_uniqueness x others threshold = Ok false).
      { apply (Hsub previous others Hprev Hoth); [| exact E1].
        intros p Hp. eapply Permutation_in; [exact Hperm | exact Hp]. }
      rewrite E2 in Hrej. discriminate.
  - intros Hrej. split.
    + apply (Hsub previous); [exact Hprev | | | exact Hrej].
      * apply List.Forall_app. split; assumption.
      * intros p Hp. apply List.in_or_app. left. exact Hp.
    + apply (Hsub previous); [exact Hprev | | | exact Hrej].
      * apply List.Forall_app. split; assumption.
      * intros p Hp. apply List.in_or_app. right. exact Hp.
Qed.

End Validator.

Import Fixtures.

Lemma verdict_depends_on_membership_witness :
  (Permutation [half_split; bright_prefix 8] [bright_prefix 8; half_split] ->
   check_uniqueness grid decoded half_split [half_split; bright_prefix 8]
     default_threshold
   = check_uniqueness grid decoded half_split [bright_prefix 8; half_split]
       default_threshold)
  /\ (check_uniqueness grid decoded half_split [half_split; bright_prefix 8]
        default_threshold = Ok false ->
      check_uniqueness grid decoded half_split
        ([half_split; bright_prefix 8] ++ [bright_prefix 8; half_split])
        default_threshold = Ok false
      /\ check_uniqueness grid decoded half_split
           ([bright_prefix 8; half_split] ++ [half_split; bright_prefix 8])
           default_threshold = Ok false).
Proof.
  apply (verdict_depends_on_membership grid decoded half_split half_split
           [half_split; bright_prefix 8] [bright_prefix 8; half_split]
           default_threshold).
  - reflexivity.
  - repeat constructor; eexists; reflexivity.
  - repeat constructor; eexists; reflexivity.
Defined.

End ValidatorFacts.

(** ** The pending-deletion table *)

Module PendingTableFacts.

Import StorageLifecycleManager.

Section Manager.

Variable cloud : Type.
Variable api_resources : cloud -> result (list resource).
Variable uploader_destroy : string -> cloud -> result unit * cloud.
Variable public_id_of_url : string -> option string.

Local Abbreviation delete_asset :=
  (delete_asset cloud uploader_destroy public_id_of_url).
Local Abbreviation _cleanup_cloudinary_assets :=
  (_cleanup_cloudinary_assets cloud api_resources uploader_destroy).
Local Abbreviation destroy_expired := (destroy_expired cloud uploader_destroy).

(** X23.  [_cleanup_pending_deletions] removes the entries whose expiry
    is at or before [now] and keeps every other entry with its expiry;
    it changes nothing else in the manager, and running it again at the
    same time changes nothing. *)
Theorem pending_cleanup_removes_exactly_the_expired (now : Q) (m : manager) :
  (forall asset_id,
     pending_deletions (_cleanup_pending_deletions now m) !! asset_id
     = match pending_deletions m !! asset_id with
       | Some expiry => if Qle_bool expiry now then None else Some expiry
       | None => None
       end)
  /\ cloudinary_available (_cleanup_pending_deletions now m)
     = cloudinary_available m
  /\ expiry_hours (_cleanup_pending_deletions now m) = expiry_hours m
  /\ storage_backend (_cleanup_pending_deletions now m) = storage_backend m
  /\ s3_available (_cleanup_pending_deletions now m) = s3_available m
  /\ _cleanup_pending_deletions now (_cleanup_pending_deletions now m)
     = _cleanup_pending_deletions now m.
Proof.
  split; [apply (LifecycleFacts.cleanup_pending_deletions_lookup cloud
                  uploader_destroy public_id_of_url) |].
  split; [reflexivity |]. split; [reflexivity |].
  split; [reflexivity |]. split; [reflexivity |].
  assert (Hpd : pending_deletions
                  (_cleanup_pending_deletions now
                     (_cleanup_pending_deletions now m))
                = pending_deletions (_cleanup_pending_deletions now m)).
  { apply map_eq. intros k.
    rewrite !(LifecycleFacts.cleanup_pending_deletions_lookup cloud
                uploader_destroy public_id_of_url).
    destruct (pending_deletions m !! k) as [e |]; [| reflexivity].
    destruct (Qle_bool e now) eqn:E; [reflexivity |]. rewrite E. reflexivity. }
  change (_cleanup_pending_deletions now (_cleanup_pending_deletions now m))
    with (set_pending (_cleanup_pending_deletions now m)
            (pending_deletions
               (_cleanup_pending_deletions now
                  (_cleanup_pending_deletions now m)))).
  rewrite Hpd. reflexivity.
Qed.

(** X24.  [delete_asset] reports [True] exactly when it has removed the
    asset's entry, leaving all other entries as they were, and [False]
    with the manager untouched.  For a storage type other than
    ["cloudinary"], or without Cloudinary credentials, nothing is asked
    of the remote store; in that case ["cloudinary"] still reports
    [True], and ["s3"] reports [False] on a manager whose [s3_available]
    was never assigned. *)
Theorem delete_asset_updates_the_table_on_success
    (asset_id asset_url storage_type : string) (m : manager) (cl : cloud) :
  let '(ok, m', cl') := delete_asset asset_id asset_url storage_type m cl in
  (ok = true ->
   m' = set_pending m (delete asset_id (pending_deletions m))
   /\ pending_deletions m' !! asset_id = None
   /\ forall other, other <> asset_id ->
        pending_deletions m' !! other = pending_deletions m !! other)
  /\ (ok = false -> m' = m)
  /\ (storage_type <> "cloudinary"%string \/ cloudinary_available m = false ->
      cl' = cl)
  /\ (storage_type = "cloudinary"%string -> cloudinary_available m = false ->
      ok = true)
  /\ (storage_type = "s3"%string -> s3_available m = None -> ok = false).
Proof.
  unfold StorageLifecycleManager.delete_asset, delete_asset_body.
  destruct (String.eqb_spec storage_type "cloudinary") as [-> | Hnc]; simpl.
  - destruct (cloudinary_available m) eqn:Hav; simpl.
    + destruct (public_id_of_url asset_url) as [pid |].
      * destruct (uploader_destroy pid cl) as [[u | e] cl1]; simpl;
          repeat split; try discriminate; try (intros [? | ?]; congruence);
          try (intros other Hne; apply lookup_delete_ne; congruence);
          try apply lookup_delete_eq.
      * simpl. repeat split; try discriminate;
          try (intros [? | ?]; congruence);
          try (intros other Hne; apply lookup_delete_ne; congruence);
          try apply lookup_delete_eq.
    + repeat split; try discriminate;
        try (intros other Hne; apply lookup_delete_ne; congruence);
        try apply lookup_delete_eq.
  - destruct (String.eqb_spec storage_type "s3") as [-> | Hns3]; simpl.
    + unfold get_s3_available.
      destruct (s3_available m) as [[|] |]; simpl;
        repeat split; try discriminate; try congruence;
        try (intros other Hne; apply lookup_delete_ne; congruence);
        try apply lookup_delete_eq.
    + repeat split; try discriminate; try congruence;
        try (intros other Hne; apply lookup_delete_ne; congruence);
        try apply lookup_delete_eq.
Qed.

(** X25.  [schedule_deletion] records the asset with the expiry
    [now + 3600 * expiry_hours] (one day on a manager built by
    [__init__]) and leaves the other entries alone; scheduling the same
    asset again replaces its entry, so the table never holds two
    entries for one asset; and for an asset that was not pending,
    scheduling followed by the removal that a successful [delete_asset]
    performs gives back the table as it was.  The thread it starts
    wakes at the expiry and carries the three arguments. *)
Theorem schedule_deletion_keeps_one_entry_per_asset
    (asset_id asset_url storage_type : string) (now later : Q) (m : manager) :
  pending_deletions
    (fst (schedule_deletion asset_id asset_url storage_type now m)) !! asset_id
  = Some (now + inject_Z (expiry_hours m * 3600))%Q
  /\ (forall other, other <> asset_id ->
      pending_deletions
        (fst (schedule_deletion asset_id asset_url storage_type now m))
      !! other
      = pending_deletions m !! other)
  /\ fst (schedule_deletion asset_id asset_url storage_type later
            (fst (schedule_deletion asset_id asset_url storage_type now m)))
     = fst (schedule_deletion asset_id asset_url storage_type later m)
  /\ (forall backend credentials,
        pending_deletions
          (fst (schedule_deletion asset_id asset_url storage_type now
                  (__init__ backend credentials)))
        !! asset_id = Some (now + 86400)%Q)
  /\ (pending_deletions m !! asset_id = None ->
      delete asset_id
        (pending_deletions
           (fst (schedule_deletion asset_id asset_url storage_type now m)))
      = pending_deletions m)
  /\ snd (schedule_deletion asset_id asset_url storage_type now m)
     = mkDelayed (now + inject_Z (expiry_hours m * 3600))%Q
         asset_id asset_url storage_type.
Proof.
  unfold schedule_deletion, set_pending. simpl.
  split; [apply lookup_insert_eq |]. split; [| split; [| split; [| split]]].
  - intros other Hne. apply lookup_insert_ne. congruence.
  - rewrite insert_insert_eq. reflexivity.
  - intros backend credentials. apply lookup_insert_eq.
  - intros Hnone. rewrite delete_insert_eq. apply delete_id, Hnone.
  - reflexivity.
Qed.

Lemma destroy_expired_count (now : Q) (m : manager) (rs : list resource) :
  forall (count : Z) (cl : cloud) (n : Z) (cl' : cloud),
    destroy_expired now m rs count cl = (Ok n, cl') ->
    count <= n <= count + Z.of_nat (List.length rs).
Proof.
  induction rs as [| r rs IH]; intros count cl n cl'; simpl.
  - intros H. injection H as <- _. lia.
  - destruct (created_at r) as [created |]; [| discriminate].
    destruct (Qle_bool _ _).
    + destruct (uploader_destroy (public_id r) cl) as [[u | e] cl1];
        intros H; apply IH in H; lia.
    + intros H. apply IH in H. lia.
Qed.

Lemma destroy_expired_none (now : Q) (m : manager) (rs : list resource) :
  List.Forall
    (fun r => exists created,
       created_at r = Some created
       /\ Qle_bool (inject_Z (expiry_hours m)) ((now - created) / 3600) = false)
    rs ->
  forall (count : Z) (cl : cloud),
    destroy_expired now m rs count cl = (Ok count, cl).
Proof.
  induction 1 as [| r rs (created & Hc & Hyoung) _ IH]; intros count cl; simpl.
  - reflexivity.
  - rewrite Hc, Hyoung. apply IH.
Qed.

(** X26.  [_cleanup_cloudinary_assets] never raises; the count it
    returns lies between 0 and the number of listed resources; if the
    listing raises it returns 0 and has asked nothing else of the
    store; and if every listed resource is younger than the expiry
    window it destroys nothing and returns 0. *)
Theorem cloudinary_sweep_count_is_bounded (now : Q) (m : manager) (cl : cloud) :
  (forall e, api_resources cl = Raise e ->
     _cleanup_cloudinary_assets now m cl = (0, cl))
  /\ (forall rs, api_resources cl = Ok rs ->
      0 <= fst (_cleanup_cloudinary_assets now m cl)
        <= Z.of_nat (List.length rs))
  /\ (forall rs, api_resources cl = Ok rs ->
      List.Forall
        (fun r => exists created,
           created_at r = Some created
           /\ Qle_bool (inject_Z (expiry_hours m)) ((now - created) / 3600)
              = false) rs ->
      _cleanup_cloudinary_assets now m cl = (0, cl)).
Proof.
  unfold StorageLifecycleManager._cleanup_cloudinary_assets.
  split; [| split].
  - intros e ->. reflexivity.
  - intros rs ->.
    destruct (destroy_expired now m rs 0 cl) as [[n | e] cl'] eqn:E; simpl.
    + apply destroy_expired_count in E. lia.
    + lia.
  - intros rs -> Hyoung. rewrite (destroy_expired_none now m rs Hyoung).
    reflexivity.
Qed.

End Manager.
End PendingTableFacts.
